(** * JSON-Schema normalizer and AST builder: a shallow embedding

    The development follows [src/json-schema/normalizer.ts] (the rule
    pipeline) and the AST builder that accompanies it ([parse],
    [parseAsTypeWithCache], [parseNonLiteral], [parseSchema],
    [getDefinitions]).

    Schema nodes are JavaScript objects compared by identity and mutated in
    place, so the embedding works over an explicit store: a value is a
    primitive or a reference into a heap of objects and arrays.  Code that
    can throw returns a result type; recursion over a possibly cyclic graph
    is driven by a budget. *)

From Stdlib Require Import ZArith String Ascii List Bool Lia.
From stdpp Require Import base option list gmap strings pretty.

(** ** JavaScript values, objects and the store *)

Module JS.

(** A JavaScript value.  Numbers are the integers the schema keywords
    [minItems] and [maxItems] range over. *)
Inductive jval : Type :=
| JUndef
| JNull
| JBool (b : bool)
| JNum (z : Z)
| JStr (s : string)
| JRef (l : nat).

#[global] Instance jval_eq_dec : EqDecision jval.
Proof. solve_decision. Defined.

(** An object keeps its own enumerable keys in enumeration order; an array
    keeps its elements.  Keys are assumed not to be canonical array indices
    (which JavaScript would enumerate first). *)
Definition fields : Type := list (string * jval).

Inductive hobj : Type :=
| HObj (fs : fields)
| HArr (elems : list jval).

#[global] Instance hobj_eq_dec : EqDecision hobj.
Proof. solve_decision. Defined.

(** The store: a reference [JRef l] denotes the object at index [l];
    allocation appends. *)
Abbreviation heap := (list hobj).

Definition alloc (h : heap) (o : hobj) : heap * nat := (h ++ [o], length h).

(** Thrown errors, by constructor of the JavaScript error class. *)
Inductive exn : Type :=
| ReferenceError (msg : string)
| TypeError (msg : string)
| RangeError (msg : string)
| Error (msg : string).

Inductive res (A : Type) : Type :=
| Ok (a : A)
| Throw (e : exn)
| OutOfFuel.
Arguments Ok {A} a.
Arguments Throw {A} e.
Arguments OutOfFuel {A}.

Definition rbind {A B} (m : res A) (k : A -> res B) : res B :=
  match m with
  | Ok a => k a
  | Throw e => Throw e
  | OutOfFuel => OutOfFuel
  end.

(** [o.k] on own keys: [undefined] when the key is absent. *)
Fixpoint obj_get (fs : fields) (k : string) : jval :=
  match fs with
  | [] => JUndef
  | (k', v) :: fs' => if String.eqb k k' then v else obj_get fs' k
  end.

(** [k in o]. *)
Fixpoint obj_has (fs : fields) (k : string) : bool :=
  match fs with
  | [] => false
  | (k', _) :: fs' => String.eqb k k' || obj_has fs' k
  end.

(** [o.k = v]: an existing key keeps its position, a new key goes last. *)
Fixpoint obj_set (fs : fields) (k : string) (v : jval) : fields :=
  match fs with
  | [] => [(k, v)]
  | (k', v') :: fs' =>
      if String.eqb k k' then (k', v) :: fs' else (k', v') :: obj_set fs' k v
  end.

(** [delete o.k]. *)
Fixpoint obj_delete (fs : fields) (k : string) : fields :=
  match fs with
  | [] => []
  | (k', v') :: fs' =>
      if String.eqb k k' then obj_delete fs' k else (k', v') :: obj_delete fs' k
  end.

(** [{...a, ...b}]. *)
Definition obj_spread (a b : fields) : fields :=
  fold_left (fun acc kv => obj_set acc (fst kv) (snd kv)) b a.

(** The own properties of the node at [l]; arrays and primitives carry no
    named properties. *)
Definition node_fields (h : heap) (l : nat) : fields :=
  match h !! l with
  | Some (HObj fs) => fs
  | _ => []
  end.

Definition truthy (v : jval) : bool :=
  match v with
  | JUndef | JNull => false
  | JBool b => b
  | JNum z => negb (z =? 0)%Z
  | JStr s => negb (String.eqb s "")
  | JRef _ => true
  end.

(** [a === b]. *)
Definition strict_eq (a b : jval) : bool := bool_decide (a = b).

(** [a || b] on values. *)
Definition js_or (a b : jval) : jval := if truthy a then a else b.

(** [Array.isArray(v)]. *)
Definition isArray (h : heap) (v : jval) : bool :=
  match v with
  | JRef l => match h !! l with Some (HArr _) => true | _ => false end
  | _ => false
  end.

Definition array_elems (h : heap) (v : jval) : option (list jval) :=
  match v with
  | JRef l => match h !! l with Some (HArr es) => Some es | _ => None end
  | _ => None
  end.

(** lodash [isPlainObject(v)]. *)
Definition isPlainObject (h : heap) (v : jval) : bool :=
  match v with
  | JRef l => match h !! l with Some (HObj _) => true | _ => false end
  | _ => false
  end.

(** [arr.includes(x)]. *)
Definition includes (es : list jval) (x : jval) : bool :=
  existsb (strict_eq x) es.

(** [typeof v === "number"]. *)
Definition is_number (v : jval) : bool :=
  match v with JNum _ => true | _ => false end.

(** [typeof v === "object"] ([null] included). *)
Definition typeof_object (v : jval) : bool :=
  match v with JNull | JRef _ => true | _ => false end.

Definition nl : string := String (ascii_of_nat 10) EmptyString.

Fixpoint join (sep : string) (l : list string) : string :=
  match l with
  | [] => ""
  | [s] => s
  | s :: l' => s +:+ sep +:+ join sep l'
  end.

(** The conversions of the language runtime that the embedding leaves
    abstract: [String(o)] of an object or array, and [Number(v)] of a
    string or reference.  [None] stands for [NaN]. *)
Class JsRuntime : Type := {
  ref_to_string : heap -> nat -> string;
  to_number_ext : heap -> jval -> option Z
}.

(** [String(v)], as a template literal applies it. *)
Definition ToString `{JsRuntime} (h : heap) (v : jval) : string :=
  match v with
  | JUndef => "undefined"
  | JNull => "null"
  | JBool true => "true"
  | JBool false => "false"
  | JNum z => pretty z
  | JStr s => s
  | JRef l => ref_to_string h l
  end.

(** [Number(v)]; [None] is [NaN]. *)
Definition ToNumber `{JsRuntime} (h : heap) (v : jval) : option Z :=
  match v with
  | JUndef => None
  | JNull => Some 0%Z
  | JBool true => Some 1%Z
  | JBool false => Some 0%Z
  | JNum z => Some z
  | JStr _ | JRef _ => to_number_ext h v
  end.

(** [a > b] on numbers: false when either side is [NaN]. *)
Definition num_gt (a b : option Z) : bool :=
  match a, b with
  | Some x, Some y => (y <? x)%Z
  | _, _ => false
  end.

Definition num_ge (a b : option Z) : bool :=
  match a, b with
  | Some x, Some y => (y <=? x)%Z
  | _, _ => false
  end.

(** [Array(v)]: a length for a number (a [RangeError] when it is negative),
    otherwise the one-element array holding [v]. *)
Definition js_Array (v : jval) : res (list jval) :=
  match v with
  | JNum z =>
      if (z <? 0)%Z then Throw (RangeError "Invalid array length")
      else Ok (repeat JUndef (Z.to_nat z))
  | _ => Ok [v]
  end.

(** [arr.fill(x)]. *)
Definition fill (es : list jval) (x : jval) : list jval :=
  repeat x (length es).

End JS.

(** ** The normalizer: [normalizer.ts] *)

Module Normalizer.
Import JS.

(** [isSchemaLike] lives in [utils.ts] and inspects the parent link of a
    node, which is not part of the visible store; it is a parameter. *)
Class Utils : Type := {
  isSchemaLike : heap -> nat -> bool
}.

(** A rule receives the node, the file name and the key the node was
    reached under, and mutates the node in place. *)
Definition Rule : Type := heap -> nat -> string -> option string -> res heap.

(** Rules read and assign named properties; on an array or a dangling
    reference every guard of every rule is false. *)
Definition on_object (h : heap) (l : nat) (f : fields -> res heap) : res heap :=
  match h !! l with
  | Some (HObj fs) => f fs
  | _ => Ok h
  end.

Definition store (h : heap) (l : nat) (fs : fields) : heap := <[l := HObj fs]> h.

Definition hasType (h : heap) (fs : fields) (ty : string) : bool :=
  strict_eq (obj_get fs "type") (JStr ty)
  || match array_elems h (obj_get fs "type") with
     | Some tys => includes tys (JStr ty)
     | None => false
     end.

Definition isObjectType (h : heap) (fs : fields) : bool :=
  negb (strict_eq (obj_get fs "properties") JUndef)
  || hasType h fs "object" || hasType h fs "any".

Definition isArrayType (h : heap) (fs : fields) : bool :=
  negb (strict_eq (obj_get fs "items") JUndef)
  || hasType h fs "array" || hasType h fs "any".

(** Remove [type=["null"]] if [enum=[null]]. *)
Definition rule_remove_null_type : Rule := fun h l _ _ =>
  on_object h l (fun fs =>
    match array_elems h (obj_get fs "enum"), array_elems h (obj_get fs "type") with
    | Some en, Some tys =>
        if includes en JNull && includes tys (JStr "null") then
          let '(h1, a) :=
            alloc h (HArr (List.filter (fun t => negb (strict_eq t (JStr "null"))) tys)) in
          Ok (store h1 l (obj_set fs "type" (JRef a)))
        else Ok h
    | _, _ => Ok h
    end).

(** Destructure unary types. *)
Definition rule_destructure_unary : Rule := fun h l _ _ =>
  on_object h l (fun fs =>
    match array_elems h (obj_get fs "type") with
    | Some [t] => Ok (store h l (obj_set fs "type" t))
    | _ => Ok h
    end).

(** Add empty [required] property if none is defined. *)
Definition rule_add_required : Rule := fun h l _ _ =>
  on_object h l (fun fs =>
    if isObjectType h fs && negb (obj_has fs "required") then
      let '(h1, a) := alloc h (HArr []) in
      Ok (store h1 l (obj_set fs "required" (JRef a)))
    else Ok h).

(** Transform [required]=false to [required]=[]. *)
Definition rule_required_false : Rule := fun h l _ _ =>
  on_object h l (fun fs =>
    if strict_eq (obj_get fs "required") (JBool false) then
      let '(h1, a) := alloc h (HArr []) in
      Ok (store h1 l (obj_set fs "required" (JRef a)))
    else Ok h).

(** Default additionalProperties. *)
Definition rule_default_additionalProperties : Rule := fun h l _ _ =>
  on_object h l (fun fs =>
    if isObjectType h fs && negb (obj_has fs "additionalProperties")
       && strict_eq (obj_get fs "patternProperties") JUndef
    then Ok (store h l (obj_set fs "additionalProperties" (JBool true)))
    else Ok h).

Definition id_conflict_message `{JsRuntime} (h : heap) (id id' : jval)
    (fileName : string) : string :=
  "Schema must define either id or $id, not both. Given id=" +:+ ToString h id
  +:+ ", $id=" +:+ ToString h id' +:+ " in " +:+ fileName.

(** Transform id to $id. *)
Definition rule_id_to_dollar_id `{JsRuntime} `{Utils} : Rule := fun h l fileName _ =>
  if negb (isSchemaLike h l) then Ok h else
  on_object h l (fun fs =>
    let id := obj_get fs "id" in
    let id' := obj_get fs "$id" in
    if truthy id && truthy id' && negb (strict_eq id id') then
      Throw (ReferenceError (id_conflict_message h id id' fileName))
    else if truthy id then
      Ok (store h l (obj_delete (obj_set fs "$id" id) "id"))
    else Ok h).

(** Modelled from the spec: [escapeBlockComment] ([utils.ts]) escapes the
    characters of a description that would close a documentation comment:
    every closing marker gets a space between its star and its slash. *)
Fixpoint escape_closing (s : string) : string :=
  match s with
  | EmptyString => EmptyString
  | String c s' =>
      match s' with
      | String c' s'' =>
          if Ascii.eqb c "*" && Ascii.eqb c' "/"
          then String "*" (String " " (String "/" (escape_closing s'')))
          else String c (escape_closing s')
      | EmptyString => String c EmptyString
      end
  end.

Definition escapeBlockComment (h : heap) (l : nat) : heap :=
  match h !! l with
  | Some (HObj fs) =>
      match obj_get fs "description" with
      | JStr d => store h l (obj_set fs "description" (JStr (escape_closing d)))
      | _ => h
      end
  | _ => h
  end.

(** Escape closing JSDoc comment. *)
Definition rule_escape_comment : Rule := fun h l _ _ =>
  Ok (escapeBlockComment h l).

(** Modelled from the spec: [appendToDescription] ([utils.ts]) appends the
    annotation lines to an existing description, after a blank line, and
    yields the lines alone when there is none. *)
Definition appendToDescription `{JsRuntime} (h : heap) (existing : jval)
    (values : list string) : string :=
  if truthy existing
  then ToString h existing +:+ nl +:+ nl +:+ join nl values
  else join nl values.

(** Add JSDoc comments for minItems and maxItems. *)
Definition rule_bound_comments `{JsRuntime} : Rule := fun h l _ _ =>
  on_object h l (fun fs =>
    if negb (isArrayType h fs) then Ok h else
    let commentsToAppend :=
      List.filter (fun s => negb (String.eqb s ""))
        [ if obj_has fs "minItems"
          then "@minItems " +:+ ToString h (obj_get fs "minItems") else "";
          if obj_has fs "maxItems"
          then "@maxItems " +:+ ToString h (obj_get fs "maxItems") else "" ] in
    match commentsToAppend with
    | [] => Ok h
    | _ =>
        Ok (store h l
              (obj_set fs "description"
                 (JStr (appendToDescription h (obj_get fs "description")
                          commentsToAppend))))
    end).

(** Optionally remove maxItems and minItems. *)
Definition rule_remove_bounds : Rule := fun h l _ _ =>
  on_object h l (fun fs =>
    if negb (isArrayType h fs) then Ok h else
    let fs1 := if obj_has fs "minItems" then obj_delete fs "minItems" else fs in
    let fs2 := if obj_has fs1 "maxItems" then obj_delete fs1 "maxItems" else fs1 in
    Ok (store h l fs2)).

(** Normalize schema.minItems. *)
Definition rule_normalize_minItems : Rule := fun h l _ _ =>
  on_object h l (fun fs =>
    if negb (isArrayType h fs) then Ok h else
    let minItems := obj_get fs "minItems" in
    Ok (store h l
          (obj_set fs "minItems" (if is_number minItems then minItems else JNum 0%Z)))).

(** [a - b] on numbers. *)
Definition num_sub (a b : option Z) : option Z :=
  match a, b with
  | Some x, Some y => Some (x - y)%Z
  | _, _ => None
  end.

(** Remove maxItems if it is big enough to likely cause OOMs. *)
Definition rule_remove_big_maxItems `{JsRuntime} : Rule := fun h l _ _ =>
  on_object h l (fun fs =>
    if negb (isArrayType h fs) then Ok h else
    let maxItems := obj_get fs "maxItems" in
    let minItems := obj_get fs "minItems" in
    if negb (strict_eq maxItems JUndef)
       && num_gt (num_sub (ToNumber h maxItems) (ToNumber h minItems)) (Some 20%Z)
    then Ok (store h l (obj_delete fs "maxItems"))
    else Ok h).

Definition hasMaxItems (maxItems : jval) : bool :=
  match maxItems with JNum z => (0 <=? z)%Z | _ => false end.

Definition hasMinItems (minItems : jval) : bool :=
  match minItems with JNum z => (0 <? z)%Z | _ => false end.

(** [arr.slice(0, n)] for a number [n >= 0]. *)
Definition slice0 (es : list jval) (n : Z) : list jval := take (Z.to_nat n) es.

(** Normalize schema.items: the replication of a single item schema. *)
Definition items_replicate (h : heap) (l : nat) : res heap :=
  on_object h l (fun fs =>
    let maxItems := obj_get fs "maxItems" in
    let minItems := obj_get fs "minItems" in
    let items := obj_get fs "items" in
    if truthy items && negb (isArray h items)
       && (hasMaxItems maxItems || hasMinItems minItems)
    then
      rbind (js_Array (js_or (js_or maxItems minItems) (JNum 0%Z))) (fun arr =>
        let '(h1, a) := alloc h (HArr (fill arr items)) in
        let fs1 :=
          if negb (hasMaxItems maxItems) then obj_set fs "additionalItems" items
          else fs in
        Ok (store h1 l (obj_set fs1 "items" (JRef a))))
    else Ok h).

(** Normalize schema.items: the truncation of a positional item list. *)
Definition items_truncate (h : heap) (l : nat) (maxItems : jval) : res heap :=
  on_object h l (fun fs =>
    match array_elems h (obj_get fs "items"), maxItems with
    | Some es, JNum z =>
        if hasMaxItems maxItems && (z <? Z.of_nat (length es))%Z then
          let '(h1, a) := alloc h (HArr (slice0 es z)) in
          Ok (store h1 l (obj_set fs "items" (JRef a)))
        else Ok h
    | _, _ => Ok h
    end).

(** Normalize schema.items.  [maxItems] and [minItems] are read once, on
    entry. *)
Definition rule_normalize_items : Rule := fun h l _ _ =>
  let maxItems := obj_get (node_fields h l) "maxItems" in
  rbind (items_replicate h l) (fun h1 => items_truncate h1 l maxItems).

(** [v == null]. *)
Definition is_nullish (v : jval) : bool :=
  match v with JUndef | JNull => true | _ => false end.

(** Remove extends, if it is empty. *)
Definition rule_remove_empty_extends : Rule := fun h l _ _ =>
  on_object h l (fun fs =>
    if negb (obj_has fs "extends") then Ok h else
    let ext := obj_get fs "extends" in
    if is_nullish ext
       || match array_elems h ext with Some [] => true | _ => false end
    then Ok (store h l (obj_delete fs "extends"))
    else Ok h).

(** Make extends always an array, if it is defined. *)
Definition rule_extends_array : Rule := fun h l _ _ =>
  on_object h l (fun fs =>
    let ext := obj_get fs "extends" in
    if is_nullish ext then Ok h else
    if negb (isArray h ext) then
      let '(h1, a) := alloc h (HArr [ext]) in
      Ok (store h1 l (obj_set fs "extends" (JRef a)))
    else Ok h).

(** Transform const to singleton enum. *)
Definition rule_const_to_enum : Rule := fun h l _ _ =>
  on_object h l (fun fs =>
    if negb (strict_eq (obj_get fs "const") JUndef) then
      let '(h1, a) := alloc h (HArr [obj_get fs "const"]) in
      Ok (store h1 l (obj_delete (obj_set fs "enum" (JRef a)) "const"))
    else Ok h).

(** The rule registry, in insertion order (the first name is written in the
    source with quotation marks around [null]). *)
Definition rules `{JsRuntime} `{Utils} : list (string * Rule) :=
  [ ("Remove `type=[null]` if `enum=[null]`", rule_remove_null_type);
    ("Destructure unary types", rule_destructure_unary);
    ("Add empty `required` property if none is defined", rule_add_required);
    ("Transform `required`=false to `required`=[]", rule_required_false);
    ("Default additionalProperties", rule_default_additionalProperties);
    ("Transform id to $id", rule_id_to_dollar_id);
    ("Escape closing JSDoc comment", rule_escape_comment);
    ("Add JSDoc comments for minItems and maxItems", rule_bound_comments);
    ("Optionally remove maxItems and minItems", rule_remove_bounds);
    ("Normalize schema.minItems", rule_normalize_minItems);
    ("Remove maxItems if it is big enough to likely cause OOMs",
     rule_remove_big_maxItems);
    ("Normalize schema.items", rule_normalize_items);
    ("Remove extends, if it is empty", rule_remove_empty_extends);
    ("Make extends always an array, if it is defined", rule_extends_array);
    ("Transform const to singleton enum", rule_const_to_enum) ].

(** The object-valued entries of a map-shaped keyword, with their keys. *)
Definition map_children (h : heap) (v : jval) : list (option string * nat) :=
  match v with
  | JRef m =>
      match h !! m with
      | Some (HObj fs) =>
          omap (fun kv => match snd kv with
                          | JRef c => Some (Some (fst kv), c)
                          | _ => None
                          end) fs
      | _ => []
      end
  | _ => []
  end.

(** The object-valued members of a list-shaped keyword, or the keyword's
    value itself when it is a single schema. *)
Definition list_children (h : heap) (v : jval) : list (option string * nat) :=
  match v with
  | JRef m =>
      match h !! m with
      | Some (HArr es) =>
          omap (fun e => match e with JRef c => Some (None, c) | _ => None end) es
      | Some (HObj _) => [(None, m)]
      | None => []
      end
  | _ => []
  end.

(** Modelled from the spec: the structural children of a node, as the
    Traversal Engine ([traverse] of [utils.ts]) reaches them: property
    values, [items], schema-valued [additionalItems] and
    [additionalProperties], the members of [allOf], [anyOf] and [oneOf],
    [extends], and definition-map values. *)
Definition children (h : heap) (l : nat) : list (option string * nat) :=
  let fs := node_fields h l in
  map_children h (obj_get fs "properties")
  ++ list_children h (obj_get fs "items")
  ++ list_children h (obj_get fs "additionalItems")
  ++ list_children h (obj_get fs "additionalProperties")
  ++ list_children h (obj_get fs "allOf")
  ++ list_children h (obj_get fs "anyOf")
  ++ list_children h (obj_get fs "oneOf")
  ++ list_children h (obj_get fs "extends")
  ++ map_children h (obj_get fs "$defs").

(** Modelled from the spec: [traverse] ([utils.ts]) visits the root and then
    every structural child, each node once per walk: a per-walk set of
    visited identities makes a revisit a no-op. *)
Fixpoint traverse (fuel : nat) (callback : heap -> nat -> option string -> res heap)
    (h : heap) (l : nat) (key : option string) (visited : list nat)
    : res (heap * list nat) :=
  match fuel with
  | O => OutOfFuel
  | S n =>
      if bool_decide (l ∈ visited) then Ok (h, visited) else
      rbind (callback h l key) (fun h1 =>
        fold_left
          (fun acc kc =>
             rbind acc (fun hv => traverse n callback (fst hv) (snd kc) (fst kc) (snd hv)))
          (children h1 l) (Ok (h1, l :: visited)))
  end.

(** A node whose [items] is a positional list no longer than its upper
    bound is left alone by the items rule. *)
Definition within_bound (maxItems : jval) (es : list jval) : bool :=
  match maxItems with
  | JNum z => negb (hasMaxItems maxItems && (z <? Z.of_nat (length es))%Z)
  | _ => true
  end.

(** A rule is idempotent at a node when applying it twice, the second time
    to the store the first application left (or not at all when the first
    threw), gives what applying it once gives. *)
Definition idempotent_at (r : Rule) (h : heap) (l : nat) (fileName : string)
    (key : option string) : Prop :=
  rbind (r h l fileName key) (fun h' => r h' l fileName key) = r h l fileName key.

(** Two rules applied to one node in turn, the second to the store the
    first one left. *)
Definition and_then (r1 r2 : Rule) : Rule := fun h l fileName key =>
  rbind (r1 h l fileName key) (fun h' => r2 h' l fileName key).

(** A change of the store that leaves every object other than [l] as it
    was, never touches a list, and otherwise only adds objects. *)
Definition writes_only (l : nat) (h h' : heap) : Prop :=
  length h ≤ length h'
  ∧ (∀ l', l' ≠ l → l' < length h → h' !! l' = h !! l')
  ∧ (∀ es, h !! l = Some (HArr es) → h' !! l = Some (HArr es)).

(** The schema types make a [type] list hold type names, which are strings. *)
Definition type_names_are_strings (h : heap) (l : nat) : Prop :=
  ∀ tys, array_elems h (obj_get (node_fields h l) "type") = Some tys →
         Forall (fun t => ∃ s, t = JStr s) tys.

(** [normalize]: one full walk per rule, in registry order. *)
Definition normalize `{JsRuntime} `{Utils} (fuel : nat) (rootSchema : nat)
    (filename : string) (h : heap) : res heap :=
  fold_left
    (fun acc rule =>
       rbind acc (fun h' =>
         rbind (traverse fuel (fun h0 l key => snd rule h0 l filename key)
                  h' rootSchema None [])
               (fun hv => Ok (fst hv))))
    rules (Ok h).

End Normalizer.

(** ** The AST builder *)

Module Parser.
Import JS.

(** The category tags of the Type Classifier. *)
Inductive SchemaType : Type :=
| ALL_OF | ANY | ANY_OF | BOOLEAN | CUSTOM_TYPE | NAMED_ENUM | NAMED_SCHEMA
| NEVER | NULL | NUMBER | OBJECT | ONE_OF | REFERENCE | STRING | TYPED_ARRAY
| UNION | UNNAMED_ENUM | UNNAMED_SCHEMA | UNTYPED_ARRAY.

#[global] Instance SchemaType_eq_dec : EqDecision SchemaType.
Proof. solve_decision. Defined.

Definition SchemaType_code (t : SchemaType) : nat :=
  match t with
  | ALL_OF => 0 | ANY => 1 | ANY_OF => 2 | BOOLEAN => 3 | CUSTOM_TYPE => 4
  | NAMED_ENUM => 5 | NAMED_SCHEMA => 6 | NEVER => 7 | NULL => 8 | NUMBER => 9
  | OBJECT => 10 | ONE_OF => 11 | REFERENCE => 12 | STRING => 13
  | TYPED_ARRAY => 14 | UNION => 15 | UNNAMED_ENUM => 16 | UNNAMED_SCHEMA => 17
  | UNTYPED_ARRAY => 18
  end.

Definition SchemaType_of_code (n : nat) : SchemaType :=
  match n with
  | 0 => ALL_OF | 1 => ANY | 2 => ANY_OF | 3 => BOOLEAN | 4 => CUSTOM_TYPE
  | 5 => NAMED_ENUM | 6 => NAMED_SCHEMA | 7 => NEVER | 8 => NULL | 9 => NUMBER
  | 10 => OBJECT | 11 => ONE_OF | 12 => REFERENCE | 13 => STRING
  | 14 => TYPED_ARRAY | 15 => UNION | 16 => UNNAMED_ENUM | 17 => UNNAMED_SCHEMA
  | _ => UNTYPED_ARRAY
  end.

#[global] Instance SchemaType_countable : Countable SchemaType.
Proof.
  apply (inj_countable' SchemaType_code SchemaType_of_code).
  intros []; reflexivity.
Defined.

(** The [type] of an AST node. *)
Inductive ASTType : Type :=
| A_ANY | A_ARRAY | A_BOOLEAN | A_CUSTOM_TYPE | A_ENUM | A_INTERFACE
| A_INTERSECTION | A_LITERAL | A_NEVER | A_NULL | A_NUMBER | A_OBJECT
| A_STRING | A_TUPLE | A_UNION.

(** A member of an INTERFACE; [ast] is the identity of the member's node. *)
Record TInterfaceParam : Type := {
  ast : nat;
  isPatternProperty : bool;
  isRequired : bool;
  isUnreachableDefinition : bool;
  paramKeyName : string
}.

Record TEnumParam : Type := {
  enumAst : nat;
  enumKeyName : jval
}.

(** The [params] property, whose shape depends on the node's [type]. *)
Inductive Params : Type :=
| NoParams
| ParamList (l : list nat)
| ParamOne (a : nat)
| ParamValue (v : jval)
| ParamEnum (l : list TEnumParam)
| ParamMembers (l : list TInterfaceParam).

(** An AST object.  [ast_type = None] is the empty placeholder [{}]. *)
Record AST : Type := {
  ast_type : option ASTType;
  ast_comment : jval;
  ast_deprecated : jval;
  ast_keyName : option string;
  ast_standaloneName : option string;
  ast_params : Params;
  ast_superTypes : list nat;
  ast_maxItems : jval;
  ast_minItems : jval;
  ast_spreadParam : option nat
}.

Definition empty_ast : AST :=
  {| ast_type := None; ast_comment := JUndef; ast_deprecated := JUndef; ast_keyName := None;
     ast_standaloneName := None; ast_params := NoParams; ast_superTypes := [];
     ast_maxItems := JUndef; ast_minItems := JUndef; ast_spreadParam := None |}.

(** The object literal shared by most cases of [parseNonLiteral]. *)
Definition node (c d : jval) (k sn : option string) (p : Params) (t : ASTType) : AST :=
  {| ast_type := Some t; ast_comment := c; ast_deprecated := d; ast_keyName := k;
     ast_standaloneName := sn; ast_params := p; ast_superTypes := [];
     ast_maxItems := JUndef; ast_minItems := JUndef; ast_spreadParam := None |}.

Definition tuple (c d : jval) (k : option string) (mx mn : jval)
    (sn : option string) (p : list nat) (sp : option nat) : AST :=
  {| ast_type := Some A_TUPLE; ast_comment := c; ast_deprecated := d; ast_keyName := k;
     ast_standaloneName := sn; ast_params := ParamList p; ast_superTypes := [];
     ast_maxItems := mx; ast_minItems := mn; ast_spreadParam := sp |}.

Definition set_comment (a : AST) (c : jval) : AST :=
  {| ast_type := ast_type a; ast_comment := c; ast_deprecated := ast_deprecated a;
     ast_keyName := ast_keyName a; ast_standaloneName := ast_standaloneName a;
     ast_params := ast_params a; ast_superTypes := ast_superTypes a; ast_maxItems := ast_maxItems a;
     ast_minItems := ast_minItems a; ast_spreadParam := ast_spreadParam a |}.

Definition set_params (a : AST) (p : Params) : AST :=
  {| ast_type := ast_type a; ast_comment := ast_comment a; ast_deprecated := ast_deprecated a;
     ast_keyName := ast_keyName a; ast_standaloneName := ast_standaloneName a;
     ast_params := p; ast_superTypes := ast_superTypes a; ast_maxItems := ast_maxItems a;
     ast_minItems := ast_minItems a; ast_spreadParam := ast_spreadParam a |}.

(** Modelled from the spec: the shared constants [T_ANY] and
    [T_ANY_ADDITIONAL_PROPERTIES] of [types.ts], the open catch-all of any
    type; they are the first two objects of the AST store. *)
Definition T_ANY : nat := 0.
Definition T_ANY_ADDITIONAL_PROPERTIES : nat := 1.

Definition T_ANY_node : AST := node JUndef JUndef None None NoParams A_ANY.
Definition T_ANY_ADDITIONAL_PROPERTIES_node : AST :=
  node JUndef JUndef (Some "[k: string]") None NoParams A_ANY.

(** The collaborators of [utils.ts] and [types-of.ts] that are parameters
    of the builder: the Type Classifier, the root of a node (found through
    its parent links), the Name Allocator, and the two stripping helpers,
    which may rewrite the store and return the node to build from. *)
Class Utils : Type := {
  typesOfSchema : heap -> nat -> list SchemaType;
  getRootSchema : heap -> nat -> nat;
  generateName : jval -> gset string -> string * gset string;
  maybeStripNameHints : heap -> nat -> heap * nat;
  maybeStripDefault : heap -> nat -> heap * nat
}.

(** Modelled from the spec: [isPrimitive] ([utils.ts]) holds of every value
    that is not a full schema object. *)
Definition isPrimitive (h : heap) (v : jval) : bool := negb (isPlainObject h v).

(** Modelled from the spec: [isBoolean] ([utils.ts]) recognises the boolean
    schemas. *)
Definition isBoolean (v : jval) : bool :=
  match v with JBool _ => true | _ => false end.

(** *** The Definitions Collector *)

(** The own enumerable properties a spread [{...v}] copies. *)
Definition spread_of (h : heap) (v : jval) : fields :=
  match v with
  | JRef l =>
      match h !! l with
      | Some (HObj fs) => fs
      | Some (HArr es) => imap (fun i e => (pretty i, e)) es
      | None => []
      end
  | JStr s =>
      imap (fun i c => (pretty i, JStr (String c EmptyString))) (list_ascii_of_string s)
  | _ => []
  end.

(** The two [reduce] calls of [getDefinitions]: the results of the walks
    from the members [vs] are spread, in order, over the accumulator, and
    the set of visited nodes is threaded through. *)
Definition reduce_definitions
    (walk : jval -> list jval -> option (fields * list jval))
    (vs : list jval) (processed : list jval) : option (fields * list jval) :=
  fold_left
    (fun acc cur =>
       match acc with
       | Some (prev, p) =>
           match walk cur p with
           | Some (d, p') => Some (obj_spread prev d, p')
           | None => None
           end
       | None => None
       end) vs (Some ([], processed)).

(** [getDefinitions(schema, isSchema, processed)].  The budget bounds the
    depth of the walk; [getDefinitions] below supplies one that is always
    enough. *)
Fixpoint getDefinitions_rec (fuel : nat) (h : heap) (schema : jval)
    (isSchema : bool) (processed : list jval) : option (fields * list jval) :=
  match fuel with
  | O => None
  | S n =>
      if bool_decide (schema ∈ processed) then Some ([], processed) else
      let processed := schema :: processed in
      let reduce := reduce_definitions (fun cur p => getDefinitions_rec n h cur false p) in
      match schema with
      | JRef l =>
          match h !! l with
          | Some (HArr es) => reduce es processed
          | Some (HObj fs) =>
              let own :=
                if isSchema && obj_has fs "$defs"
                then spread_of h (obj_get fs "$defs") else [] in
              match reduce (map (fun kv => obj_get fs (fst kv)) fs) processed with
              | Some (nested, p') => Some (obj_spread own nested, p')
              | None => None
              end
          | None => Some ([], processed)
          end
      | _ => Some ([], processed)
      end
  end.

(** What a node contributes by itself: its own definition map, when the
    node is taken as a schema. *)
Definition own_definitions (h : heap) (schema : jval) (isSchema : bool) : fields :=
  match schema with
  | JRef l =>
      match h !! l with
      | Some (HObj fs) =>
          if isSchema && obj_has fs "$defs"
          then spread_of h (obj_get fs "$defs") else []
      | _ => []
      end
  | _ => []
  end.

(** [getDefinitions(schema)], with the default arguments of the source. *)
Definition getDefinitions (h : heap) (schema : jval) : fields :=
  match getDefinitions_rec (S (length h)) h schema true [] with
  | Some (d, _) => d
  | None => []
  end.

(** lodash [findKey(definitions, _ => _ === schema)]. *)
Fixpoint findKey (definitions : fields) (schema : jval) : option string :=
  match definitions with
  | [] => None
  | (k, v) :: rest => if strict_eq v schema then Some k else findKey rest schema
  end.

(** *** The state of one build *)

(** The schema store, the store of AST objects, the Build Cache
    ([processed]: node identity, then category, to AST identity), the
    Used-Names Set, and the cache lodash's [memoize] keeps for
    [getDefinitions], keyed by the identity of its argument. *)
Record BuildState : Type := {
  schemas : heap;
  asts : list AST;
  processed : gmap nat (gmap SchemaType nat);
  usedNames : gset string;
  definitionsCache : gmap nat fields
}.

Definition set_schemas (h : heap) (st : BuildState) : BuildState :=
  {| schemas := h; asts := asts st; processed := processed st;
     usedNames := usedNames st; definitionsCache := definitionsCache st |}.

Definition set_asts (l : list AST) (st : BuildState) : BuildState :=
  {| schemas := schemas st; asts := l; processed := processed st;
     usedNames := usedNames st; definitionsCache := definitionsCache st |}.

Definition set_processed (c : gmap nat (gmap SchemaType nat)) (st : BuildState)
    : BuildState :=
  {| schemas := schemas st; asts := asts st; processed := c;
     usedNames := usedNames st; definitionsCache := definitionsCache st |}.

Definition set_usedNames (u : gset string) (st : BuildState) : BuildState :=
  {| schemas := schemas st; asts := asts st; processed := processed st;
     usedNames := u; definitionsCache := definitionsCache st |}.

Definition set_definitionsCache (m : gmap nat fields) (st : BuildState) : BuildState :=
  {| schemas := schemas st; asts := asts st; processed := processed st;
     usedNames := usedNames st; definitionsCache := m |}.

Definition M (A : Type) : Type := BuildState -> res (A * BuildState).

Definition ret {A} (a : A) : M A := fun st => Ok (a, st).

Definition bind {A B} (m : M A) (k : A -> M B) : M B := fun st =>
  match m st with
  | Ok (a, st') => k a st'
  | Throw e => Throw e
  | OutOfFuel => OutOfFuel
  end.

Definition throw {A} (e : exn) : M A := fun _ => Throw e.

Notation "'let*' x ':=' m 'in' k" := (bind m (fun x => k))
  (at level 10, x pattern, m at level 100, k at level 200).

Fixpoint mapM {A B} (f : A -> M B) (l : list A) : M (list B) :=
  match l with
  | [] => ret []
  | x :: xs => let* y := f x in let* ys := mapM f xs in ret (y :: ys)
  end.

Definition get_schemas : M heap := fun st => Ok (schemas st, st).

Definition put_schemas (h : heap) : M unit := fun st => Ok (tt, set_schemas h st).

(** [schema.k], read from the store as it is at that point. *)
Definition field (schema : nat) (k : string) : M jval := fun st =>
  Ok (obj_get (node_fields (schemas st) schema) k, st).

(** A new object in the schema store. *)
Definition new_schema (o : hobj) : M nat := fun st =>
  Ok (length (schemas st), set_schemas (schemas st ++ [o]) st).

(** A new AST object. *)
Definition new_ast (a : AST) : M nat := fun st =>
  Ok (length (asts st), set_asts (asts st ++ [a]) st).

(** An update of the AST object at [a], in place. *)
Definition update_ast (a : nat) (f : AST -> AST) : M unit := fun st =>
  Ok (tt,
      set_asts (match asts st !! a with
                | Some n => <[a := f n]> (asts st)
                | None => asts st
                end) st).

Definition get_ast (a : nat) : M AST := fun st =>
  Ok (default empty_ast (asts st !! a), st).

(** [processed.get(schema)?.get(type)]. *)
Definition cache_lookup (c : gmap nat (gmap SchemaType nat)) (schema : nat)
    (ty : SchemaType) : option nat :=
  match c !! schema with
  | Some m => m !! ty
  | None => None
  end.

(** [cachedTypeMap.set(type, ast)], after [processed.set(schema, new Map())]
    when the node had no map yet. *)
Definition cache_insert (c : gmap nat (gmap SchemaType nat)) (schema : nat)
    (ty : SchemaType) (a : nat) : gmap nat (gmap SchemaType nat) :=
  <[schema := <[ty := a]> (default ∅ (c !! schema))]> c.

Definition cache_set (schema : nat) (ty : SchemaType) (a : nat) : M unit := fun st =>
  Ok (tt, set_processed (cache_insert (processed st) schema ty a) st).

(** [getDefinitionsMemoized]: lodash [memoize] answers from its cache when
    the argument has been seen, and calls [getDefinitions] otherwise. *)
Definition getDefinitionsMemoized (root : nat) : M fields := fun st =>
  match definitionsCache st !! root with
  | Some d => Ok (d, st)
  | None =>
      let d := getDefinitions (schemas st) (JRef root) in
      Ok (d, set_definitionsCache (<[root := d]> (definitionsCache st)) st)
  end.

(** [arr.map(f)]: the length is fixed on entry and each element is read
    when its turn comes. *)
Definition elem_at (h : heap) (arr : jval) (i : nat) : jval :=
  match array_elems h arr with
  | Some es => default JUndef (es !! i)
  | None => JUndef
  end.

Definition array_map {A} (arr : jval) (f : jval -> nat -> M A) : M (list A) :=
  let* h := get_schemas in
  match array_elems h arr with
  | Some es =>
      mapM (fun i => let* h' := get_schemas in f (elem_at h' arr i) i)
           (seq 0 (length es))
  | None => throw (TypeError "map is not a function")
  end.

(** The keys lodash's [map] walks over.  [properties], [patternProperties]
    and [$defs] are maps or absent; any other value has no entries here. *)
Definition keys_of (h : heap) (v : jval) : list string :=
  match v with
  | JRef l => match h !! l with Some (HObj fs) => map fst fs | _ => [] end
  | _ => []
  end.

Definition prop_of (h : heap) (v : jval) (k : string) : jval :=
  match v with
  | JRef l => obj_get (node_fields h l) k
  | _ => JUndef
  end.

(** lodash [map(collection, iteratee)] on a map: the keys are fixed on
    entry and each value is read when its turn comes. *)
Definition lodash_map {A} (collection : jval) (iteratee : jval -> string -> M A)
    : M (list A) :=
  let* h := get_schemas in
  mapM (fun k => let* h' := get_schemas in iteratee (prop_of h' collection k) k)
       (keys_of h collection).

Fixpoint is_prefix (p s : string) : bool :=
  match p, s with
  | EmptyString, _ => true
  | String a p', String b s' => Ascii.eqb a b && is_prefix p' s'
  | String _ _, EmptyString => false
  end.

Fixpoint is_substring (p s : string) : bool :=
  is_prefix p s
  || match s with
     | EmptyString => false
     | String _ s' => is_substring p s'
     end.

(** lodash [includes(collection, value)] for a string [value]. *)
Definition lodash_includes (h : heap) (collection : jval) (value : string) : bool :=
  match collection with
  | JRef l =>
      match h !! l with
      | Some (HArr es) => includes es (JStr value)
      | Some (HObj fs) => includes (map snd fs) (JStr value)
      | None => false
      end
  | JStr s => is_substring value s
  | _ => false
  end.

(** [includes(schema.required || [], key)]. *)
Definition in_required (schema : nat) (key : string) : M bool :=
  let* h := get_schemas in
  let* required := field schema "required" in
  ret (if truthy required then lodash_includes h required key else false).

(** [o[n]] for an index [n]. *)
Definition index_read (h : heap) (o : jval) (n : nat) : res jval :=
  match o with
  | JUndef | JNull => Throw (TypeError "Cannot read properties of undefined")
  | JRef l =>
      match h !! l with
      | Some (HArr es) => Ok (default JUndef (es !! n))
      | Some (HObj fs) => Ok (obj_get fs (pretty n))
      | None => Ok JUndef
      end
  | JStr s =>
      Ok (match list_ascii_of_string s !! n with
          | Some c => JStr (String c EmptyString)
          | None => JUndef
          end)
  | _ => Ok JUndef
  end.

(** [Object.values(o)]. *)
Definition object_values (h : heap) (o : jval) : res (list jval) :=
  match o with
  | JUndef | JNull => Throw (TypeError "Cannot convert undefined or null to object")
  | _ => Ok (map snd (spread_of h o))
  end.

Definition of_key (k : option string) : jval :=
  match k with Some s => JStr s | None => JUndef end.

(** [s.replace(pat, by)] for a string pattern: the first occurrence only. *)
Fixpoint replace_first (pat by_ s : string) : string :=
  if is_prefix pat s then by_ +:+ String.substring (String.length pat) (String.length s) s
  else match s with
       | EmptyString => EmptyString
       | String c s' => String c (replace_first pat by_ s')
       end.

Definition dq : string := String (ascii_of_nat 34) EmptyString.
Definition backslash : string := String (ascii_of_nat 92) EmptyString.

Section Builder.
Context `{JsRuntime} `{Utils}.

(** Compute a schema name using a series of fallbacks. *)
Definition standaloneName (schema : nat) (keyNameFromDefinition : option string)
    : M (option string) :=
  let* title := field schema "title" in
  let* id := field schema "$id" in
  let name := js_or (js_or title id) (of_key keyNameFromDefinition) in
  if truthy name then
    fun st =>
      Ok (Some (fst (generateName name (usedNames st))),
          set_usedNames (snd (generateName name (usedNames st))) st)
  else ret None.

Definition parseBooleanSchema (schema : bool) (keyName : option string) : M nat :=
  new_ast (node JUndef JUndef keyName None NoParams (if schema then A_ANY else A_NEVER)).

Definition parseLiteral (schema : jval) (keyName : option string) : M nat :=
  new_ast (node JUndef JUndef keyName None (ParamValue schema) A_LITERAL).

(** [ast.comment = ast.comment ? `${ast.comment}\n\n${comment}` : comment]. *)
Definition append_comment (a : nat) (c : string) : M unit :=
  let* h := get_schemas in
  update_ast a (fun n =>
    set_comment n
      (JStr (if truthy (ast_comment n)
             then ToString h (ast_comment n) +:+ nl +:+ nl +:+ c else c))).

Definition name_in_template (n : option string) : string :=
  match n with Some s => s | None => "undefined" end.

Definition patternProperty_comment (parentSchemaName : option string) (key : string)
    : string :=
  "This interface was referenced by `" +:+ name_in_template parentSchemaName
  +:+ "`'s JSON-Schema definition" +:+ nl +:+ "via the `patternProperty` " +:+ dq
  +:+ replace_first "*/" ("*" +:+ backslash +:+ "/") key +:+ dq +:+ ".".

Definition definition_comment (parentSchemaName : option string) (key : string)
    : string :=
  "This interface was referenced by `" +:+ name_in_template parentSchemaName
  +:+ "`'s JSON-Schema" +:+ nl +:+ "via the `definition` " +:+ dq +:+ key +:+ dq +:+ ".".

Definition catch_all (a : nat) : TInterfaceParam :=
  {| ast := a; isPatternProperty := false; isRequired := true;
     isUnreachableDefinition := false; paramKeyName := "[k: string]" |}.

Section Recursive.
(** The recursive [parse], one level down. *)
Variable parse : jval -> option string -> M nat.

Definition parseSuperTypes (schema : nat) : M (list nat) :=
  let* superTypes := field schema "extends" in
  if negb (truthy superTypes) then ret []
  else array_map superTypes (fun v _ => parse v None).

(** Helper to parse schema properties into params on the parent schema's
    type. *)
Definition parseSchema (schema : nat) (parentSchemaName : option string)
    : M (list TInterfaceParam) :=
  let* properties := field schema "properties" in
  let* asts1 :=
    lodash_map properties (fun value key =>
      let* a := parse value (Some key) in
      let* req := in_required schema key in
      ret {| ast := a; isPatternProperty := false; isRequired := req;
             isUnreachableDefinition := false; paramKeyName := key |}) in
  let* patternProperties := field schema "patternProperties" in
  let* h := get_schemas in
  let* additionalProperties0 := field schema "additionalProperties" in
  let singlePatternProperty :=
    truthy patternProperties && negb (truthy additionalProperties0)
    && (length (keys_of h patternProperties) =? 1)%nat in
  let* asts2 :=
    if truthy patternProperties then
      lodash_map patternProperties (fun value key =>
        let* a := parse value (Some key) in
        let* _ := append_comment a (patternProperty_comment parentSchemaName key) in
        let* req := if singlePatternProperty then ret true
                    else in_required schema key in
        ret {| ast := a; isPatternProperty := negb singlePatternProperty;
               isRequired := req; isUnreachableDefinition := false;
               paramKeyName := if singlePatternProperty then "[k: string]" else key |})
    else ret [] in
  let* defs := field schema "$defs" in
  let* asts3 :=
    lodash_map defs (fun value key =>
      let* a := parse value (Some key) in
      let* _ := append_comment a (definition_comment parentSchemaName key) in
      let* req := in_required schema key in
      ret {| ast := a; isPatternProperty := false; isRequired := req;
             isUnreachableDefinition := true; paramKeyName := key |}) in
  let members := asts1 ++ asts2 ++ asts3 in
  let* additionalProperties := field schema "additionalProperties" in
  match additionalProperties with
  | JUndef | JBool true =>
      if singlePatternProperty then ret members
      else ret (members ++ [catch_all T_ANY_ADDITIONAL_PROPERTIES])
  | JBool false => ret members
  | _ =>
      let* a := parse additionalProperties (Some "[k: string]") in
      ret (members ++ [catch_all a])
  end.

Definition newInterface (schema : nat) (keyName keyNameFromDefinition : option string)
    : M AST :=
  let* name := standaloneName schema keyNameFromDefinition in
  let* description := field schema "description" in
  let* dep := field schema "deprecated" in
  let* members := parseSchema schema name in
  let* supers := parseSuperTypes schema in
  ret {| ast_type := Some A_INTERFACE; ast_comment := description;
         ast_deprecated := dep; ast_keyName := keyName; ast_standaloneName := name;
         ast_params := ParamMembers members; ast_superTypes := supers;
         ast_maxItems := JUndef; ast_minItems := JUndef; ast_spreadParam := None |}.

(** The two stripping helpers act on the schema store. *)
Definition strip_with (f : heap -> nat -> heap * nat) (schema : nat) : M nat :=
  let* h := get_schemas in
  let* _ := put_schemas (fst (f h schema)) in
  ret (snd (f h schema)).

(** [keyNameFromDefinition ?? keyName]. *)
Definition coalesce (a b : option string) : option string :=
  match a with Some _ => a | None => b end.

(** [Math.max(a, b) || 0]. *)
Definition max_or_zero (a b : option Z) : Z :=
  match a, b with
  | Some x, Some y => Z.max x y
  | _, _ => 0%Z
  end.

Definition parseNonLiteral (schema : nat) (ty : SchemaType) (keyName : option string)
    : M AST :=
  let* h := get_schemas in
  let* definitions := getDefinitionsMemoized (getRootSchema h schema) in
  let keyNameFromDefinition := findKey definitions (JRef schema) in
  let* description := field schema "description" in
  let* dep := field schema "deprecated" in
  let plain (t : ASTType) : M AST :=
    let* sn := standaloneName schema keyNameFromDefinition in
    ret (node description dep keyName sn NoParams t) in
  let members_of (k : string) (t : ASTType) : M AST :=
    let* sn := standaloneName schema keyNameFromDefinition in
    let* members := field schema k in
    let* ps := array_map members (fun v _ => parse v None) in
    ret (node description dep keyName sn (ParamList ps) t) in
  match ty with
  | ALL_OF => members_of "allOf" A_INTERSECTION
  | ANY =>
      let* any := get_ast T_ANY in
      let* sn := standaloneName schema keyNameFromDefinition in
      ret {| ast_type := ast_type any; ast_comment := description;
             ast_deprecated := dep; ast_keyName := keyName;
             ast_standaloneName := sn; ast_params := ast_params any;
             ast_superTypes := ast_superTypes any; ast_maxItems := ast_maxItems any;
             ast_minItems := ast_minItems any; ast_spreadParam := ast_spreadParam any |}
  | ANY_OF => members_of "anyOf" A_UNION
  | BOOLEAN => plain A_BOOLEAN
  | CUSTOM_TYPE =>
      let* tsType := field schema "tsType" in
      let* sn := standaloneName schema keyNameFromDefinition in
      ret (node description dep keyName sn (ParamValue tsType) A_CUSTOM_TYPE)
  | NAMED_ENUM =>
      let* enum := field schema "enum" in
      if negb (isArray h enum) then throw (TypeError "schema.enum is an object")
      else
        let* params2 :=
          array_map enum (fun v n =>
            let* a := parseLiteral v None in
            let* tsEnumNames := field schema "tsEnumNames" in
            let* h' := get_schemas in
            match index_read h' tsEnumNames n with
            | Ok k => ret {| enumAst := a; enumKeyName := k |}
            | Throw e => throw e
            | OutOfFuel => fun _ => OutOfFuel
            end) in
        let* _ := standaloneName schema (coalesce keyNameFromDefinition keyName) in
        let* sn := standaloneName schema (coalesce keyNameFromDefinition keyName) in
        ret (node description dep keyName sn (ParamEnum params2) A_ENUM)
  | NAMED_SCHEMA => newInterface schema keyName None
  | NEVER => plain A_NEVER
  | NULL => plain A_NULL
  | NUMBER => plain A_NUMBER
  | OBJECT => plain A_OBJECT
  | ONE_OF => members_of "oneOf" A_UNION
  | REFERENCE =>
      throw (Error ("Refs should have been resolved by the resolver! - "
                    +:+ ToString h (JRef schema)))
  | STRING => plain A_STRING
  | TYPED_ARRAY =>
      let* items := field schema "items" in
      if isArray h items then
        let* mn := field schema "minItems" in
        let* mx := field schema "maxItems" in
        let* sn := standaloneName schema keyNameFromDefinition in
        let* ps := array_map items (fun v _ => parse v None) in
        let* additionalItems := field schema "additionalItems" in
        let* sp :=
          if strict_eq additionalItems (JBool true) then ret (Some T_ANY)
          else if truthy additionalItems then
            let* a := parse additionalItems None in ret (Some a)
          else ret None in
        ret (tuple description dep keyName mx mn sn ps sp)
      else
        let* sn := standaloneName schema keyNameFromDefinition in
        let* p := parse items (Some "{keyNameFromDefinition}Items") in
        ret (node description dep keyName sn (ParamOne p) A_ARRAY)
  | UNION =>
      let* sn := standaloneName schema keyNameFromDefinition in
      let* tys := field schema "type" in
      let* ps :=
        array_map tys (fun t _ =>
          let* h' := get_schemas in
          let omitted :=
            obj_delete (obj_delete (obj_delete (node_fields h' schema) "$id")
                          "description") "title" in
          let* member := new_schema (HObj (obj_set omitted "type" t)) in
          let* member' := strip_with maybeStripDefault member in
          parse (JRef member') None) in
      ret (node description dep keyName sn (ParamList ps) A_UNION)
  | UNNAMED_ENUM =>
      let* enum := field schema "enum" in
      let* params3 :=
        if negb (isArray h enum) then
          match object_values h enum with
          | Ok vs => mapM (fun v => parseLiteral v None) vs
          | Throw e => throw e
          | OutOfFuel => fun _ => OutOfFuel
          end
        else array_map enum (fun v _ => parseLiteral v None) in
      let* sn := standaloneName schema keyNameFromDefinition in
      ret (node description dep keyName sn (ParamList params3) A_UNION)
  | UNNAMED_SCHEMA => newInterface schema keyName keyNameFromDefinition
  | UNTYPED_ARRAY =>
      let* mn := field schema "minItems" in
      let* mx0 := field schema "maxItems" in
      let mx := if is_number mx0 then mx0 else JNum (-1)%Z in
      if num_gt (ToNumber h mn) (Some 0%Z) || num_ge (ToNumber h mx) (Some 0%Z) then
        match js_Array (JNum (max_or_zero (ToNumber h mx) (ToNumber h mn))) with
        | Ok arr =>
            let* sn := standaloneName schema keyNameFromDefinition in
            ret (tuple description dep keyName mx0 mn sn
                   (repeat T_ANY (length arr))
                   (if num_ge (ToNumber h mx) (Some 0%Z) then None else Some T_ANY))
        | Throw e => throw e
        | OutOfFuel => fun _ => OutOfFuel
        end
      else
        let* sn := standaloneName schema keyNameFromDefinition in
        ret (node description dep keyName sn (ParamOne T_ANY) A_ARRAY)
  end.

(** [Object.assign(ast, result)].  Every object literal [parseNonLiteral]
    returns defines [comment]; the placeholder holds at most a [comment] by
    the time it is filled, so the copy leaves exactly the properties of the
    literal. *)
Definition Object_assign (target source : AST) : AST := source.

Definition parseAsTypeWithCache (schema : nat) (ty : SchemaType)
    (keyName : option string) : M nat := fun st =>
  (* If we've seen this node before, return it. *)
  match cache_lookup (processed st) schema ty with
  | Some cachedAST => Ok (cachedAST, st)
  | None =>
      (* Cache processed ASTs before they are actually computed, then update
         them in place.  This is to avoid cycles. *)
      (let* a := new_ast empty_ast in
       let* _ := cache_set schema ty a in
       let* result := parseNonLiteral schema ty keyName in
       let* _ := update_ast a (fun target => Object_assign target result) in
       ret a) st
  end.

Definition parse_body (schema : jval) (keyName : option string) : M nat :=
  let* h := get_schemas in
  if isPrimitive h schema then
    if isBoolean schema then parseBooleanSchema (truthy schema) keyName
    else parseLiteral schema keyName
  else
    match schema with
    | JRef l =>
        match typesOfSchema h l with
        | [t] => parseAsTypeWithCache l t keyName
        | types =>
            (* Be careful to first process the intersection before processing
               its params, so that it gets first pick for standalone name. *)
            let* id := field l "$id" in
            let* allOf := new_schema (HArr []) in
            let* description := field l "description" in
            let* title := field l "title" in
            let* wrapper :=
              new_schema (HObj [("$id", id); ("allOf", JRef allOf);
                                ("description", description); ("title", title)]) in
            let* a := parseAsTypeWithCache wrapper ALL_OF keyName in
            let* ps :=
              mapM (fun t =>
                      let* s := strip_with maybeStripNameHints l in
                      parseAsTypeWithCache s t keyName) types in
            let* _ := update_ast a (fun n => set_params n (ParamList ps)) in
            ret a
        end
    | _ => parseLiteral schema keyName
    end.

End Recursive.

(** [parse]: the budget bounds the depth of the recursion. *)
Fixpoint parse (fuel : nat) (schema : jval) (keyName : option string) : M nat :=
  match fuel with
  | O => fun _ => OutOfFuel
  | S n => parse_body (parse n) schema keyName
  end.

End Builder.

(** The identities a walk of [getDefinitions] has marked, and the number of
    objects of the store it has not reached yet. *)
Definition visited_locs (p : list jval) : gset nat :=
  list_to_set (omap (fun v => match v with JRef l => Some l | _ => None end) p).

Definition unvisited (h : heap) (p : list jval) : nat :=
  size (set_seq 0 (length h) ∖ visited_locs p : gset nat).

(** A computation respects a relation on states when every successful run
    relates the state it started from to the state it leaves. *)
Definition preserves {A} (R : BuildState -> BuildState -> Prop) (m : M A) : Prop :=
  ∀ st a st', m st = Ok (a, st') → R st st'.

(** The Build Cache only grows: an entry, once made, stays as it is. *)
Definition cache_le (st st' : BuildState) : Prop :=
  ∀ schema ty a,
    cache_lookup (processed st) schema ty = Some a →
    cache_lookup (processed st') schema ty = Some a.

(** A property of the schema store is stable when neither an allocation
    nor one of the stripping helpers can break it. *)
Definition stable `{Utils} (I : heap -> Prop) : Prop :=
  (∀ h o, I h → I (h ++ [o]))
  ∧ (∀ h l, I h → I (fst (maybeStripNameHints h l)))
  ∧ (∀ h l, I h → I (fst (maybeStripDefault h l))).

Definition keeps (I : heap -> Prop) (st st' : BuildState) : Prop :=
  I (schemas st) → I (schemas st').

(** One computation refines another when every result it reaches, the
    other reaches too. *)
Definition refines {A} (m m' : M A) : Prop := ∀ st r, m st = Ok r → m' st = Ok r.

(** The values of [additionalProperties] that are not schemas. *)
Definition not_schema_valued (ap : jval) : Prop :=
  ap = JUndef ∨ ap = JBool true ∨ ap = JBool false.

(** A record whose only property, [k], is the record node itself. *)
Definition self_referential_record (h : heap) (r : nat) (k : string) : Prop :=
  ∃ fs p,
    h !! r = Some (HObj fs)
    ∧ obj_get fs "properties" = JRef p
    ∧ h !! p = Some (HObj [(k, JRef r)])
    ∧ truthy (obj_get fs "patternProperties") = false
    ∧ keys_of h (obj_get fs "$defs") = []
    ∧ not_schema_valued (obj_get fs "additionalProperties")
    ∧ truthy (obj_get fs "extends") = false.

(** The categories [parseNonLiteral] builds without looking at any
    sub-schema. *)
Definition scalar_tag (t : SchemaType) : option ASTType :=
  match t with
  | BOOLEAN => Some A_BOOLEAN
  | NEVER => Some A_NEVER
  | NULL => Some A_NULL
  | NUMBER => Some A_NUMBER
  | OBJECT => Some A_OBJECT
  | STRING => Some A_STRING
  | _ => None
  end.

(** A record whose two properties, [k1] and [k2], are one and the same
    node [s]. *)
Definition diamond_record (h : heap) (r s : nat) (k1 k2 : string) : Prop :=
  ∃ fs p fs',
    h !! r = Some (HObj fs)
    ∧ obj_get fs "properties" = JRef p
    ∧ h !! p = Some (HObj [(k1, JRef s); (k2, JRef s)])
    ∧ k1 ≠ k2
    ∧ h !! s = Some (HObj fs')
    ∧ truthy (obj_get fs "patternProperties") = false
    ∧ keys_of h (obj_get fs "$defs") = []
    ∧ not_schema_valued (obj_get fs "additionalProperties")
    ∧ truthy (obj_get fs "extends") = false.

(** A triple: from a state that satisfies [Pre], every successful run of
    [m] ends with a result and a state that satisfy [Post]. *)
Definition hoare {A} (Pre : BuildState -> Prop) (m : M A)
    (Post : A -> BuildState -> Prop) : Prop :=
  ∀ st a st', Pre st → m st = Ok (a, st') → Post a st'.

(** The schema store is the same in both states. *)
Definition same_schemas (st st' : BuildState) : Prop := schemas st' = schemas st.

(** The object [parseLiteral] creates for a value that is not parsed under
    a key. *)
Definition literal_node (v : jval) : AST :=
  node JUndef JUndef None None (ParamValue v) A_LITERAL.

(** What [getDefinitionsMemoized] answers for a root in a given state, and
    the cache [memoize] holds afterwards. *)
Definition definitions_of (st : BuildState) (root : nat) : fields :=
  match definitionsCache st !! root with
  | Some d => d
  | None => getDefinitions (schemas st) (JRef root)
  end.

Definition memo_after (st : BuildState) (root : nat) : gmap nat fields :=
  match definitionsCache st !! root with
  | Some _ => definitionsCache st
  | None => <[root := getDefinitions (schemas st) (JRef root)]> (definitionsCache st)
  end.

(** The hint [standaloneName] names a node from:
    [schema.title || schema.$id || keyNameFromDefinition]. *)
Definition name_hint (h : heap) (schema : nat) (kfd : option string) : jval :=
  js_or (js_or (obj_get (node_fields h schema) "title")
               (obj_get (node_fields h schema) "$id"))
        (of_key kfd).

(** The name allocated for a hint, if the hint is truthy, and the
    Used-Names Set afterwards. *)
Definition chosen_name `{Utils} (hint : jval) (used : gset string) : option string :=
  if truthy hint then Some (fst (generateName hint used)) else None.

Definition names_after `{Utils} (hint : jval) (used : gset string) : gset string :=
  if truthy hint then snd (generateName hint used) else used.

(** The state in which [parseAsTypeWithCache] calls [parseNonLiteral] after
    a miss: the empty placeholder is allocated and registered. *)
Definition with_placeholder (st : BuildState) (schema : nat) (ty : SchemaType)
    : BuildState :=
  set_processed (cache_insert (processed st) schema ty (length (asts st)))
    (set_asts (asts st ++ [empty_ast]) st).

(** The AST identities an AST object refers to: its parameters, its super
    types and its spread parameter. *)
Definition ast_refs (n : AST) : list nat :=
  match ast_params n with
  | NoParams | ParamValue _ => []
  | ParamList l => l
  | ParamOne a => [a]
  | ParamEnum l => map enumAst l
  | ParamMembers l => map ast l
  end
  ++ ast_superTypes n
  ++ match ast_spreadParam n with Some a => [a] | None => [] end.

Definition refs_below (len : nat) (n : AST) : Prop :=
  Forall (fun a => a < len) (ast_refs n).

Definition cache_closed (st : BuildState) : Prop :=
  ∀ schema ty a, cache_lookup (processed st) schema ty = Some a → a < length (asts st).

(** A filled AST object has a type; the empty placeholder that
    [parseAsTypeWithCache] registers before a node is built has none. *)
Definition filled (n : AST) : Prop := ast_type n ≠ None.

(** A well-formed state, up to the placeholders [pending] that wait to be
    filled: the two shared constants are allocated and not pending, no
    identity held by an AST object or by the Build Cache dangles, and every
    AST object that is not pending is filled. *)
Definition well_formed (pending : nat → Prop) (st : BuildState) : Prop :=
  2 ≤ length (asts st)
  ∧ Forall (refs_below (length (asts st))) (asts st)
  ∧ cache_closed st
  ∧ ¬ pending T_ANY
  ∧ ∀ i n, asts st !! i = Some n → ¬ pending i → filled n.

(** A property of the size of the AST store that stays true when the store
    grows. *)
Definition upclosed (P : nat → Prop) : Prop := ∀ n n', n ≤ n' → P n → P n'.

(** A computation that, started in a well-formed state whose AST store has
    a size satisfying [Pre], ends (when it ends with a result) in a
    well-formed state with a store that is no smaller, the result satisfying
    [Q] at the new size. *)
Definition valid_step {A} (pending : nat → Prop) (Pre : nat → Prop) (m : M A)
    (Q : A → nat → Prop) : Prop :=
  ∀ st x st',
    well_formed pending st → Pre (length (asts st)) → m st = Ok (x, st') →
    well_formed pending st' ∧ length (asts st) ≤ length (asts st')
    ∧ Q x (length (asts st')).

(** A record that declares nothing but one definition, [k], whose node [s]
    is not a schema that holds sub-schemas. *)
Definition single_definition_record (h : heap) (r s : nat) (k : string) : Prop :=
  ∃ fs d fs',
    h !! r = Some (HObj fs)
    ∧ keys_of h (obj_get fs "properties") = []
    ∧ truthy (obj_get fs "patternProperties") = false
    ∧ obj_get fs "$defs" = JRef d
    ∧ h !! d = Some (HObj [(k, JRef s)])
    ∧ h !! s = Some (HObj fs')
    ∧ obj_get fs "additionalProperties" = JBool false.

(** The categories built from a list of sub-schemas: the keyword that
    holds the list and the type of the node. *)
Definition list_keyword (ty : SchemaType) : option (string * ASTType) :=
  match ty with
  | ALL_OF => Some ("allOf", A_INTERSECTION)
  | ANY_OF => Some ("anyOf", A_UNION)
  | ONE_OF => Some ("oneOf", A_UNION)
  | UNION => Some ("type", A_UNION)
  | TYPED_ARRAY => Some ("items", A_TUPLE)
  | _ => None
  end.

(** The state a top-level build starts from: an empty Build Cache and an
    empty Used-Names Set (the default arguments of [parse]), the two shared
    constants, and whatever [memoize] has cached so far. *)
Definition initial (h : heap) (memo : gmap nat fields) : BuildState :=
  {| schemas := h;
     asts := [T_ANY_node; T_ANY_ADDITIONAL_PROPERTIES_node];
     processed := ∅; usedNames := ∅; definitionsCache := memo |}.

End Parser.

Module Examples.
Import JS Parser.

(** Modelled from the spec: a Type Classifier after section 4.4, used for
    the concrete builds below. *)
Definition classify (h : heap) (l : nat) : list SchemaType :=
  let fs := node_fields h l in
  if obj_has fs "allOf" then [ALL_OF]
  else if obj_has fs "anyOf" then [ANY_OF]
  else if obj_has fs "oneOf" then [ONE_OF]
  else if obj_has fs "enum" then
    if obj_has fs "tsEnumNames" then [NAMED_ENUM] else [UNNAMED_ENUM]
  else if obj_has fs "items" then [TYPED_ARRAY]
  else if obj_has fs "properties" || obj_has fs "patternProperties" then
    if obj_has fs "$id" then [NAMED_SCHEMA] else [UNNAMED_SCHEMA]
  else
    let tag (t : jval) : list SchemaType :=
      match t with
      | JStr "string" => [STRING]
      | JStr "number" => [NUMBER]
      | JStr "boolean" => [BOOLEAN]
      | JStr "null" => [NULL]
      | JStr "any" => [ANY]
      | JStr "array" => [UNTYPED_ARRAY]
      | JStr "object" => [OBJECT]
      | _ => []
      end in
    match obj_get fs "type" with
    | JUndef => [UNNAMED_SCHEMA]
    | JStr t => tag (JStr t)
    | v => match array_elems h v with
           | Some ts => flat_map tag ts
           | None => [UNNAMED_SCHEMA]
           end
    end.

(** Modelled from the spec: a Name Allocator that disambiguates a candidate
    against the Used-Names Set with a numeric suffix and records the name
    it hands out. *)
Definition allocate (name : jval) (used : gset string) : string * gset string :=
  let base := match name with JStr s => s | _ => "NoName" end in
  let candidates :=
    base :: map (fun i => base +:+ pretty i) (seq 1 (S (size used))) in
  let chosen :=
    default base (head (List.filter (fun c => bool_decide (c ∉ used)) candidates)) in
  (chosen, {[chosen]} ∪ used).

(** Modelled from the spec: the per-type children of a multi-typed schema
    do not carry the name hints. *)
Definition stripNameHints (h : heap) (l : nat) : heap * nat :=
  match h !! l with
  | Some (HObj fs) =>
      (<[l := HObj (obj_delete (obj_delete (obj_delete fs "$id") "description") "title")]> h, l)
  | _ => (h, l)
  end.

#[export] Instance runtime : JsRuntime :=
  {| ref_to_string := fun _ _ => "[object Object]";
     to_number_ext := fun _ _ => None |}.

(** In the example documents the node at index 0 is the root of every
    node. *)
#[export] Instance utils : Utils :=
  {| typesOfSchema := classify;
     getRootSchema := fun _ _ => 0;
     generateName := allocate;
     maybeStripNameHints := stripNameHints;
     maybeStripDefault := fun h l => (h, l) |}.

(** In the example documents every plain object is schema-like. *)
#[export] Instance normalizer_utils : Normalizer.Utils :=
  {| Normalizer.isSchemaLike := fun h l => isPlainObject h (JRef l) |}.

(** [{properties: {self: <the record itself>}, additionalProperties: false}] *)
Definition self_ref : heap :=
  [ HObj [("properties", JRef 1); ("additionalProperties", JBool false)];
    HObj [("self", JRef 0)] ].

(** [{title: "Root", properties: {left: S, right: S}}] with one node [S]. *)
Definition diamond : heap :=
  [ HObj [("title", JStr "Root"); ("properties", JRef 1);
          ("additionalProperties", JBool false)];
    HObj [("left", JRef 2); ("right", JRef 2)];
    HObj [("type", JStr "string"); ("title", JStr "Shared")] ].

(** [{type: "array"}] *)
Definition array_node : heap := [ HObj [("type", JStr "array")] ].

(** [{type: ["string"]}] *)
Definition unary_type : heap := [ HObj [("type", JRef 1)]; HArr [JStr "string"] ].

(** [{items: {}, maxItems: 2, minItems: 5}] *)
Definition inconsistent_bounds : heap :=
  [ HObj [("items", JRef 1); ("maxItems", JNum 2); ("minItems", JNum 5)]; HObj [] ].

(** [{items: {}, maxItems: 2}] *)
Definition bounded_items : heap :=
  [ HObj [("items", JRef 1); ("maxItems", JNum 2)]; HObj [] ].

(** [{properties: {a: {$defs: {Foo: {type: "string"}}}}}] *)
Definition nested_definitions : heap :=
  [ HObj [("properties", JRef 1)];
    HObj [("a", JRef 2)];
    HObj [("$defs", JRef 3)];
    HObj [("Foo", JRef 4)];
    HObj [("type", JStr "string")] ].

(** [{patternProperties: {"^x": {type: "string"}}, additionalProperties: false}] *)
Definition closed_pattern_record : heap :=
  [ HObj [("patternProperties", JRef 1); ("additionalProperties", JBool false)];
    HObj [("^x", JRef 2)];
    HObj [("type", JStr "string")] ].

(** [{type: "object", properties: {a: {type: "string"}},
      additionalProperties: false}] *)
Definition closed_record : heap :=
  [ HObj [("type", JStr "object"); ("properties", JRef 1);
          ("additionalProperties", JBool false)];
    HObj [("a", JRef 2)];
    HObj [("type", JStr "string")] ].

(** [{id: "", $id: "x"}] *)
Definition empty_id : heap := [ HObj [("id", JStr ""); ("$id", JStr "x")] ].

(** [{id: "a", $id: "b"}] *)
Definition conflicting_ids : heap := [ HObj [("id", JStr "a"); ("$id", JStr "b")] ].

(** [{enum: [1, 2], tsEnumNames: ["One", "Two"]}] *)
Definition hinted_enum : heap :=
  [ HObj [("enum", JRef 1); ("tsEnumNames", JRef 2)];
    HArr [JNum 1; JNum 2];
    HArr [JStr "One"; JStr "Two"] ].

(** [{properties: {"": {enum: [1], tsEnumNames: ["One"]}},
      additionalProperties: false}] *)
Definition enum_under_empty_key : heap :=
  [ HObj [("properties", JRef 1); ("additionalProperties", JBool false)];
    HObj [("", JRef 2)];
    HObj [("enum", JRef 3); ("tsEnumNames", JRef 4)];
    HArr [JNum 1];
    HArr [JStr "One"] ].

(** [{enum: [null, "a"], type: ["string", "null"]}] *)
Definition nullable_enum : heap :=
  [ HObj [("enum", JRef 1); ("type", JRef 2)];
    HArr [JNull; JStr "a"];
    HArr [JStr "string"; JStr "null"] ].

(** [{type: "array", maxItems: 21}] *)
Definition wide_bounds : heap := [ HObj [("type", JStr "array"); ("maxItems", JNum 21)] ].

(** [{extends: {}}] *)
Definition single_extends : heap := [ HObj [("extends", JRef 1)]; HObj [] ].

(** [{items: {}, maxItems: -1, minItems: 1}] *)
Definition negative_bound : heap :=
  [ HObj [("items", JRef 1); ("maxItems", JNum (-1)); ("minItems", JNum 1)]; HObj [] ].

(** [{properties: {a: {type: "string"}, b: {type: "number"}}, required: ["a"],
      additionalProperties: false}] *)
Definition required_record : heap :=
  [ HObj [("properties", JRef 1); ("required", JRef 4);
          ("additionalProperties", JBool false)];
    HObj [("a", JRef 2); ("b", JRef 3)];
    HObj [("type", JStr "string")];
    HObj [("type", JStr "number")];
    HArr [JStr "a"] ].

(** [{$ref: "#/x"}], and a classifier that knows the REFERENCE category. *)
Definition reference_node : heap := [ HObj [("$ref", JStr "#/x")] ].

Definition utils_with_references : Utils :=
  {| typesOfSchema := fun h l =>
       if obj_has (node_fields h l) "$ref" then [REFERENCE] else classify h l;
     getRootSchema := fun _ _ => 0;
     generateName := allocate;
     maybeStripNameHints := stripNameHints;
     maybeStripDefault := fun h l => (h, l) |}.

(** [{type: "number", description: "a count"}] *)
Definition number_node : heap :=
  [ HObj [("type", JStr "number"); ("description", JStr "a count")] ].

(** [{type: "array", minItems: 2}] *)
Definition untyped_array_node : heap :=
  [ HObj [("type", JStr "array"); ("minItems", JNum 2)] ].

(** [{enum: ["a", "b"]}] *)
Definition plain_enum : heap := [ HObj [("enum", JRef 1)]; HArr [JStr "a"; JStr "b"] ].

(** [{anyOf: [{type: "string"}, {type: "number"}]}] *)
Definition any_of_node : heap :=
  [ HObj [("anyOf", JRef 1)];
    HArr [JRef 2; JRef 3];
    HObj [("type", JStr "string")];
    HObj [("type", JStr "number")] ].

(** [{}] *)
Definition empty_object : heap := [ HObj [] ].

(** [{const: "x"}] *)
Definition const_node : heap := [ HObj [("const", JStr "x")] ].

(** [{$defs: {Id: {type: "string", description: "An id"}},
      additionalProperties: false}] *)
Definition definitions_record : heap :=
  [ HObj [("$defs", JRef 1); ("additionalProperties", JBool false)];
    HObj [("Id", JRef 2)];
    HObj [("type", JStr "string"); ("description", JStr "An id")] ].

(** [{title: "Color", enum: [1], tsEnumNames: ["One"]}] *)
Definition titled_enum : heap :=
  [ HObj [("title", JStr "Color"); ("enum", JRef 1); ("tsEnumNames", JRef 2)];
    HArr [JNum 1];
    HArr [JStr "One"] ].

(** [{tsType: "Date"}], and a classifier that knows the CUSTOM_TYPE
    category. *)
Definition custom_type_node : heap := [ HObj [("tsType", JStr "Date")] ].

Definition utils_with_custom_types : Utils :=
  {| typesOfSchema := fun h l =>
       if truthy (obj_get (node_fields h l) "tsType") then [CUSTOM_TYPE]
       else classify h l;
     getRootSchema := fun _ _ => 0;
     generateName := allocate;
     maybeStripNameHints := stripNameHints;
     maybeStripDefault := fun h l => (h, l) |}.

(** [{items: {type: "string"}}] *)
Definition typed_array_node : heap :=
  [ HObj [("items", JRef 1)]; HObj [("type", JStr "string")] ].

(** The nodes of a document are where they were. *)
Definition holds (doc : heap) (h : heap) : Prop :=
  ∀ l o, doc !! l = Some o → h !! l = Some o.

(** No object of the document carries a name hint. *)
Definition no_hints (doc : heap) : Prop :=
  ∀ l fs, doc !! l = Some (HObj fs) →
    obj_delete (obj_delete (obj_delete fs "$id") "description") "title" = fs.

End Examples.

(** * Properties *)

(** ** Objects and the store *)

Section ObjectFacts.
Import JS.

Lemma eqb_refl_true (k : string) : String.eqb k k = true.
Proof. apply String.eqb_refl. Qed.

Lemma eqb_ne (k k' : string) : k ≠ k' → String.eqb k k' = false.
Proof. intros Hne. apply String.eqb_neq. exact Hne. Qed.

Lemma obj_get_set_eq fs k v : obj_get (obj_set fs k v) k = v.
Proof.
  induction fs as [|[k' v'] fs IH]; simpl.
  - by rewrite eqb_refl_true.
  - destruct (String.eqb k k') eqn:E; simpl; rewrite E; [done | exact IH].
Qed.

Lemma obj_get_set_ne fs k k' v : k ≠ k' → obj_get (obj_set fs k v) k' = obj_get fs k'.
Proof.
  intros Hne. induction fs as [|[k0 v0] fs IH]; simpl.
  - rewrite eqb_ne; [done | congruence].
  - destruct (String.eqb k k0) eqn:E; simpl.
    + apply String.eqb_eq in E. subst k0. rewrite eqb_ne; [done | congruence].
    + by rewrite IH.
Qed.

Lemma obj_has_set_eq fs k v : obj_has (obj_set fs k v) k = true.
Proof.
  induction fs as [|[k' v'] fs IH]; simpl.
  - by rewrite eqb_refl_true.
  - destruct (String.eqb k k') eqn:E; simpl; rewrite E; [done | exact IH].
Qed.

Lemma obj_has_set_ne fs k k' v : k ≠ k' → obj_has (obj_set fs k v) k' = obj_has fs k'.
Proof.
  intros Hne. induction fs as [|[k0 v0] fs IH]; simpl.
  - rewrite eqb_ne; [done | congruence].
  - destruct (String.eqb k k0) eqn:E; simpl.
    + apply String.eqb_eq in E. subst k0. rewrite eqb_ne; [done | congruence].
    + by rewrite IH.
Qed.

Lemma obj_get_delete_eq fs k : obj_get (obj_delete fs k) k = JUndef.
Proof.
  induction fs as [|[k' v'] fs IH]; simpl; [done|].
  destruct (String.eqb k k') eqn:E; simpl; [exact IH | by rewrite E].
Qed.

Lemma obj_has_delete_eq fs k : obj_has (obj_delete fs k) k = false.
Proof.
  induction fs as [|[k' v'] fs IH]; simpl; [done|].
  destruct (String.eqb k k') eqn:E; simpl; [exact IH | by rewrite E].
Qed.

Lemma obj_get_delete_ne fs k k' : k ≠ k' → obj_get (obj_delete fs k) k' = obj_get fs k'.
Proof.
  intros Hne. induction fs as [|[k0 v0] fs IH]; simpl; [done|].
  destruct (String.eqb k k0) eqn:E; simpl.
  - apply String.eqb_eq in E. subst k0. rewrite eqb_ne; [exact IH | congruence].
  - by rewrite IH.
Qed.

Lemma obj_has_delete_ne fs k k' : k ≠ k' → obj_has (obj_delete fs k) k' = obj_has fs k'.
Proof.
  intros Hne. induction fs as [|[k0 v0] fs IH]; simpl; [done|].
  destruct (String.eqb k k0) eqn:E; simpl.
  - apply String.eqb_eq in E. subst k0. rewrite eqb_ne; [exact IH | congruence].
  - by rewrite IH.
Qed.

Lemma obj_delete_absent fs k : obj_has fs k = false → obj_delete fs k = fs.
Proof.
  induction fs as [|[k' v'] fs IH]; simpl; [done|].
  destruct (String.eqb k k') eqn:E; simpl; [done|].
  intros Hn. by rewrite IH.
Qed.

Lemma obj_has_false_get fs k : obj_has fs k = false → obj_get fs k = JUndef.
Proof.
  induction fs as [|[k' v'] fs IH]; simpl; [done|].
  destruct (String.eqb k k') eqn:E; simpl; [done | exact IH].
Qed.

Lemma obj_set_same fs k : obj_has fs k = true → obj_set fs k (obj_get fs k) = fs.
Proof.
  induction fs as [|[k' v'] fs IH]; simpl; [done|].
  destruct (String.eqb k k') eqn:E; simpl; [done|].
  intros Hh. by rewrite IH.
Qed.

Lemma strict_eq_true a b : strict_eq a b = true ↔ a = b.
Proof. unfold strict_eq. apply bool_decide_eq_true. Qed.

Lemma strict_eq_false a b : strict_eq a b = false ↔ a ≠ b.
Proof. unfold strict_eq. apply bool_decide_eq_false. Qed.

Lemma strict_eq_refl a : strict_eq a a = true.
Proof. by apply strict_eq_true. Qed.

(** The store after an allocation and an assignment to an older node. *)
Lemma lookup_alloc_old (h : heap) o l : l < length h → (h ++ [o]) !! l = h !! l.
Proof. intros Hl. by apply lookup_app_l. Qed.

Lemma lookup_alloc_new (h : heap) o : (h ++ [o]) !! length h = Some o.
Proof. by rewrite lookup_app_r, Nat.sub_diag. Qed.

Lemma lookup_store_eq (h : heap) l fs : l < length h → Normalizer.store h l fs !! l = Some (HObj fs).
Proof. intros Hl. by apply list_lookup_insert_eq. Qed.

Lemma lookup_store_ne (h : heap) l l' fs : l ≠ l' → Normalizer.store h l fs !! l' = h !! l'.
Proof. intros Hl. by apply list_lookup_insert_ne. Qed.

Lemma store_same (h : heap) l fs : h !! l = Some (HObj fs) → Normalizer.store h l fs = h.
Proof. intros Hl. by apply list_insert_id. Qed.

End ObjectFacts.

(** ** The normalizer rules *)

Section NormalizerRules.
Import JS Normalizer.
Context {RT : JsRuntime} {U : Utils}.

(** C8, as amended: on a schema-like node, a truthy [id] and a truthy
    [$id] that differ make the rule throw a [ReferenceError] whose message
    names both values and the file; otherwise a truthy [id] is moved into
    [$id] and deleted, every other property and every other object staying
    as it was; a node whose [id] is absent or falsy (the empty string
    included), and a node that is not schema-like, are left untouched. *)
Theorem transform_id_rule (h : heap) (l : nat) (fs : fields) (fileName : string)
    (key : option string) :
  h !! l = Some (HObj fs) →
  (isSchemaLike h l = false → rule_id_to_dollar_id h l fileName key = Ok h)
  ∧ (isSchemaLike h l = true →
     truthy (obj_get fs "id") = true → truthy (obj_get fs "$id") = true →
     obj_get fs "id" ≠ obj_get fs "$id" →
     rule_id_to_dollar_id h l fileName key =
       Throw (ReferenceError
                ("Schema must define either id or $id, not both. Given id="
                 +:+ ToString h (obj_get fs "id") +:+ ", $id="
                 +:+ ToString h (obj_get fs "$id") +:+ " in " +:+ fileName)))
  ∧ (isSchemaLike h l = true →
     truthy (obj_get fs "id") = true →
     truthy (obj_get fs "$id") = false ∨ obj_get fs "id" = obj_get fs "$id" →
     ∃ fs', rule_id_to_dollar_id h l fileName key = Ok (<[l := HObj fs']> h)
       ∧ obj_get fs' "$id" = obj_get fs "id"
       ∧ obj_has fs' "id" = false
       ∧ ∀ k, k ≠ "id" → k ≠ "$id" →
           obj_get fs' k = obj_get fs k ∧ obj_has fs' k = obj_has fs k)
  ∧ (isSchemaLike h l = true → truthy (obj_get fs "id") = false →
     rule_id_to_dollar_id h l fileName key = Ok h).
Proof.
  intros Hl. unfold rule_id_to_dollar_id, on_object. rewrite Hl.
  repeat split.
  - intros ->. reflexivity.
  - intros -> Hid Hid' Hne. simpl. rewrite Hid, Hid'. simpl.
    apply strict_eq_false in Hne. rewrite Hne. reflexivity.
  - intros -> Hid Hcase. simpl. rewrite Hid.
    exists (obj_delete (obj_set fs "$id" (obj_get fs "id")) "id").
    split.
    { destruct Hcase as [Hf | He].
      - rewrite Hf. reflexivity.
      - apply strict_eq_true in He. rewrite He.
        destruct (truthy (obj_get fs "$id")); reflexivity. }
    split; [by rewrite obj_get_delete_ne, obj_get_set_eq|].
    split; [apply obj_has_delete_eq|].
    intros k Hk Hk'. split.
    + rewrite obj_get_delete_ne, obj_get_set_ne; congruence.
    + rewrite obj_has_delete_ne, obj_has_set_ne; congruence.
  - intros -> Hid. simpl. rewrite Hid. reflexivity.
Qed.

Lemma length_fill es x : length (fill es x) = length es.
Proof. unfold fill. apply repeat_length. Qed.

Lemma js_Array_length (n : Z) :
  (0 ≤ n)%Z → ∃ arr, js_Array (JNum n) = Ok arr ∧ length arr = Z.to_nat n.
Proof.
  intros Hn. unfold js_Array.
  destruct (n <? 0)%Z eqn:E; [apply Z.ltb_lt in E; lia|].
  eexists; split; [reflexivity | apply repeat_length].
Qed.

(** Replication under an upper bound leaves [n] positions, whatever the
    length the array was first created with. *)
Lemma replicate_then_truncate (h : heap) l fs item (n : Z) (L : nat) :
  h !! l = Some (HObj fs) → (0 ≤ n)%Z → (L = Z.to_nat n ∨ n = 0%Z) →
  ∃ h' fs' a,
    items_truncate
      (store (h ++ [HArr (repeat item L)]) l (obj_set fs "items" (JRef (length h))))
      l (JNum n) = Ok h'
    ∧ h' !! l = Some (HObj fs')
    ∧ obj_get fs' "items" = JRef a
    ∧ h' !! a = Some (HArr (repeat item (Z.to_nat n)))
    ∧ (∀ k, k ≠ "items" → obj_get fs' k = obj_get fs k ∧ obj_has fs' k = obj_has fs k).
Proof.
  intros Hl Hn HL.
  assert (Hlt : l < length h) by (eapply lookup_lt_Some; eauto).
  set (h1 := store (h ++ [HArr (repeat item L)]) l (obj_set fs "items" (JRef (length h)))).
  assert (Hl1 : h1 !! l = Some (HObj (obj_set fs "items" (JRef (length h))))).
  { apply lookup_store_eq. rewrite length_app. simpl. lia. }
  assert (Ha1 : h1 !! length h = Some (HArr (repeat item L))).
  { unfold h1. rewrite lookup_store_ne by lia. apply lookup_alloc_new. }
  unfold items_truncate, on_object. rewrite Hl1.
  rewrite obj_get_set_eq. simpl. rewrite Ha1.
  assert (Hge : (0 <=? n)%Z = true) by (apply Z.leb_le; lia).
  rewrite Hge. simpl. rewrite repeat_length.
  destruct (n <? Z.of_nat L)%Z eqn:Hcmp.
  - (* a longer first array: only possible when [n = 0] *)
    apply Z.ltb_lt in Hcmp.
    assert (n = 0%Z) as -> by (destruct HL as [-> | ->]; [lia | done]).
    simpl.
    eexists _, _, _. split; [reflexivity|].
    assert (Hlen1 : length h1 = S (length h)).
    { unfold h1, store. rewrite length_insert, length_app. simpl. lia. }
    split; [apply lookup_store_eq; rewrite length_app; simpl; lia|].
    split; [apply obj_get_set_eq|].
    split.
    { rewrite lookup_store_ne by lia. rewrite lookup_alloc_new.
      unfold slice0. simpl. by rewrite take_0. }
    intros k Hk. rewrite !obj_get_set_ne, !obj_has_set_ne by congruence. done.
  - apply Z.ltb_ge in Hcmp.
    assert (L = Z.to_nat n) as -> by (destruct HL as [-> | ->]; [done | lia]).
    eexists _, _, _. split; [reflexivity|].
    split; [exact Hl1|].
    split; [apply obj_get_set_eq|].
    split; [exact Ha1|].
    intros k Hk. rewrite !obj_get_set_ne, !obj_has_set_ne by congruence. done.
Qed.


(** *** Idempotence of the single rules *)

Lemma lookup_store_alloc_node (h : heap) o l fs :
  l < length h → store (h ++ [o]) l fs !! l = Some (HObj fs).
Proof. intros Hl. apply lookup_store_eq. rewrite length_app. simpl. lia. Qed.

Lemma lookup_store_alloc_new (h : heap) o l fs :
  l < length h → store (h ++ [o]) l fs !! length h = Some o.
Proof. intros Hl. rewrite lookup_store_ne by lia. apply lookup_alloc_new. Qed.

Lemma store_store (h : heap) l a b : store (store h l a) l b = store h l b.
Proof. unfold store. apply list_insert_insert_eq. Qed.

Lemma obj_set_set fs k v v' : obj_set (obj_set fs k v) k v' = obj_set fs k v'.
Proof.
  induction fs as [|[k0 v0] fs IH]; simpl.
  - by rewrite eqb_refl_true.
  - destruct (String.eqb k k0) eqn:E; simpl; rewrite E; [done | by rewrite IH].
Qed.

Lemma includes_filter_out tys x :
  includes (List.filter (fun t => negb (strict_eq t x)) tys) x = false.
Proof.
  unfold includes. induction tys as [|t tys IH]; simpl; [done|].
  destruct (strict_eq t x) eqn:E; simpl; [exact IH|].
  rewrite IH, orb_false_r. apply strict_eq_false. apply strict_eq_false in E. congruence.
Qed.

Ltac rule_cases h l fs Hl :=
  unfold idempotent_at;
  match goal with
  | |- rbind (?r _ _ _ _) _ = _ => unfold r, on_object
  end;
  destruct (h !! l) as [[fs|?]|] eqn:Hl;
  [ | simpl; rewrite Hl; reflexivity | simpl; rewrite Hl; reflexivity ].

Lemma remove_null_type_idempotent h l f k : idempotent_at rule_remove_null_type h l f k.
Proof.
  rule_cases h l fs Hl.
  assert (Hlt : l < length h) by (eapply lookup_lt_Some; eauto).
  destruct (array_elems h (obj_get fs "enum")) as [en|] eqn:Hen;
    [|simpl; by rewrite Hl, Hen].
  destruct (array_elems h (obj_get fs "type")) as [tys|] eqn:Hty;
    [|simpl; by rewrite Hl, Hen, Hty].
  destruct (includes en JNull && includes tys (JStr "null")) eqn:Hc;
    [|simpl; by rewrite Hl, Hen, Hty, Hc].
  simpl. rewrite lookup_store_alloc_node by done.
  rewrite obj_get_set_eq. simpl. rewrite lookup_store_alloc_new by done.
  match goal with
  | |- context [match array_elems ?a ?b with _ => _ end] => destruct (array_elems a b)
  end; [|reflexivity].
  by rewrite includes_filter_out, andb_false_r.
Qed.

Lemma destructure_unary_idempotent h l f k :
  type_names_are_strings h l → idempotent_at rule_destructure_unary h l f k.
Proof.
  intros Hwf. rule_cases h l fs Hl.
  assert (Hlt : l < length h) by (eapply lookup_lt_Some; eauto).
  destruct (array_elems h (obj_get fs "type")) as [[|t [|t' tys]]|] eqn:Hty;
    try (simpl; by rewrite Hl, Hty).
  simpl. rewrite lookup_store_eq by done. rewrite obj_get_set_eq.
  unfold type_names_are_strings, node_fields in Hwf. rewrite Hl in Hwf.
  specialize (Hwf _ Hty). apply Forall_cons in Hwf as [[s ->] _].
  reflexivity.
Qed.

Lemma add_required_idempotent h l f k : idempotent_at rule_add_required h l f k.
Proof.
  rule_cases h l fs Hl.
  assert (Hlt : l < length h) by (eapply lookup_lt_Some; eauto).
  destruct (isObjectType h fs && negb (obj_has fs "required")) eqn:Hc;
    [|simpl; by rewrite Hl, Hc].
  simpl. rewrite lookup_store_alloc_node by done.
  rewrite obj_has_set_eq. simpl. by rewrite andb_false_r.
Qed.

Lemma required_false_idempotent h l f k : idempotent_at rule_required_false h l f k.
Proof.
  rule_cases h l fs Hl.
  assert (Hlt : l < length h) by (eapply lookup_lt_Some; eauto).
  destruct (strict_eq (obj_get fs "required") (JBool false)) eqn:Hc;
    [|simpl; by rewrite Hl, Hc].
  simpl. rewrite lookup_store_alloc_node by done.
  by rewrite obj_get_set_eq.
Qed.

Lemma default_additionalProperties_idempotent h l f k :
  idempotent_at rule_default_additionalProperties h l f k.
Proof.
  rule_cases h l fs Hl.
  assert (Hlt : l < length h) by (eapply lookup_lt_Some; eauto).
  match goal with |- context [if ?c then _ else _] => destruct c eqn:Hc end;
    [|simpl; by rewrite Hl, Hc].
  simpl. rewrite lookup_store_eq by done.
  rewrite obj_has_set_eq. simpl. by rewrite andb_false_r.
Qed.

Lemma id_to_dollar_id_idempotent h l f k : idempotent_at rule_id_to_dollar_id h l f k.
Proof.
  unfold idempotent_at, rule_id_to_dollar_id.
  destruct (isSchemaLike h l) eqn:Hs; simpl; [|by rewrite Hs].
  unfold on_object.
  destruct (h !! l) as [[fs|?]|] eqn:Hl;
    [ | simpl; rewrite Hs; simpl; by rewrite Hl | simpl; rewrite Hs; simpl; by rewrite Hl ].
  assert (Hlt : l < length h) by (eapply lookup_lt_Some; eauto).
  match goal with |- context [if ?c then Throw _ else _] => destruct c eqn:Hc end;
    [reflexivity|].
  destruct (truthy (obj_get fs "id")) eqn:Hid.
  - simpl.
    match goal with
    | |- context [isSchemaLike ?a l] => destruct (isSchemaLike a l)
    end; simpl; [|reflexivity].
    rewrite lookup_store_eq by done.
    rewrite obj_get_delete_eq. reflexivity.
  - simpl. rewrite Hs. simpl. rewrite Hl, Hid. reflexivity.
Qed.

(** Escaping twice is escaping once: an escaped description holds no
    closing marker any more. *)
Lemma string_ind2 (P : string → Prop) :
  P EmptyString →
  (∀ c, P (String c EmptyString)) →
  (∀ c c' s, P s → P (String c' s) → P (String c (String c' s))) →
  ∀ s, P s.
Proof.
  intros Hnil Hone Hstep.
  assert (Hboth : ∀ s, P s ∧ ∀ c, P (String c s)).
  { induction s as [|c s [IHs IHc]]; [by split|].
    split; [apply IHc|]. intros c0. apply Hstep; [exact IHs | apply IHc]. }
  intros s. apply Hboth.
Qed.

Lemma escape_closing_head c s :
  ∃ t, escape_closing (String c s) = String c t.
Proof.
  simpl. destruct s as [|c' s]; [by eexists|].
  destruct (Ascii.eqb c "*" && Ascii.eqb c' "/") eqn:E; [|by eexists].
  apply andb_true_iff in E as [E _]. apply Ascii.eqb_eq in E. subst c. by eexists.
Qed.

Lemma escape_closing_cons c s :
  (∀ s', s = String "/" s' → c ≠ "*"%char) →
  escape_closing (String c s) = String c (escape_closing s).
Proof.
  intros Hne. destruct s as [|c' s]; [reflexivity|].
  change (escape_closing (String c (String c' s))) with
    (if Ascii.eqb c "*" && Ascii.eqb c' "/"
     then String "*" (String " " (String "/" (escape_closing s)))
     else String c (escape_closing (String c' s))).
  destruct (Ascii.eqb c "*" && Ascii.eqb c' "/") eqn:E; [|reflexivity].
  apply andb_true_iff in E as [E1 E2].
  apply Ascii.eqb_eq in E1, E2. subst. by destruct (Hne s).
Qed.

Lemma escape_closing_idempotent s : escape_closing (escape_closing s) = escape_closing s.
Proof.
  induction s as [| c | c c' s IHs IHc] using string_ind2; [reflexivity..|].
  change (escape_closing (String c (String c' s))) with
    (if Ascii.eqb c "*" && Ascii.eqb c' "/"
     then String "*" (String " " (String "/" (escape_closing s)))
     else String c (escape_closing (String c' s))).
  destruct (Ascii.eqb c "*" && Ascii.eqb c' "/") eqn:E.
  - rewrite escape_closing_cons by (intros ? [=]).
    rewrite escape_closing_cons by (intros ? _ [=]).
    rewrite escape_closing_cons by (intros ? _ [=]).
    by rewrite IHs.
  - destruct (escape_closing_head c' s) as [t Ht].
    rewrite escape_closing_cons.
    + by rewrite IHc.
    + intros s' Hs' ->. rewrite Ht in Hs'. injection Hs' as -> _.
      discriminate E.
Qed.

Lemma escape_comment_idempotent h l f k : idempotent_at rule_escape_comment h l f k.
Proof.
  unfold idempotent_at, rule_escape_comment. simpl. f_equal.
  unfold escapeBlockComment.
  destruct (h !! l) as [[fs|?]|] eqn:Hl; rewrite ?Hl; try reflexivity.
  assert (Hlt : l < length h) by (eapply lookup_lt_Some; eauto).
  destruct (obj_get fs "description") as [| | | |d|] eqn:Hd;
    rewrite ?Hl, ?Hd; try reflexivity.
  rewrite lookup_store_eq by done.
  rewrite obj_get_set_eq, obj_set_set, store_store.
  by rewrite escape_closing_idempotent.
Qed.

Lemma remove_bounds_idempotent h l f k : idempotent_at rule_remove_bounds h l f k.
Proof.
  rule_cases h l fs Hl.
  assert (Hlt : l < length h) by (eapply lookup_lt_Some; eauto).
  destruct (isArrayType h fs) eqn:Hc; simpl; [|by rewrite Hl, Hc].
  rewrite lookup_store_eq by done.
  match goal with |- context [store h l ?x] => set (fs2 := x) end.
  assert (Hmin : obj_has fs2 "minItems" = false).
  { unfold fs2. destruct (obj_has fs "minItems") eqn:E1.
    - destruct (obj_has (obj_delete fs "minItems") "maxItems") eqn:E2.
      + rewrite obj_has_delete_ne by discriminate. apply obj_has_delete_eq.
      + apply obj_has_delete_eq.
    - destruct (obj_has fs "maxItems") eqn:E2; [|done].
      by rewrite obj_has_delete_ne by discriminate. }
  assert (Hmax : obj_has fs2 "maxItems" = false).
  { unfold fs2. destruct (obj_has fs "minItems") eqn:E1.
    - destruct (obj_has (obj_delete fs "minItems") "maxItems") eqn:E2; [|done].
      apply obj_has_delete_eq.
    - destruct (obj_has fs "maxItems") eqn:E2; [|done]. apply obj_has_delete_eq. }
  destruct (isArrayType _ fs2); simpl; [|reflexivity].
  rewrite Hmin, Hmax. by rewrite store_store.
Qed.

Lemma normalize_minItems_idempotent h l f k :
  idempotent_at rule_normalize_minItems h l f k.
Proof.
  rule_cases h l fs Hl.
  assert (Hlt : l < length h) by (eapply lookup_lt_Some; eauto).
  destruct (isArrayType h fs) eqn:Hc; simpl; [|by rewrite Hl, Hc].
  rewrite lookup_store_eq by done.
  match goal with
  | |- context [isArrayType (store ?a ?b ?c) ?d] => destruct (isArrayType (store a b c) d)
  end; simpl; [|reflexivity].
  rewrite obj_get_set_eq, obj_set_set, store_store.
  by destruct (obj_get fs "minItems").
Qed.

Lemma remove_big_maxItems_idempotent h l f k :
  idempotent_at rule_remove_big_maxItems h l f k.
Proof.
  unfold idempotent_at, rule_remove_big_maxItems, on_object.
  destruct (h !! l) as [[fs|?]|] eqn:Hl;
    [ | simpl; rewrite Hl; reflexivity | simpl; rewrite Hl; reflexivity ].
  assert (Hlt : l < length h) by (eapply lookup_lt_Some; eauto).
  destruct (isArrayType h fs) eqn:Hc; simpl; [|by rewrite Hl, Hc].
  match goal with |- context [if ?c then Ok (store _ _ _) else _] => destruct c eqn:Hb end;
    simpl; [|by rewrite Hl, Hc, Hb].
  rewrite lookup_store_eq by done.
  match goal with
  | |- context [isArrayType (store ?a ?b ?c) ?d] => destruct (isArrayType (store a b c) d)
  end; simpl; [|reflexivity].
  by rewrite obj_get_delete_eq.
Qed.

Lemma remove_empty_extends_idempotent h l f k :
  idempotent_at rule_remove_empty_extends h l f k.
Proof.
  rule_cases h l fs Hl.
  assert (Hlt : l < length h) by (eapply lookup_lt_Some; eauto).
  destruct (obj_has fs "extends") eqn:Hc; simpl; [|by rewrite Hl, Hc].
  match goal with |- context [if ?c then Ok (store _ _ _) else _] => destruct c eqn:Hb end;
    simpl; [|by rewrite Hl, Hc, Hb].
  rewrite lookup_store_eq by done.
  by rewrite obj_has_delete_eq.
Qed.

Lemma extends_array_idempotent h l f k : idempotent_at rule_extends_array h l f k.
Proof.
  rule_cases h l fs Hl.
  assert (Hlt : l < length h) by (eapply lookup_lt_Some; eauto).
  destruct (is_nullish (obj_get fs "extends")) eqn:Hc; simpl; [by rewrite Hl, Hc|].
  destruct (isArray h (obj_get fs "extends")) eqn:Hb; simpl; [by rewrite Hl, Hc, Hb|].
  rewrite lookup_store_alloc_node by done.
  rewrite obj_get_set_eq. simpl.
  by rewrite lookup_store_alloc_new.
Qed.

Lemma const_to_enum_idempotent h l f k : idempotent_at rule_const_to_enum h l f k.
Proof.
  rule_cases h l fs Hl.
  assert (Hlt : l < length h) by (eapply lookup_lt_Some; eauto).
  destruct (strict_eq (obj_get fs "const") JUndef) eqn:Hc; simpl; [by rewrite Hl, Hc|].
  rewrite lookup_store_alloc_node by done.
  by rewrite obj_get_delete_eq.
Qed.

Lemma normalize_items_stable h l fs a es f k :
  h !! l = Some (HObj fs) → obj_get fs "items" = JRef a → h !! a = Some (HArr es) →
  within_bound (obj_get fs "maxItems") es = true →
  rule_normalize_items h l f k = Ok h.
Proof.
  intros Hl Hit Ha Hb.
  unfold rule_normalize_items, node_fields. rewrite Hl.
  unfold items_replicate, on_object. rewrite Hl, Hit. simpl. rewrite Ha. simpl.
  unfold items_truncate, on_object. rewrite Hl, Hit. simpl. rewrite Ha.
  unfold within_bound in Hb.
  destruct (obj_get fs "maxItems"); try reflexivity.
  apply negb_true_iff in Hb. by rewrite Hb.
Qed.

Lemma within_bound_take (z : Z) es :
  (0 ≤ z)%Z → within_bound (JNum z) (slice0 es z) = true.
Proof.
  intros Hz. unfold within_bound, slice0. apply negb_true_iff.
  apply andb_false_iff. right. apply Z.ltb_ge. rewrite length_take. lia.
Qed.

Lemma items_truncate_result h l fs a es mx h' :
  h !! l = Some (HObj fs) → obj_get fs "items" = JRef a → h !! a = Some (HArr es) →
  obj_get fs "maxItems" = mx →
  items_truncate h l mx = Ok h' →
  h' = h ∨ ∃ fs' a' es', h' !! l = Some (HObj fs') ∧ obj_get fs' "items" = JRef a'
                     ∧ h' !! a' = Some (HArr es')
                     ∧ within_bound (obj_get fs' "maxItems") es' = true.
Proof.
  intros Hl Hit Ha Hmx.
  assert (Hlt : l < length h) by (eapply lookup_lt_Some; eauto).
  unfold items_truncate, on_object. rewrite Hl, Hit. simpl. rewrite Ha.
  destruct mx as [| | |z| |]; try (intros [= <-]; by left).
  destruct (hasMaxItems (JNum z) && (z <? Z.of_nat (length es))%Z) eqn:Hc;
    [|intros [= <-]; by left].
  simpl. intros [= <-]. right.
  apply andb_true_iff in Hc as [Hge _]. simpl in Hge. apply Z.leb_le in Hge.
  eexists _, _, _.
  split; [by apply lookup_store_alloc_node|].
  split; [apply obj_get_set_eq|].
  split; [by apply lookup_store_alloc_new|].
  rewrite obj_get_set_ne by discriminate. rewrite Hmx.
  by apply within_bound_take.
Qed.

Lemma normalize_items_result h l f k h' :
  rule_normalize_items h l f k = Ok h' →
  h' = h ∨ ∃ fs' a' es', h' !! l = Some (HObj fs') ∧ obj_get fs' "items" = JRef a'
                     ∧ h' !! a' = Some (HArr es')
                     ∧ within_bound (obj_get fs' "maxItems") es' = true.
Proof.
  unfold rule_normalize_items, node_fields.
  destruct (h !! l) as [[fs|?]|] eqn:Hl.
  2,3: unfold items_replicate, items_truncate, on_object; rewrite Hl; simpl;
       rewrite Hl; intros [= <-]; by left.
  assert (Hlt : l < length h) by (eapply lookup_lt_Some; eauto).
  unfold items_replicate, on_object. rewrite Hl.
  match goal with |- context [if ?c then rbind _ _ else _] => destruct c eqn:Hc end.
  - (* the single item schema is replicated *)
    destruct (js_Array _) as [arr| |]; simpl; try discriminate.
    set (items := obj_get fs "items").
    set (fsA := if negb (hasMaxItems (obj_get fs "maxItems"))
                then obj_set fs "additionalItems" items else fs).
    assert (HmxA : obj_get fsA "maxItems" = obj_get fs "maxItems").
    { unfold fsA. destruct (hasMaxItems (obj_get fs "maxItems")); simpl; [done|].
      by rewrite obj_get_set_ne. }
    intros Hrun. pose proof Hrun as Hrun0.
    eapply items_truncate_result in Hrun.
    + destruct Hrun as [-> | Hrun]; [|right; exact Hrun].
      right. eexists _, _, _.
      split; [by apply lookup_store_alloc_node|].
      split; [apply obj_get_set_eq|].
      split; [by apply lookup_store_alloc_new|].
      rewrite obj_get_set_ne by discriminate. rewrite HmxA.
      (* the truncation left the replicated list alone *)
      unfold within_bound.
      destruct (obj_get fs "maxItems") as [| | |z| |] eqn:Ez; try reflexivity.
      apply negb_true_iff.
      destruct (hasMaxItems (JNum z) && (z <? Z.of_nat (length (fill arr items)))%Z) eqn:Hb;
        [|done].
      exfalso.
      unfold items_truncate, on_object in Hrun0.
      rewrite lookup_store_alloc_node in Hrun0 by done.
      rewrite obj_get_set_eq in Hrun0. simpl in Hrun0.
      rewrite lookup_store_alloc_new in Hrun0 by done.
      simpl in Hb. rewrite Hb in Hrun0. simpl in Hrun0. injection Hrun0 as Hrun0.
      apply (f_equal length) in Hrun0.
      unfold store in Hrun0.
      repeat rewrite ?length_insert, ?length_app in Hrun0.
      simpl in Hrun0. lia.
    + by apply lookup_store_alloc_node.
    + apply obj_get_set_eq.
    + by apply lookup_store_alloc_new.
    + rewrite obj_get_set_ne by discriminate. exact HmxA.
  - simpl.
    destruct (array_elems h (obj_get fs "items")) as [es|] eqn:Hes.
    + unfold array_elems in Hes.
      destruct (obj_get fs "items") as [| | | | |a] eqn:Hit; try discriminate.
      destruct (h !! a) as [[|es']|] eqn:Ha; try discriminate.
      injection Hes as ->.
      intros Hrun. eapply items_truncate_result in Hrun; eauto.
    + unfold items_truncate, on_object. rewrite Hl, Hes. intros [= <-]. by left.
Qed.

Lemma normalize_items_idempotent h l f k : idempotent_at rule_normalize_items h l f k.
Proof.
  unfold idempotent_at.
  destruct (rule_normalize_items h l f k) as [h'| |] eqn:Hrun; simpl; try reflexivity.
  destruct (normalize_items_result _ _ _ _ _ Hrun)
    as [-> | (fs' & a' & es' & Hl' & Hit' & Ha' & Hb')]; [exact Hrun|].
  eapply normalize_items_stable; eauto.
Qed.

(** C2, as amended: every rule of the registry other than the one that
    appends the bound annotations is idempotent at every node, provided the
    node's [type] list holds type names. *)
Theorem rules_idempotent (h : heap) (l : nat) (fileName : string) (key : option string) :
  type_names_are_strings h l →
  ∀ name r, (name, r) ∈ rules →
    name ≠ "Add JSDoc comments for minItems and maxItems" →
    idempotent_at r h l fileName key.
Proof.
  intros Hwf name r Hin Hname. unfold rules in Hin.
  repeat (apply elem_of_cons in Hin as [Heq | Hin];
          [injection Heq as -> ->; try congruence;
           first [ apply remove_null_type_idempotent
                 | by apply destructure_unary_idempotent
                 | apply add_required_idempotent
                 | apply required_false_idempotent
                 | apply default_additionalProperties_idempotent
                 | apply id_to_dollar_id_idempotent
                 | apply escape_comment_idempotent
                 | apply remove_bounds_idempotent
                 | apply normalize_minItems_idempotent
                 | apply remove_big_maxItems_idempotent
                 | apply normalize_items_idempotent
                 | apply remove_empty_extends_idempotent
                 | apply extends_array_idempotent
                 | apply const_to_enum_idempotent ] |]).
  by apply elem_of_nil in Hin.
Qed.

End NormalizerRules.

(** ** Rules in pipeline order, at one node *)

Section RuleSequences.
Import JS Normalizer.
Context {RT : JsRuntime} {U : Utils}.

Lemma array_elems_store h l fs fs' v :
  h !! l = Some (HObj fs) → array_elems (store h l fs') v = array_elems h v.
Proof.
  intros Hl. destruct v as [| | | | |a]; try reflexivity. simpl.
  destruct (decide (l = a)) as [<-|Hne].
  - rewrite lookup_store_eq by (eapply lookup_lt_Some; eauto). by rewrite Hl.
  - by rewrite lookup_store_ne.
Qed.

Lemma isArray_store h l fs fs' v :
  h !! l = Some (HObj fs) → isArray (store h l fs') v = isArray h v.
Proof.
  intros Hl. destruct v as [| | | | |a]; try reflexivity. simpl.
  destruct (decide (l = a)) as [<-|Hne].
  - rewrite lookup_store_eq by (eapply lookup_lt_Some; eauto). by rewrite Hl.
  - by rewrite lookup_store_ne.
Qed.

Lemma hasType_store h l fs fs' fs0 ty :
  h !! l = Some (HObj fs) → hasType (store h l fs') fs0 ty = hasType h fs0 ty.
Proof. intros Hl. unfold hasType. by rewrite (array_elems_store _ _ _ _ _ Hl). Qed.

Lemma isArrayType_store h l fs fs' fs0 :
  h !! l = Some (HObj fs) → isArrayType (store h l fs') fs0 = isArrayType h fs0.
Proof. intros Hl. unfold isArrayType. by rewrite !(hasType_store _ _ _ _ _ _ Hl). Qed.

Lemma isObjectType_store h l fs fs' fs0 :
  h !! l = Some (HObj fs) → isObjectType (store h l fs') fs0 = isObjectType h fs0.
Proof. intros Hl. unfold isObjectType. by rewrite !(hasType_store _ _ _ _ _ _ Hl). Qed.

Lemma isArrayType_ext h fs1 fs2 :
  obj_get fs1 "items" = obj_get fs2 "items" → obj_get fs1 "type" = obj_get fs2 "type" →
  isArrayType h fs1 = isArrayType h fs2.
Proof. intros Hi Ht. unfold isArrayType, hasType. by rewrite Hi, Ht. Qed.

Lemma isObjectType_ext h fs1 fs2 :
  obj_get fs1 "properties" = obj_get fs2 "properties" →
  obj_get fs1 "type" = obj_get fs2 "type" →
  isObjectType h fs1 = isObjectType h fs2.
Proof. intros Hi Ht. unfold isObjectType, hasType. by rewrite Hi, Ht. Qed.

(** What is left of a node when both bounds have been deleted. *)
Lemma bounds_deleted fs :
  let fs1 := if obj_has fs "minItems" then obj_delete fs "minItems" else fs in
  let fs2 := if obj_has fs1 "maxItems" then obj_delete fs1 "maxItems" else fs1 in
  obj_has fs2 "minItems" = false ∧ obj_has fs2 "maxItems" = false
  ∧ ∀ k, k ≠ "minItems" → k ≠ "maxItems" →
      obj_get fs2 k = obj_get fs k ∧ obj_has fs2 k = obj_has fs k.
Proof.
  simpl.
  assert (Hdel : ∀ gs k k', k ≠ k' →
            obj_get (obj_delete gs k) k' = obj_get gs k'
            ∧ obj_has (obj_delete gs k) k' = obj_has gs k').
  { intros gs k k' Hne. by rewrite obj_get_delete_ne, obj_has_delete_ne. }
  destruct (obj_has fs "minItems") eqn:E1.
  - destruct (obj_has (obj_delete fs "minItems") "maxItems") eqn:E2.
    + split; [|split].
      * rewrite obj_has_delete_ne by discriminate. apply obj_has_delete_eq.
      * apply obj_has_delete_eq.
      * intros k Hk1 Hk2.
        destruct (Hdel (obj_delete fs "minItems") "maxItems" k) as [-> ->]; [congruence|].
        apply Hdel. congruence.
    + split; [apply obj_has_delete_eq|]. split; [exact E2|].
      intros k Hk1 Hk2. apply Hdel. congruence.
  - destruct (obj_has fs "maxItems") eqn:E2.
    + split; [|split].
      * by rewrite obj_has_delete_ne by discriminate.
      * apply obj_has_delete_eq.
      * intros k Hk1 Hk2. apply Hdel. congruence.
    + done.
Qed.

Lemma bound_rules_eval (h : heap) (l : nat) (fs : fields)
    (fileName : string) (key : option string) :
  h !! l = Some (HObj fs) →
  let bound_rules :=
    and_then rule_remove_bounds
      (and_then rule_normalize_minItems
         (and_then rule_remove_big_maxItems rule_normalize_items)) in
  (isArrayType h fs = false → bound_rules h l fileName key = Ok h)
  ∧ (isArrayType h fs = true →
     ∃ fs', bound_rules h l fileName key = Ok (store h l fs')
       ∧ obj_get fs' "minItems" = JNum 0
       ∧ obj_has fs' "maxItems" = false
       ∧ ∀ k, k ≠ "minItems" → k ≠ "maxItems" →
           obj_get fs' k = obj_get fs k ∧ obj_has fs' k = obj_has fs k).
Proof.
  intros Hl bound_rules. subst bound_rules.
  assert (Hlt : l < length h) by (eapply lookup_lt_Some; eauto).
  unfold and_then. split; intros Harr.
  - unfold rule_remove_bounds at 1. unfold on_object. rewrite Hl, Harr. simpl.
    unfold rule_normalize_minItems at 1. unfold on_object. rewrite Hl, Harr. simpl.
    unfold rule_remove_big_maxItems at 1. unfold on_object. rewrite Hl, Harr. simpl.
    unfold rule_normalize_items, items_replicate, items_truncate, on_object, node_fields.
    rewrite Hl.
    assert (Hitems : obj_get fs "items" = JUndef).
    { unfold isArrayType in Harr. apply orb_false_elim in Harr as [Harr _].
      apply orb_false_elim in Harr as [Harr _].
      apply negb_false_iff in Harr. by apply strict_eq_true in Harr. }
    rewrite Hitems. simpl. by rewrite Hl, Hitems.
  - pose proof (bounds_deleted fs) as Hdel. simpl in Hdel.
    set (fs2 := if obj_has (if obj_has fs "minItems" then obj_delete fs "minItems" else fs)
                     "maxItems"
                then obj_delete (if obj_has fs "minItems" then obj_delete fs "minItems" else fs)
                       "maxItems"
                else (if obj_has fs "minItems" then obj_delete fs "minItems" else fs)) in *.
    destruct Hdel as (Hmin & Hmax & Hrest).
    set (fs3 := obj_set fs2 "minItems" (JNum 0)).
    assert (Harr2 : isArrayType (store h l fs2) fs2 = true).
    { rewrite (isArrayType_store _ _ _ _ _ Hl).
      rewrite <- Harr. apply isArrayType_ext; by apply Hrest. }
    assert (Hl2 : store h l fs2 !! l = Some (HObj fs2)) by by apply lookup_store_eq.
    assert (Harr3 : isArrayType (store h l fs3) fs3 = true).
    { rewrite (isArrayType_store _ _ _ _ _ Hl).
      rewrite <- Harr. unfold fs3. apply isArrayType_ext;
        rewrite obj_get_set_ne by discriminate; by apply Hrest. }
    assert (Hl3 : store h l fs3 !! l = Some (HObj fs3)) by by apply lookup_store_eq.
    assert (Hmax3 : obj_get fs3 "maxItems" = JUndef).
    { unfold fs3. rewrite obj_get_set_ne by discriminate. by apply obj_has_false_get. }
    exists fs3. split.
    + unfold rule_remove_bounds at 1. unfold on_object. rewrite Hl, Harr. simpl.
      fold fs2.
      unfold rule_normalize_minItems at 1. unfold on_object. rewrite Hl2, Harr2. simpl.
      rewrite (obj_has_false_get _ _ Hmin). simpl. rewrite store_store. fold fs3.
      unfold rule_remove_big_maxItems at 1. unfold on_object. rewrite Hl3, Harr3. simpl.
      rewrite Hmax3. simpl.
      unfold rule_normalize_items, items_replicate, items_truncate, on_object, node_fields.
      rewrite Hl3, Hmax3.
      assert (Hmin3 : obj_get fs3 "minItems" = JNum 0) by apply obj_get_set_eq.
      rewrite Hmin3. simpl. rewrite andb_false_r. simpl. rewrite Hl3.
      by destruct (array_elems _ _).
    + split; [apply obj_get_set_eq|]. split.
      * unfold fs3. by rewrite obj_has_set_ne by discriminate.
      * intros k Hk1 Hk2. unfold fs3.
        rewrite obj_get_set_ne, obj_has_set_ne by congruence. by apply Hrest.
Qed.

(** In pipeline order the rule that deletes the bounds runs before the three
    rules that read them.  At an array-type node the four rules together
    leave [minItems = 0], no [maxItems], and every other property, [items]
    included, as it was: no positional sequence is built from the bounds.  A
    node that is not array-type is not changed at all. *)
Theorem bounds_are_gone_before_items_are_normalized (h : heap) (l : nat) (fs : fields)
    (fileName : string) (key : option string) :
  h !! l = Some (HObj fs) →
  let bound_rules :=
    and_then rule_remove_bounds
      (and_then rule_normalize_minItems
         (and_then rule_remove_big_maxItems rule_normalize_items)) in
  (isArrayType h fs = false → bound_rules h l fileName key = Ok h)
  ∧ (isArrayType h fs = true →
     ∃ fs', bound_rules h l fileName key = Ok (store h l fs')
       ∧ obj_get fs' "minItems" = JNum 0
       ∧ obj_has fs' "maxItems" = false
       ∧ ∀ k, k ≠ "minItems" → k ≠ "maxItems" →
           obj_get fs' k = obj_get fs k ∧ obj_has fs' k = obj_has fs k).
Proof. apply bound_rules_eval. Qed.

(** The two rules that guard against huge positional sequences, in pipeline
    order at an array-type node with a numeric [maxItems]: [minItems] becomes
    a number ([0] unless it was one), and [maxItems] is deleted exactly when
    it exceeds that [minItems] by more than 20; a difference of 20 is kept. *)
Theorem big_maxItems_threshold (h : heap) (l : nat) (fs : fields)
    (fileName : string) (key : option string) (mx : Z) :
  h !! l = Some (HObj fs) → isArrayType h fs = true →
  obj_get fs "maxItems" = JNum mx →
  let mn := match obj_get fs "minItems" with JNum m => m | _ => 0%Z end in
  ∃ fs',
    and_then rule_normalize_minItems rule_remove_big_maxItems h l fileName key
    = Ok (store h l fs')
    ∧ obj_get fs' "minItems" = JNum mn
    ∧ obj_get fs' "maxItems" = (if (20 <? mx - mn)%Z then JUndef else JNum mx)
    ∧ obj_has fs' "maxItems" = negb (20 <? mx - mn)%Z
    ∧ ∀ k, k ≠ "minItems" → k ≠ "maxItems" →
        obj_get fs' k = obj_get fs k ∧ obj_has fs' k = obj_has fs k.
Proof.
  intros Hl Harr Hmx mn.
  assert (Hlt : l < length h) by (eapply lookup_lt_Some; eauto).
  assert (Hhas : obj_has fs "maxItems" = true).
  { destruct (obj_has fs "maxItems") eqn:E; [done|].
    apply obj_has_false_get in E. congruence. }
  set (fs1 := obj_set fs "minItems" (JNum mn)).
  assert (Hstep : rule_normalize_minItems h l fileName key = Ok (store h l fs1)).
  { unfold rule_normalize_minItems, on_object. rewrite Hl, Harr. simpl.
    unfold fs1, mn. by destruct (obj_get fs "minItems"). }
  assert (Hl1 : store h l fs1 !! l = Some (HObj fs1)) by by apply lookup_store_eq.
  assert (Harr1 : isArrayType (store h l fs1) fs1 = true).
  { rewrite (isArrayType_store _ _ _ _ _ Hl). rewrite <- Harr.
    unfold fs1. apply isArrayType_ext; by rewrite obj_get_set_ne by discriminate. }
  assert (Hmx1 : obj_get fs1 "maxItems" = JNum mx).
  { unfold fs1. by rewrite obj_get_set_ne by discriminate. }
  assert (Hmn1 : obj_get fs1 "minItems" = JNum mn) by apply obj_get_set_eq.
  unfold and_then. rewrite Hstep. simpl.
  unfold rule_remove_big_maxItems, on_object. rewrite Hl1, Harr1. simpl.
  rewrite Hmx1, Hmn1. simpl.
  destruct (20 <? mx - mn)%Z eqn:Hbig; simpl.
  - exists (obj_delete fs1 "maxItems"). rewrite store_store.
    split; [done|]. split; [by rewrite obj_get_delete_ne by discriminate|].
    split; [apply obj_get_delete_eq|]. split; [apply obj_has_delete_eq|].
    intros k Hk1 Hk2. unfold fs1.
    by rewrite obj_get_delete_ne, obj_has_delete_ne, obj_get_set_ne, obj_has_set_ne
      by congruence.
  - exists fs1. split; [done|]. split; [done|]. split; [done|].
    split; [unfold fs1; by rewrite obj_has_set_ne by discriminate|].
    intros k Hk1 Hk2. unfold fs1.
    by rewrite obj_get_set_ne, obj_has_set_ne by congruence.
Qed.

Lemma array_elems_alloc (h : heap) o v es :
  array_elems h v = Some es → array_elems (h ++ [o]) v = Some es.
Proof.
  destruct v as [| | | | |a]; try discriminate. simpl.
  destruct (h !! a) as [[?|?]|] eqn:Ha; try discriminate.
  intros [= <-]. by rewrite (lookup_app_l_Some _ _ _ _ Ha).
Qed.

Lemma hasType_alloc (h : heap) o fs ty :
  hasType h fs ty = true → hasType (h ++ [o]) fs ty = true.
Proof.
  unfold hasType. intros Hty. apply orb_true_iff in Hty as [Hty|Hty].
  - by rewrite Hty.
  - destruct (array_elems h (obj_get fs "type")) as [tys|] eqn:E; [|done].
    rewrite (array_elems_alloc _ _ _ _ E), Hty. apply orb_true_r.
Qed.

Lemma isObjectType_alloc (h : heap) o fs :
  isObjectType h fs = true → isObjectType (h ++ [o]) fs = true.
Proof.
  unfold isObjectType. intros Hty.
  apply orb_true_iff in Hty as [Hty|Hty]; [apply orb_true_iff in Hty as [Hty|Hty]|].
  - by rewrite Hty.
  - rewrite (hasType_alloc _ _ _ _ Hty). by rewrite orb_true_r.
  - rewrite (hasType_alloc _ _ _ _ Hty). by rewrite orb_true_r.
Qed.

(** The three rules that complete a record, in pipeline order at an
    object-type node.  Afterwards [required] is present and is not [false]:
    a declared value other than [false] is kept, otherwise it is a fresh
    empty list.  A declared [additionalProperties] is kept, [false]
    included; an undeclared one becomes [true] unless the node has
    [patternProperties], in which case it stays undeclared.  No other
    property changes. *)
Theorem record_defaults (h : heap) (l : nat) (fs : fields)
    (fileName : string) (key : option string) :
  h !! l = Some (HObj fs) → isObjectType h fs = true →
  ∃ h' fs',
    and_then rule_add_required
      (and_then rule_required_false rule_default_additionalProperties)
      h l fileName key = Ok h'
    ∧ h' !! l = Some (HObj fs')
    ∧ obj_has fs' "required" = true
    ∧ obj_get fs' "required" ≠ JBool false
    ∧ (obj_has fs "required" = true → obj_get fs "required" ≠ JBool false →
       obj_get fs' "required" = obj_get fs "required")
    ∧ (obj_has fs "required" = false ∨ obj_get fs "required" = JBool false →
       ∃ a, obj_get fs' "required" = JRef a ∧ h' !! a = Some (HArr []))
    ∧ (obj_has fs "additionalProperties" = true →
       obj_get fs' "additionalProperties" = obj_get fs "additionalProperties")
    ∧ (obj_has fs "additionalProperties" = false →
       if strict_eq (obj_get fs "patternProperties") JUndef
       then obj_get fs' "additionalProperties" = JBool true
       else obj_has fs' "additionalProperties" = false)
    ∧ ∀ k, k ≠ "required" → k ≠ "additionalProperties" →
        obj_get fs' k = obj_get fs k ∧ obj_has fs' k = obj_has fs k.
Proof.
  intros Hl Hobj.
  assert (Hlt : l < length h) by (eapply lookup_lt_Some; eauto).
  (* the first two rules *)
  assert (Hreq : ∃ h1 fs1,
    and_then rule_add_required rule_required_false h l fileName key = Ok h1
    ∧ h1 !! l = Some (HObj fs1) ∧ isObjectType h1 fs1 = true
    ∧ obj_has fs1 "required" = true
    ∧ obj_get fs1 "required" ≠ JBool false
    ∧ (obj_has fs "required" = true → obj_get fs "required" ≠ JBool false →
       obj_get fs1 "required" = obj_get fs "required")
    ∧ (obj_has fs "required" = false ∨ obj_get fs "required" = JBool false →
       ∃ a, obj_get fs1 "required" = JRef a ∧ h1 !! a = Some (HArr []) ∧ a ≠ l)
    ∧ ∀ k, k ≠ "required" →
        obj_get fs1 k = obj_get fs k ∧ obj_has fs1 k = obj_has fs k).
  { unfold and_then, rule_add_required at 1. unfold on_object. rewrite Hl, Hobj. simpl.
    destruct (obj_has fs "required") eqn:Hhas; simpl.
    - unfold rule_required_false, on_object. rewrite Hl.
      destruct (strict_eq (obj_get fs "required") (JBool false)) eqn:Hfalse.
      + apply strict_eq_true in Hfalse. simpl.
        eexists _, _. split; [reflexivity|].
        split; [by apply lookup_store_alloc_node|].
        split.
        { rewrite (isObjectType_store _ _ fs); [|by apply lookup_app_l_Some].
          rewrite <- (isObjectType_alloc h (HArr []) fs Hobj).
          apply isObjectType_ext; by rewrite obj_get_set_ne by discriminate. }
        split; [apply obj_has_set_eq|].
        split; [by rewrite obj_get_set_eq|].
        split; [intros _ Hne; congruence|].
        split.
        { intros _. exists (length h). split; [apply obj_get_set_eq|].
          split; [by apply lookup_store_alloc_new|lia]. }
        intros k Hk. by rewrite obj_get_set_ne, obj_has_set_ne by congruence.
      + apply strict_eq_false in Hfalse.
        exists h, fs. repeat split; try done.
        intros [Hc|Hc]; congruence.
    - unfold rule_required_false, on_object.
      rewrite lookup_store_alloc_node by done. rewrite obj_get_set_eq. simpl.
      eexists _, _. split; [reflexivity|].
      split; [by apply lookup_store_alloc_node|].
      split.
      { rewrite (isObjectType_store _ _ fs); [|by apply lookup_app_l_Some].
        rewrite <- (isObjectType_alloc h (HArr []) fs Hobj).
        apply isObjectType_ext; by rewrite obj_get_set_ne by discriminate. }
      split; [apply obj_has_set_eq|].
      split; [by rewrite obj_get_set_eq|].
      split; [intros Hc; congruence|].
      split.
      { intros _. exists (length h). split; [apply obj_get_set_eq|].
        split; [by apply lookup_store_alloc_new|lia]. }
      intros k Hk. by rewrite obj_get_set_ne, obj_has_set_ne by congruence. }
  destruct Hreq as (h1 & fs1 & Hrun & Hl1 & Hobj1 & Hhas1 & Hnf & Hkeep & Hfresh & Hrest).
  assert (Hlt1 : l < length h1) by (eapply lookup_lt_Some; eauto).
  unfold and_then in *.
  destruct (rule_add_required h l fileName key) as [h0| |] eqn:Hfirst; try discriminate.
  simpl in *. rewrite Hrun. simpl.
  unfold rule_default_additionalProperties, on_object. rewrite Hl1, Hobj1. simpl.
  destruct (Hrest "additionalProperties") as [Hap Hhap]; [discriminate|].
  destruct (Hrest "patternProperties") as [Hpp _]; [discriminate|].
  rewrite Hhap, Hpp.
  destruct (obj_has fs "additionalProperties") eqn:Ehas; simpl.
  - exists h1, fs1. repeat split; try done; try (by apply Hrest).
    + intros Hc. destruct (Hfresh Hc) as (a & ? & ? & ?). by exists a.
  - destruct (strict_eq (obj_get fs "patternProperties") JUndef) eqn:Epp; simpl.
    + eexists _, _. split; [reflexivity|].
      split; [by apply lookup_store_eq|].
      split; [by rewrite obj_has_set_ne by discriminate|].
      split; [by rewrite obj_get_set_ne by discriminate|].
      split; [intros; rewrite obj_get_set_ne by discriminate; by apply Hkeep|].
      split.
      { intros Hc. destruct (Hfresh Hc) as (a & Ha & Harr & Hne). exists a.
        split; [by rewrite obj_get_set_ne by discriminate|].
        by rewrite lookup_store_ne. }
      split; [done|]. split; [intros _; apply obj_get_set_eq|].
      intros k Hk1 Hk2. rewrite obj_get_set_ne, obj_has_set_ne by congruence.
      by apply Hrest.
    + exists h1, fs1. repeat split; try done; try (by apply Hrest).
      intros Hc. destruct (Hfresh Hc) as (a & ? & ? & ?). by exists a.
Qed.

Lemma isArray_array_elems h v :
  isArray h v = match array_elems h v with Some _ => true | None => false end.
Proof.
  destruct v as [| | | | |a]; try reflexivity. simpl.
  by destruct (h !! a) as [[?|?]|].
Qed.

(** The two [extends] rules, in pipeline order at a node: afterwards
    [extends] is either absent or a non-empty list.  A nullish value and an
    empty list are deleted, a non-empty list is left as it is, and any other
    value becomes the one-element list holding it.  No other property
    changes. *)
Theorem extends_normal_form (h : heap) (l : nat) (fs : fields)
    (fileName : string) (key : option string) :
  h !! l = Some (HObj fs) →
  ∃ h' fs',
    and_then rule_remove_empty_extends rule_extends_array h l fileName key = Ok h'
    ∧ h' !! l = Some (HObj fs')
    ∧ (obj_has fs' "extends" = false
       ∨ ∃ a es, obj_get fs' "extends" = JRef a ∧ h' !! a = Some (HArr es) ∧ es ≠ [])
    ∧ (is_nullish (obj_get fs "extends") = true
       ∨ array_elems h (obj_get fs "extends") = Some [] →
       obj_has fs' "extends" = false)
    ∧ (∀ es, array_elems h (obj_get fs "extends") = Some es → es ≠ [] → h' = h)
    ∧ (is_nullish (obj_get fs "extends") = false →
       isArray h (obj_get fs "extends") = false →
       ∃ a, obj_get fs' "extends" = JRef a
            ∧ h' !! a = Some (HArr [obj_get fs "extends"]))
    ∧ ∀ k, k ≠ "extends" → obj_get fs' k = obj_get fs k ∧ obj_has fs' k = obj_has fs k.
Proof.
  intros Hl.
  assert (Hlt : l < length h) by (eapply lookup_lt_Some; eauto).
  unfold and_then, rule_remove_empty_extends at 1. unfold on_object. rewrite Hl.
  destruct (obj_has fs "extends") eqn:Hhas; simpl.
  - destruct (is_nullish (obj_get fs "extends")) eqn:Hnull; simpl.
    + (* a nullish value is deleted *)
      unfold rule_extends_array, on_object. rewrite lookup_store_eq by done.
      rewrite obj_get_delete_eq. simpl.
      eexists _, _. split; [reflexivity|]. split; [by apply lookup_store_eq|].
      split; [left; apply obj_has_delete_eq|].
      split; [intros _; apply obj_has_delete_eq|].
      split.
      { intros es Hes. destruct (obj_get fs "extends"); by try discriminate. }
      split; [discriminate|].
      intros k Hk. by rewrite obj_get_delete_ne, obj_has_delete_ne by congruence.
    + destruct (array_elems h (obj_get fs "extends")) as [[|e es]|] eqn:Hes; simpl.
      * (* an empty list is deleted *)
        unfold rule_extends_array, on_object. rewrite lookup_store_eq by done.
        rewrite obj_get_delete_eq. simpl.
        eexists _, _. split; [reflexivity|]. split; [by apply lookup_store_eq|].
        split; [left; apply obj_has_delete_eq|].
        split; [intros _; apply obj_has_delete_eq|].
        split; [by intros es [= <-]|].
        split; [intros _; rewrite isArray_array_elems, Hes; discriminate|].
        intros k Hk. by rewrite obj_get_delete_ne, obj_has_delete_ne by congruence.
      * (* a non-empty list stays *)
        unfold rule_extends_array, on_object. rewrite Hl, Hnull.
        rewrite isArray_array_elems, Hes. simpl.
        exists h, fs. split; [reflexivity|]. split; [done|].
        split.
        { right. destruct (obj_get fs "extends") as [| | | | |a]; try discriminate.
          exists a, (e :: es). simpl in Hes.
          destruct (h !! a) as [[?|?]|]; try discriminate.
          by injection Hes as ->. }
        split; [intros [Hc|Hc]; discriminate|].
        split; [done|]. split; [discriminate|]. done.
      * (* any other value is wrapped *)
        unfold rule_extends_array, on_object. rewrite Hl, Hnull.
        rewrite isArray_array_elems, Hes. simpl.
        eexists _, _. split; [reflexivity|].
        split; [by apply lookup_store_alloc_node|].
        split.
        { right. exists (length h), [obj_get fs "extends"].
          split; [apply obj_get_set_eq|].
          split; [by apply lookup_store_alloc_new|done]. }
        split; [intros [Hc|Hc]; discriminate|].
        split; [discriminate|].
        split.
        { intros _ _. exists (length h). split; [apply obj_get_set_eq|].
          by apply lookup_store_alloc_new. }
        intros k Hk. by rewrite obj_get_set_ne, obj_has_set_ne by congruence.
  - (* no [extends] at all *)
    pose proof (obj_has_false_get _ _ Hhas) as Hget.
    unfold rule_extends_array, on_object. rewrite Hl, Hget. simpl.
    exists h, fs. split; [reflexivity|]. split; [done|]. split; [by left|].
    split; [done|]. split; [done|]. split; [discriminate|]. done.
Qed.

(** The two [type] rules, in pipeline order at a node whose [enum] lists
    [null] and whose [type] list names ["null"]: the ["null"] entries leave
    the list, the other type names keep their order, and when exactly one
    name is left, [type] becomes that name itself.  No other property
    changes. *)
Theorem nullable_type_collapses (h : heap) (l : nat) (fs : fields)
    (fileName : string) (key : option string) (en tys : list jval) :
  h !! l = Some (HObj fs) →
  array_elems h (obj_get fs "enum") = Some en → includes en JNull = true →
  array_elems h (obj_get fs "type") = Some tys → includes tys (JStr "null") = true →
  ∃ h' fs',
    and_then rule_remove_null_type rule_destructure_unary h l fileName key = Ok h'
    ∧ h' !! l = Some (HObj fs')
    ∧ match List.filter (fun t => negb (strict_eq t (JStr "null"))) tys with
      | [t] => obj_get fs' "type" = t
      | rest => ∃ a, obj_get fs' "type" = JRef a ∧ h' !! a = Some (HArr rest)
      end
    ∧ ∀ k, k ≠ "type" → obj_get fs' k = obj_get fs k ∧ obj_has fs' k = obj_has fs k.
Proof.
  intros Hl Hen Hnull Hty Hnames.
  assert (Hlt : l < length h) by (eapply lookup_lt_Some; eauto).
  unfold and_then, rule_remove_null_type. unfold on_object at 1.
  rewrite Hl, Hen, Hty, Hnull, Hnames. simpl.
  set (rest := List.filter (fun t => negb (strict_eq t (JStr "null"))) tys).
  unfold rule_destructure_unary, on_object.
  rewrite lookup_store_alloc_node by done. rewrite obj_get_set_eq. simpl.
  rewrite lookup_store_alloc_new by done.
  assert (Hkeep : ∀ k, k ≠ "type" →
            obj_get (obj_set fs "type" (JRef (length h))) k = obj_get fs k
            ∧ obj_has (obj_set fs "type" (JRef (length h))) k = obj_has fs k).
  { intros k Hk. by rewrite obj_get_set_ne, obj_has_set_ne by congruence. }
  destruct rest as [|t [|t' rest']] eqn:Hrest.
  - eexists _, _. split; [reflexivity|].
    split; [by apply lookup_store_alloc_node|].
    split; [|exact Hkeep].
    exists (length h). split; [apply obj_get_set_eq|by apply lookup_store_alloc_new].
  - eexists _, _. split; [reflexivity|].
    rewrite store_store.
    split; [by apply lookup_store_alloc_node|].
    split; [apply obj_get_set_eq|].
    intros k Hk. rewrite obj_get_set_ne, obj_has_set_ne by congruence. by apply Hkeep.
  - eexists _, _. split; [reflexivity|].
    split; [by apply lookup_store_alloc_node|].
    split; [|exact Hkeep].
    exists (length h). split; [apply obj_get_set_eq|by apply lookup_store_alloc_new].
Qed.

(** A single item schema with a negative [maxItems] and a positive
    [minItems]: the rule asks for a list of negative length and fails with a
    [RangeError]. *)
Theorem negative_maxItems_is_a_range_error (h : heap) (l : nat) (fs : fields)
    (fileName : string) (key : option string) (n m : Z) :
  h !! l = Some (HObj fs) →
  truthy (obj_get fs "items") = true → isArray h (obj_get fs "items") = false →
  obj_get fs "maxItems" = JNum n → (n < 0)%Z →
  obj_get fs "minItems" = JNum m → (0 < m)%Z →
  ∃ msg, rule_normalize_items h l fileName key = Throw (RangeError msg).
Proof.
  intros Hl Hitems Harr Hmx Hn Hmn Hm.
  unfold rule_normalize_items, items_replicate, on_object, node_fields.
  rewrite Hl, Hitems, Harr, Hmx, Hmn. simpl.
  assert (Hmax : (0 <=? n)%Z = false) by lia.
  assert (Hmin : (0 <? m)%Z = true) by lia.
  rewrite Hmax, Hmin. simpl.
  unfold js_or. simpl.
  assert (Hnz : (n =? 0)%Z = false) by lia.
  repeat (rewrite Hnz; simpl).
  assert (Hneg : (n <? 0)%Z = true) by lia.
  rewrite Hneg. simpl. by eexists.
Qed.

Lemma writes_only_refl l h : writes_only l h h.
Proof. by split; [|split]. Qed.

Lemma writes_only_trans l h1 h2 h3 :
  writes_only l h1 h2 → writes_only l h2 h3 → writes_only l h1 h3.
Proof.
  intros (Hlen1 & Hrest1 & Harr1) (Hlen2 & Hrest2 & Harr2).
  split; [lia|]. split.
  - intros l' Hne Hlt. rewrite Hrest2 by (done || lia). by apply Hrest1.
  - intros es Hes. by apply Harr2, Harr1.
Qed.

Lemma writes_only_store l h fs fs' :
  h !! l = Some (HObj fs) → writes_only l h (store h l fs').
Proof.
  intros Hl. unfold store. split; [by rewrite length_insert|]. split.
  - intros l' Hne _. by apply list_lookup_insert_ne.
  - intros es Hes. congruence.
Qed.

Lemma writes_only_alloc_store l h o fs fs' :
  h !! l = Some (HObj fs) → writes_only l h (store (h ++ [o]) l fs').
Proof.
  intros Hl. unfold store. split; [rewrite length_insert, length_app; lia|]. split.
  - intros l' Hne Hlt. rewrite list_lookup_insert_ne by done. by apply lookup_app_l.
  - intros es Hes. congruence.
Qed.

Lemma items_replicate_writes_only h l h' :
  items_replicate h l = Ok h' → writes_only l h h'.
Proof.
  unfold items_replicate, on_object. intros Hrun.
  destruct (h !! l) as [[fs|es]|] eqn:Hl;
    [|injection Hrun as <-; apply writes_only_refl
     |injection Hrun as <-; apply writes_only_refl].
  destruct (truthy (obj_get fs "items") && negb (isArray h (obj_get fs "items"))
            && (hasMaxItems (obj_get fs "maxItems") || hasMinItems (obj_get fs "minItems")));
    [|injection Hrun as <-; apply writes_only_refl].
  destruct (js_Array _) as [arr| |]; try discriminate.
  simpl in Hrun. injection Hrun as <-. by eapply writes_only_alloc_store.
Qed.

Lemma items_truncate_writes_only h l mx h' :
  items_truncate h l mx = Ok h' → writes_only l h h'.
Proof.
  unfold items_truncate, on_object. intros Hrun.
  destruct (h !! l) as [[fs|es]|] eqn:Hl;
    [|injection Hrun as <-; apply writes_only_refl
     |injection Hrun as <-; apply writes_only_refl].
  destruct (array_elems h (obj_get fs "items")) as [es|];
    [|injection Hrun as <-; apply writes_only_refl].
  destruct mx as [| | |z| |]; try (injection Hrun as <-; apply writes_only_refl).
  destruct (hasMaxItems (JNum z) && (z <? Z.of_nat (length es))%Z);
    [|injection Hrun as <-; apply writes_only_refl].
  simpl in Hrun. injection Hrun as <-. by eapply writes_only_alloc_store.
Qed.

Ltac frame_cases Hrun :=
  cbv beta iota delta [alloc] in Hrun;
  repeat match type of Hrun with
         | (if ?c then _ else _) = Ok _ => destruct c
         | match ?x with _ => _ end = Ok _ => destruct x
         end;
  try discriminate;
  simpl in Hrun; injection Hrun as <-;
  first [ apply writes_only_refl
        | by eapply writes_only_store
        | by eapply writes_only_alloc_store ].

(** A rule writes the node it is applied to and nothing else: every other
    object of the store stays as it was, a list is never modified in place
    (a rule that changes a list stores a new one), and nothing is removed.
    The rule that delegates to [escapeBlockComment] is left out. *)
Theorem rules_write_their_own_node (h h' : heap) (l : nat) (fileName : string)
    (key : option string) (name : string) (r : Rule) :
  (name, r) ∈ rules → name ≠ "Escape closing JSDoc comment" →
  r h l fileName key = Ok h' → writes_only l h h'.
Proof.
  intros Hin Hname Hrun. unfold rules in Hin.
  repeat (apply elem_of_cons in Hin as [Heq | Hin];
          [injection Heq as -> ->; try congruence|]);
    try (by apply elem_of_nil in Hin).
  - unfold rule_remove_null_type, on_object in Hrun.
    destruct (h !! l) as [[fs|es]|] eqn:Hl; frame_cases Hrun.
  - unfold rule_destructure_unary, on_object in Hrun.
    destruct (h !! l) as [[fs|es]|] eqn:Hl; frame_cases Hrun.
  - unfold rule_add_required, on_object in Hrun.
    destruct (h !! l) as [[fs|es]|] eqn:Hl; frame_cases Hrun.
  - unfold rule_required_false, on_object in Hrun.
    destruct (h !! l) as [[fs|es]|] eqn:Hl; frame_cases Hrun.
  - unfold rule_default_additionalProperties, on_object in Hrun.
    destruct (h !! l) as [[fs|es]|] eqn:Hl; frame_cases Hrun.
  - unfold rule_id_to_dollar_id, on_object in Hrun.
    destruct (negb (isSchemaLike h l)); [injection Hrun as <-; apply writes_only_refl|].
    destruct (h !! l) as [[fs|es]|] eqn:Hl; frame_cases Hrun.
  - unfold rule_bound_comments, on_object in Hrun.
    destruct (h !! l) as [[fs|es]|] eqn:Hl; frame_cases Hrun.
  - unfold rule_remove_bounds, on_object in Hrun.
    destruct (h !! l) as [[fs|es]|] eqn:Hl; frame_cases Hrun.
  - unfold rule_normalize_minItems, on_object in Hrun.
    destruct (h !! l) as [[fs|es]|] eqn:Hl; frame_cases Hrun.
  - unfold rule_remove_big_maxItems, on_object in Hrun.
    destruct (h !! l) as [[fs|es]|] eqn:Hl; frame_cases Hrun.
  - unfold rule_normalize_items in Hrun.
    destruct (items_replicate h l) as [h1| |] eqn:Hrep; try discriminate.
    simpl in Hrun.
    eapply writes_only_trans;
      [by apply items_replicate_writes_only|by eapply items_truncate_writes_only].
  - unfold rule_remove_empty_extends, on_object in Hrun.
    destruct (h !! l) as [[fs|es]|] eqn:Hl; frame_cases Hrun.
  - unfold rule_extends_array, on_object in Hrun.
    destruct (h !! l) as [[fs|es]|] eqn:Hl; frame_cases Hrun.
  - unfold rule_const_to_enum, on_object in Hrun.
    destruct (h !! l) as [[fs|es]|] eqn:Hl; frame_cases Hrun.
Qed.

Ltac total_cases :=
  unfold on_object;
  repeat match goal with
         | |- ∃ _, (if ?c then _ else _) = Ok _ => destruct c
         | |- ∃ _, match ?x with _ => _ end = Ok _ => destruct x
         end;
  simpl; by eexists.

(** No rule other than the identifier rule and the items rule can fail:
    applied to any object of any store, each of the others returns a store.
    The rule that delegates to [escapeBlockComment] is left out. *)
Theorem other_rules_never_fail (h : heap) (l : nat) (fileName : string)
    (key : option string) (name : string) (r : Rule) :
  (name, r) ∈ rules →
  name ≠ "Transform id to $id" → name ≠ "Normalize schema.items" →
  name ≠ "Escape closing JSDoc comment" →
  ∃ h', r h l fileName key = Ok h'.
Proof.
  intros Hin Hid Hitems Hescape. unfold rules in Hin.
  repeat (apply elem_of_cons in Hin as [Heq | Hin];
          [injection Heq as -> ->; try congruence|]);
    try (by apply elem_of_nil in Hin).
  - unfold rule_remove_null_type. total_cases.
  - unfold rule_destructure_unary. total_cases.
  - unfold rule_add_required. total_cases.
  - unfold rule_required_false. total_cases.
  - unfold rule_default_additionalProperties. total_cases.
  - unfold rule_bound_comments. total_cases.
  - unfold rule_remove_bounds. total_cases.
  - unfold rule_normalize_minItems. total_cases.
  - unfold rule_remove_big_maxItems. total_cases.
  - unfold rule_remove_empty_extends. total_cases.
  - unfold rule_extends_array. total_cases.
  - unfold rule_const_to_enum. total_cases.
Qed.

End RuleSequences.

(** ** The Definitions Collector *)

Section Definitions.
Import JS Parser.

Lemma elem_of_visited_locs l p : l ∈ visited_locs p ↔ JRef l ∈ p.
Proof.
  unfold visited_locs. rewrite elem_of_list_to_set, list_elem_of_omap.
  split.
  - intros (v & Hv & Hl). destruct v; try discriminate. by injection Hl as ->.
  - intros Hin. by exists (JRef l).
Qed.

Lemma unvisited_mono h p p' : p ⊆ p' → unvisited h p' ≤ unvisited h p.
Proof.
  intros Hsub. unfold unvisited. apply subseteq_size.
  intros x. rewrite !elem_of_difference, !elem_of_visited_locs.
  intros [Hx Hn]. split; [exact Hx|]. intros Hin. apply Hn, Hsub, Hin.
Qed.

Lemma unvisited_mark h l p :
  l < length h → JRef l ∉ p → unvisited h (JRef l :: p) < unvisited h p.
Proof.
  intros Hl Hn. unfold unvisited. apply subset_size. split.
  - intros x. rewrite !elem_of_difference, !elem_of_visited_locs.
    intros [Hx Hnx]. split; [exact Hx|]. intros Hin. apply Hnx. by right.
  - intros Hsub. specialize (Hsub l).
    rewrite !elem_of_difference, !elem_of_visited_locs, elem_of_set_seq in Hsub.
    destruct Hsub as [_ Hc]; [split; [lia | exact Hn]|].
    apply Hc. by left.
Qed.

Lemma unvisited_start h : unvisited h [] = length h.
Proof.
  unfold unvisited, visited_locs. simpl.
  rewrite difference_empty_L. apply size_set_seq.
Qed.

Lemma obj_spread_nil fs : obj_spread fs [] = fs.
Proof. reflexivity. Qed.

Lemma own_definitions_false h v : own_definitions h v false = [].
Proof.
  unfold own_definitions. destruct v; try reflexivity.
  by destruct (h !! l) as [[|]|].
Qed.

(** When every walk from a member answers with the empty map, so does the
    whole [reduce]. *)
Lemma reduce_definitions_empty walk vs (p0 : list jval) :
  (∀ cur p, p0 ⊆ p → ∃ p', walk cur p = Some ([], p') ∧ p ⊆ p') →
  ∀ p, p0 ⊆ p →
  ∃ p', reduce_definitions walk vs p = Some ([], p') ∧ p ⊆ p'.
Proof.
  intros Hwalk. unfold reduce_definitions.
  induction vs as [|v vs IH]; intros p Hp; simpl.
  - by exists p.
  - destruct (Hwalk v p Hp) as (p1 & -> & Hp1). simpl.
    destruct (IH p1) as (p' & Hrun & Hp'); [set_solver|].
    exists p'. split; [exact Hrun | set_solver].
Qed.

(** The walk always ends within a budget above the number of unvisited
    objects; a revisit answers with the empty map, and so does every walk
    that is not taken as a schema. *)
Lemma getDefinitions_rec_total fuel h v isSchema p :
  unvisited h p < fuel →
  ∃ p', getDefinitions_rec fuel h v isSchema p =
          Some (if bool_decide (v ∈ p) then [] else own_definitions h v isSchema, p')
        ∧ p ⊆ p'.
Proof.
  revert v isSchema p. induction fuel as [|n IH]; intros v isSchema p Hfuel; [lia|].
  simpl. destruct (bool_decide (v ∈ p)) eqn:Hin; [by exists p|].
  apply bool_decide_eq_false in Hin.
  assert (Hsub : p ⊆ v :: p) by set_solver.
  destruct v as [| | | | |l]; try (eexists; split; [reflexivity | exact Hsub]).
  destruct (h !! l) as [[fs|es]|] eqn:Hl; simpl; rewrite Hl;
    [ | | eexists; split; [reflexivity | exact Hsub] ].
  all: assert (Hlt : l < length h) by (eapply lookup_lt_Some; eauto).
  all: pose proof (unvisited_mark h l p Hlt Hin) as Hdec.
  all: match goal with
       | |- context [reduce_definitions ?w ?vs ?q] =>
           destruct (reduce_definitions_empty w vs (JRef l :: p)) with (p := JRef l :: p)
             as (p' & -> & Hp'); [ | set_solver | ]
       end.
  1,3: intros cur q Hq;
       destruct (IH cur false q) as (q' & Hrun & Hq');
       [ pose proof (unvisited_mono h _ _ Hq); lia | ];
       exists q'; split; [| exact Hq'];
       rewrite Hrun, own_definitions_false; by destruct (bool_decide (cur ∈ q)).
  - exists p'. split; [reflexivity | set_solver].
  - exists p'. split; [reflexivity | set_solver].
Qed.

(** [getDefinitions] returns the definition map of the root it is given
    and nothing else: the walks into the members are never taken as
    schemas, so no nested definition map is merged in. *)
Lemma getDefinitions_root_only h v : getDefinitions h v = own_definitions h v true.
Proof.
  unfold getDefinitions.
  destruct (getDefinitions_rec_total (S (length h)) h v true []) as (p' & -> & _).
  - rewrite unvisited_start. lia.
  - rewrite bool_decide_eq_false_2; [reflexivity | apply not_elem_of_nil].
Qed.

(** A revisit contributes the empty map and marks nothing. *)
Lemma getDefinitions_rec_revisit fuel h v isSchema p :
  v ∈ p → getDefinitions_rec (S fuel) h v isSchema p = Some ([], p).
Proof. intros Hin. simpl. by rewrite bool_decide_eq_true_2. Qed.

(** A second query for the same root is answered from the cache of
    [memoize], whatever the store holds by then. *)
Lemma getDefinitionsMemoized_reuse root st d st1 st2 :
  getDefinitionsMemoized root st = Ok (d, st1) →
  definitionsCache st2 !! root = definitionsCache st1 !! root →
  getDefinitionsMemoized root st2 = Ok (d, st2).
Proof.
  unfold getDefinitionsMemoized. intros Hrun Hsame.
  assert (Hc : definitionsCache st1 !! root = Some d).
  { destruct (definitionsCache st !! root) as [d0|] eqn:Hm.
    - injection Hrun as <- <-. exact Hm.
    - injection Hrun as <- <-. simpl. apply lookup_insert_eq. }
  by rewrite Hsame, Hc.
Qed.

(** The walk of [getDefinitions] ends on every store, cyclic graphs
    included, within one step per object of the store, and what it returns
    is the definition map of the root alone: the entries of the root's
    [$defs] when the root is an object that has the key, and nothing for any
    other root.  Definition maps of nested nodes do not contribute. *)
Theorem definitions_of_the_root_alone (h : heap) (v : jval) :
  (∃ p', getDefinitions_rec (S (length h)) h v true [] = Some (getDefinitions h v, p'))
  ∧ getDefinitions h v =
      match v with
      | JRef l =>
          match h !! l with
          | Some (HObj fs) =>
              if obj_has fs "$defs" then spread_of h (obj_get fs "$defs") else []
          | _ => []
          end
      | _ => []
      end.
Proof.
  destruct (getDefinitions_rec_total (S (length h)) h v true []) as (p' & Hrun & _).
  { rewrite unvisited_start. lia. }
  rewrite bool_decide_eq_false_2 in Hrun by apply not_elem_of_nil.
  assert (Hget : getDefinitions h v = own_definitions h v true).
  { unfold getDefinitions. by rewrite Hrun. }
  split.
  - exists p'. by rewrite Hget.
  - rewrite Hget. unfold own_definitions.
    destruct v as [| | | | |l]; reflexivity.
Qed.

End Definitions.

(** ** The builder: what every run preserves *)

Section Preservation.
Import JS Parser.
Context {RT : JsRuntime} {U : Utils}.

Lemma bind_ok {A B} (m : M A) (k : A → M B) st r :
  bind m k st = Ok r → ∃ x st1, m st = Ok (x, st1) ∧ k x st1 = Ok r.
Proof.
  unfold bind. destruct (m st) as [[x st1]| |]; try discriminate.
  intros Hk. by exists x, st1.
Qed.

(** A relation on states that every primitive step of the builder
    respects. *)
Variable R : BuildState → BuildState → Prop.
Hypothesis R_refl : ∀ st, R st st.
Hypothesis R_trans : ∀ a b c, R a b → R b c → R a c.
Hypothesis R_new_schema : ∀ st o, R st (set_schemas (schemas st ++ [o]) st).
Hypothesis R_strip_hints :
  ∀ st l, R st (set_schemas (fst (maybeStripNameHints (schemas st) l)) st).
Hypothesis R_strip_default :
  ∀ st l, R st (set_schemas (fst (maybeStripDefault (schemas st) l)) st).
Hypothesis R_asts : ∀ st l, R st (set_asts l st).
Hypothesis R_names : ∀ st u, R st (set_usedNames u st).
Hypothesis R_memo : ∀ st m, R st (set_definitionsCache m st).
Hypothesis R_cache :
  ∀ st schema ty a, cache_lookup (processed st) schema ty = None →
    R st (set_processed (cache_insert (processed st) schema ty a) st).

Lemma preserves_ret {A} (a : A) : preserves R (ret a).
Proof. intros st x st' [= _ <-]. apply R_refl. Qed.

Lemma preserves_throw {A} e : preserves R (@throw A e).
Proof. intros st x st' [=]. Qed.

Lemma preserves_stuck {A} : preserves R (fun _ : BuildState => @OutOfFuel (A * BuildState)).
Proof. intros st x st' [=]. Qed.

Lemma preserves_bind {A B} (m : M A) (k : A → M B) :
  preserves R m → (∀ x, preserves R (k x)) → preserves R (bind m k).
Proof.
  intros Hm Hk st b st' Hrun.
  apply bind_ok in Hrun as (x & st1 & H1 & H2).
  eapply R_trans; [eapply Hm | eapply Hk]; eauto.
Qed.

Lemma preserves_mapM {A B} (f : A → M B) l :
  (∀ x, preserves R (f x)) → preserves R (mapM f l).
Proof.
  intros Hf. induction l as [|x l IH]; simpl.
  - apply preserves_ret.
  - apply preserves_bind; [apply Hf|]. intros y.
    apply preserves_bind; [apply IH|]. intros ys. apply preserves_ret.
Qed.

Lemma preserves_get_schemas : preserves R get_schemas.
Proof. intros st x st' [= _ <-]. apply R_refl. Qed.

Lemma preserves_field schema k : preserves R (field schema k).
Proof. intros st x st' [= _ <-]. apply R_refl. Qed.

Lemma preserves_get_ast a : preserves R (get_ast a).
Proof. intros st x st' [= _ <-]. apply R_refl. Qed.

Lemma preserves_new_schema o : preserves R (new_schema o).
Proof. intros st x st' [= _ <-]. apply R_new_schema. Qed.

Lemma preserves_new_ast n : preserves R (new_ast n).
Proof. intros st x st' [= _ <-]. apply R_asts. Qed.

Lemma preserves_update_ast a f : preserves R (update_ast a f).
Proof. intros st x st' [= _ <-]. apply R_asts. Qed.

Lemma preserves_getDefinitionsMemoized root : preserves R (getDefinitionsMemoized root).
Proof.
  intros st x st'. unfold getDefinitionsMemoized.
  destruct (definitionsCache st !! root); intros [= _ <-]; [apply R_refl | apply R_memo].
Qed.

Lemma preserves_strip_hints l : preserves R (strip_with maybeStripNameHints l).
Proof.
  intros st x st' Hrun. unfold strip_with in Hrun.
  apply bind_ok in Hrun as (h & st1 & [= <- <-] & Hrun).
  apply bind_ok in Hrun as ([] & st2 & [= <-] & [= _ <-]).
  apply R_strip_hints.
Qed.

Lemma preserves_strip_default l : preserves R (strip_with maybeStripDefault l).
Proof.
  intros st x st' Hrun. unfold strip_with in Hrun.
  apply bind_ok in Hrun as (h & st1 & [= <- <-] & Hrun).
  apply bind_ok in Hrun as ([] & st2 & [= <-] & [= _ <-]).
  apply R_strip_default.
Qed.

Lemma preserves_standaloneName schema k : preserves R (standaloneName schema k).
Proof.
  unfold standaloneName.
  apply preserves_bind; [apply preserves_field|]. intros title.
  apply preserves_bind; [apply preserves_field|]. intros id.
  destruct (truthy _); [|apply preserves_ret].
  intros st x st' [= _ <-]. apply R_names.
Qed.

Lemma preserves_array_map {A} arr (f : jval → nat → M A) :
  (∀ v i, preserves R (f v i)) → preserves R (array_map arr f).
Proof.
  intros Hf. unfold array_map.
  apply preserves_bind; [apply preserves_get_schemas|]. intros h.
  destruct (array_elems h arr); [|apply preserves_throw].
  apply preserves_mapM. intros i.
  apply preserves_bind; [apply preserves_get_schemas|]. intros h'. apply Hf.
Qed.

Lemma preserves_lodash_map {A} c (f : jval → string → M A) :
  (∀ v k, preserves R (f v k)) → preserves R (lodash_map c f).
Proof.
  intros Hf. unfold lodash_map.
  apply preserves_bind; [apply preserves_get_schemas|]. intros h.
  apply preserves_mapM. intros k.
  apply preserves_bind; [apply preserves_get_schemas|]. intros h'. apply Hf.
Qed.

Lemma preserves_in_required schema k : preserves R (in_required schema k).
Proof.
  unfold in_required.
  apply preserves_bind; [apply preserves_get_schemas|]. intros h.
  apply preserves_bind; [apply preserves_field|]. intros r. apply preserves_ret.
Qed.

Lemma preserves_parseLiteral v k : preserves R (parseLiteral v k).
Proof. apply preserves_new_ast. Qed.

Lemma preserves_parseBooleanSchema b k : preserves R (parseBooleanSchema b k).
Proof. apply preserves_new_ast. Qed.

Lemma preserves_append_comment a c : preserves R (append_comment a c).
Proof.
  unfold append_comment.
  apply preserves_bind; [apply preserves_get_schemas|]. intros h.
  apply preserves_update_ast.
Qed.

(** One step of the decomposition of a computation into the steps above. *)
Ltac pres_step :=
  match goal with
  | |- preserves _ (bind _ _) => apply preserves_bind; [|intros ?]
  | |- preserves _ (ret _) => apply preserves_ret
  | |- preserves _ (throw _) => apply preserves_throw
  | |- preserves _ (fun _ => OutOfFuel) => apply preserves_stuck
  | |- preserves _ get_schemas => apply preserves_get_schemas
  | |- preserves _ (field _ _) => apply preserves_field
  | |- preserves _ (get_ast _) => apply preserves_get_ast
  | |- preserves _ (new_schema _) => apply preserves_new_schema
  | |- preserves _ (new_ast _) => apply preserves_new_ast
  | |- preserves _ (update_ast _ _) => apply preserves_update_ast
  | |- preserves _ (getDefinitionsMemoized _) => apply preserves_getDefinitionsMemoized
  | |- preserves _ (strip_with maybeStripNameHints _) => apply preserves_strip_hints
  | |- preserves _ (strip_with maybeStripDefault _) => apply preserves_strip_default
  | |- preserves _ (standaloneName _ _) => apply preserves_standaloneName
  | |- preserves _ (in_required _ _) => apply preserves_in_required
  | |- preserves _ (parseLiteral _ _) => apply preserves_parseLiteral
  | |- preserves _ (parseBooleanSchema _ _) => apply preserves_parseBooleanSchema
  | |- preserves _ (append_comment _ _) => apply preserves_append_comment
  | |- preserves _ (array_map _ _) => apply preserves_array_map; intros ? ?
  | |- preserves _ (lodash_map _ _) => apply preserves_lodash_map; intros ? ?
  | |- preserves _ (mapM _ _) => apply preserves_mapM; intros ?
  | |- preserves _ (if ?b then _ else _) => destruct b
  | |- preserves _ (match ?x with _ => _ end) => destruct x
  end.

Section Step.
Variable parse : jval → option string → M nat.
Hypothesis parse_preserves : ∀ v k, preserves R (parse v k).

Lemma preserves_parseSuperTypes schema : preserves R (parseSuperTypes parse schema).
Proof. unfold parseSuperTypes. repeat pres_step; apply parse_preserves. Qed.

Lemma preserves_parseSchema schema name : preserves R (parseSchema parse schema name).
Proof. unfold parseSchema. repeat pres_step; apply parse_preserves. Qed.

Lemma mapM_Forall2 {A B} (f : A → M B) (Q : A → B → Prop) l st ys st' :
  (∀ x s y s', f x s = Ok (y, s') → Q x y) →
  mapM f l st = Ok (ys, st') → Forall2 Q l ys.
Proof.
  intros Hf. revert st ys. induction l as [|x l IH]; intros st ys; simpl.
  - intros [= <- _]. constructor.
  - intros Hrun.
    apply bind_ok in Hrun as (y & s1 & Hy & Hrun).
    apply bind_ok in Hrun as (ys' & s2 & Hys & [= <- <-]).
    constructor; [eapply Hf; eauto | eapply IH; eauto].
Qed.

Lemma lodash_map_members {A} c (f : jval → string → M A) (Q : string → A → Prop)
    st ys st' :
  (∀ v k s y s', f v k s = Ok (y, s') → Q k y) →
  lodash_map c f st = Ok (ys, st') → Forall2 Q (keys_of (schemas st) c) ys.
Proof.
  intros Hf Hrun. unfold lodash_map in Hrun.
  apply bind_ok in Hrun as (h & s1 & [= <- <-] & Hrun).
  eapply mapM_Forall2; [|exact Hrun].
  intros k s y s' Hk.
  apply bind_ok in Hk as (h' & s2 & [= <- <-] & Hk). eauto.
Qed.

(** The member list [parseSchema] returns, step by step: one member per
    declared property, in the order of the keys; one per pattern property;
    one per definition; and the catch-all the final [switch] adds.  The
    states in between are related by whatever the build preserves. *)
Lemma parseSchema_inv schema name st members st' :
  parseSchema parse schema name st = Ok (members, st') →
  ∃ asts1 asts2 asts3 st1 st2 st3,
    R st st1 ∧ R st1 st2 ∧ R st2 st3 ∧ R st3 st'
    ∧ Forall2 (fun k m => paramKeyName m = k ∧ isPatternProperty m = false
                          ∧ isUnreachableDefinition m = false)
        (keys_of (schemas st) (obj_get (node_fields (schemas st) schema) "properties"))
        asts1
    ∧ (let pp := obj_get (node_fields (schemas st1) schema) "patternProperties" in
       let single :=
         truthy pp
         && negb (truthy (obj_get (node_fields (schemas st1) schema) "additionalProperties"))
         && (length (keys_of (schemas st1) pp) =? 1)%nat in
       Forall2 (fun k m => paramKeyName m = (if single then "[k: string]" else k)
                           ∧ isPatternProperty m = negb single
                           ∧ isUnreachableDefinition m = false
                           ∧ (single = true → isRequired m = true))
         (if truthy pp then keys_of (schemas st1) pp else []) asts2
       ∧ Forall2 (fun k m => paramKeyName m = k ∧ isPatternProperty m = false
                             ∧ isUnreachableDefinition m = true)
           (keys_of (schemas st2) (obj_get (node_fields (schemas st2) schema) "$defs"))
           asts3
       ∧ match obj_get (node_fields (schemas st3) schema) "additionalProperties" with
         | JUndef | JBool true =>
             st' = st3
             ∧ members = (asts1 ++ asts2 ++ asts3)
                         ++ (if single then [] else [catch_all T_ANY_ADDITIONAL_PROPERTIES])
         | JBool false => st' = st3 ∧ members = asts1 ++ asts2 ++ asts3
         | ap => ∃ a, parse ap (Some "[k: string]") st3 = Ok (a, st')
                      ∧ members = (asts1 ++ asts2 ++ asts3) ++ [catch_all a]
         end).
Proof.
  unfold parseSchema. intros Hrun.
  apply bind_ok in Hrun as (properties & s0 & [= <- <-] & Hrun).
  apply bind_ok in Hrun as (asts1 & st1 & H1 & Hrun).
  apply bind_ok in Hrun as (pp & s1 & [= <- <-] & Hrun).
  apply bind_ok in Hrun as (h1 & s1 & [= <- <-] & Hrun).
  apply bind_ok in Hrun as (ap0 & s1 & [= <- <-] & Hrun).
  apply bind_ok in Hrun as (asts2 & st2 & H2 & Hrun).
  apply bind_ok in Hrun as (defs & s2 & [= <- <-] & Hrun).
  apply bind_ok in Hrun as (asts3 & st3 & H3 & Hrun).
  apply bind_ok in Hrun as (ap & s3 & [= <- <-] & Hrun).
  exists asts1, asts2, asts3, st1, st2, st3.
  assert (HR1 : R st st1).
  { revert H1. apply preserves_lodash_map. intros v k.
    repeat pres_step; apply parse_preserves. }
  assert (HR2 : R st1 st2).
  { revert H2.
    destruct (truthy (obj_get (node_fields (schemas st1) schema) "patternProperties"));
      [|intros [= _ <-]; apply R_refl].
    apply preserves_lodash_map. intros v k.
    repeat pres_step; apply parse_preserves. }
  assert (HR3 : R st2 st3).
  { revert H3. apply preserves_lodash_map. intros v k.
    repeat pres_step; apply parse_preserves. }
  split; [exact HR1|]. split; [exact HR2|]. split; [exact HR3|].
  split.
  { destruct (obj_get (node_fields (schemas st3) schema) "additionalProperties")
      as [| |[]| | |]; simpl in Hrun;
      try (destruct (_ && _ && _); injection Hrun as _ <-; apply R_refl);
      try (injection Hrun as _ <-; apply R_refl);
      apply bind_ok in Hrun as (a & s4 & Ha & [= _ <-]);
      eapply parse_preserves; eauto. }
  split.
  { eapply lodash_map_members; [|exact H1]. simpl.
    intros v k s y s' Hk.
    apply bind_ok in Hk as (a & s5 & _ & Hk).
    apply bind_ok in Hk as (req & s6 & _ & [= <- _]). done. }
  cbv zeta. split.
  { destruct (truthy (obj_get (node_fields (schemas st1) schema) "patternProperties"));
      [|injection H2 as <- _; constructor].
    eapply lodash_map_members; [|exact H2]. simpl.
    intros v k s y s' Hk.
    apply bind_ok in Hk as (a & s5 & _ & Hk).
    apply bind_ok in Hk as ([] & s6 & _ & Hk).
    apply bind_ok in Hk as (req & s7 & Hreq & [= <- _]). simpl.
    repeat split; try done.
    intros Hs. rewrite Hs in Hreq. by injection Hreq as <- _. }
  split.
  { eapply lodash_map_members; [|exact H3]. simpl.
    intros v k s y s' Hk.
    apply bind_ok in Hk as (a & s5 & _ & Hk).
    apply bind_ok in Hk as ([] & s6 & _ & Hk).
    apply bind_ok in Hk as (req & s7 & _ & [= <- _]). done. }
  destruct (obj_get (node_fields (schemas st3) schema) "additionalProperties")
    as [| |[]| | |]; simpl in Hrun.
  - destruct (_ && _ && _); injection Hrun as <- <-; split; try done.
    by rewrite app_nil_r.
  - apply bind_ok in Hrun as (a & s4 & Ha & [= <- <-]). by exists a.
  - destruct (_ && _ && _); injection Hrun as <- <-; split; try done.
    by rewrite app_nil_r.
  - by injection Hrun as <- <-.
  - apply bind_ok in Hrun as (a & s4 & Ha & [= <- <-]). by exists a.
  - apply bind_ok in Hrun as (a & s4 & Ha & [= <- <-]). by exists a.
  - apply bind_ok in Hrun as (a & s4 & Ha & [= <- <-]). by exists a.
Qed.

Lemma preserves_newInterface schema k kfd : preserves R (newInterface parse schema k kfd).
Proof.
  unfold newInterface.
  repeat first [ apply preserves_parseSchema | apply preserves_parseSuperTypes | pres_step ].
Qed.

Lemma preserves_parseNonLiteral schema ty k : preserves R (parseNonLiteral parse schema ty k).
Proof.
  unfold parseNonLiteral.
  apply preserves_bind; [apply preserves_get_schemas|]. intros h.
  apply preserves_bind; [apply preserves_getDefinitionsMemoized|]. intros definitions.
  apply preserves_bind; [apply preserves_field|]. intros description.
  apply preserves_bind; [apply preserves_field|]. intros dep.
  cbv zeta.
  destruct ty;
    repeat first [ apply preserves_newInterface | apply parse_preserves | pres_step ].
Qed.

Lemma preserves_parseAsTypeWithCache schema ty k :
  preserves R (parseAsTypeWithCache parse schema ty k).
Proof.
  intros st a st'. unfold parseAsTypeWithCache.
  destruct (cache_lookup (processed st) schema ty) eqn:Hc.
  - intros [= _ <-]. apply R_refl.
  - intros Hrun.
    apply bind_ok in Hrun as (a0 & st1 & [= <- <-] & Hrun).
    apply bind_ok in Hrun as ([] & st2 & [= <-] & Hrun).
    assert (Hrest : ∀ a0, preserves R
              (let* result := parseNonLiteral parse schema ty k in
               let* _ := update_ast a0 (fun target => Object_assign target result) in
               ret a0)).
    { intros a0. repeat first [ apply preserves_parseNonLiteral | pres_step ]. }
    pose proof (Hrest _ _ _ _ Hrun) as HR.
    eapply R_trans; [apply (R_asts st (asts st ++ [empty_ast]))|].
    eapply R_trans; [|exact HR].
    apply (R_cache (set_asts (asts st ++ [empty_ast]) st)). exact Hc.
Qed.

Lemma preserves_parse_body v k : preserves R (parse_body parse v k).
Proof.
  unfold parse_body.
  repeat first [ apply preserves_parseAsTypeWithCache | pres_step ].
Qed.

End Step.

(** Every run of [parse] respects the relation. *)
Lemma preserves_parse fuel : ∀ v k, preserves R (parse fuel v k).
Proof.
  induction fuel as [|n IH]; intros v k; simpl.
  - apply preserves_stuck.
  - by apply preserves_parse_body.
Qed.

End Preservation.

(** ** The Build Cache *)

Section Cache.
Import JS Parser.
Context {RT : JsRuntime} {U : Utils}.

Lemma cache_lookup_insert c schema ty a schema' ty' :
  cache_lookup (cache_insert c schema ty a) schema' ty' =
    if decide (schema = schema' ∧ ty = ty') then Some a else cache_lookup c schema' ty'.
Proof.
  unfold cache_lookup, cache_insert.
  destruct (decide (schema = schema')) as [<-|Hne].
  - rewrite lookup_insert_eq.
    destruct (decide (ty = ty')) as [<-|Hne].
    + rewrite lookup_insert_eq. by rewrite decide_True.
    + rewrite lookup_insert_ne by done. rewrite decide_False by (intros [? ?]; congruence).
      by destruct (c !! schema).
  - rewrite lookup_insert_ne by done. by rewrite decide_False by (intros [? ?]; congruence).
Qed.

Lemma cache_lookup_insert_eq c schema ty a :
  cache_lookup (cache_insert c schema ty a) schema ty = Some a.
Proof. rewrite cache_lookup_insert. by rewrite decide_True. Qed.

Lemma cache_le_refl st : cache_le st st.
Proof. by intros ? ? ?. Qed.

Lemma cache_le_trans a b c : cache_le a b → cache_le b c → cache_le a c.
Proof. intros H1 H2 ? ? ? ?. by apply H2, H1. Qed.

Lemma cache_le_insert st schema ty a :
  cache_lookup (processed st) schema ty = None →
  cache_le st (set_processed (cache_insert (processed st) schema ty a) st).
Proof.
  intros Hnone s t a0 Hs. simpl. rewrite cache_lookup_insert.
  destruct (decide _) as [[<- <-]|]; [congruence | exact Hs].
Qed.

(** No run of [parse] overwrites or drops an entry of the Build Cache. *)
Lemma parse_cache_le fuel v k : preserves cache_le (parse fuel v k).
Proof.
  apply preserves_parse;
    try (intros; apply cache_le_refl); try (intros; by intros ? ? ?).
  - apply cache_le_trans.
  - intros. by apply cache_le_insert.
Qed.

Lemma parseNonLiteral_cache_le fuel schema ty k :
  preserves cache_le (parseNonLiteral (parse fuel) schema ty k).
Proof.
  apply preserves_parseNonLiteral;
    try (intros; apply cache_le_refl); try (intros; by intros ? ? ?).
  - apply cache_le_trans.
  - intros. apply parse_cache_le.
Qed.

Lemma parseAsTypeWithCache_hit P schema ty k st a :
  cache_lookup (processed st) schema ty = Some a →
  parseAsTypeWithCache P schema ty k st = Ok (a, st).
Proof. intros Hc. unfold parseAsTypeWithCache. by rewrite Hc. Qed.

Lemma parseAsTypeWithCache_miss P schema ty k st :
  cache_lookup (processed st) schema ty = None →
  parseAsTypeWithCache P schema ty k st =
    (let* result := parseNonLiteral P schema ty k in
     let* _ := update_ast (length (asts st)) (fun target => Object_assign target result) in
     ret (length (asts st)))
      (set_processed (cache_insert (processed st) schema ty (length (asts st)))
         (set_asts (asts st ++ [empty_ast]) st)).
Proof. intros Hc. unfold parseAsTypeWithCache. by rewrite Hc. Qed.

(** What [parseAsTypeWithCache] returns is the instance the cache holds for
    the pair, the one it already held if there was one, in which case
    nothing is built. *)
Lemma parseAsTypeWithCache_cached fuel schema ty k st a st' :
  parseAsTypeWithCache (parse fuel) schema ty k st = Ok (a, st') →
  cache_lookup (processed st') schema ty = Some a
  ∧ cache_le st st'
  ∧ ∀ a0, cache_lookup (processed st) schema ty = Some a0 → a = a0 ∧ st' = st.
Proof.
  intros Hrun.
  destruct (cache_lookup (processed st) schema ty) as [a0|] eqn:Hc.
  - rewrite (parseAsTypeWithCache_hit _ _ _ _ _ _ Hc) in Hrun.
    injection Hrun as <- <-.
    split; [exact Hc|]. split; [apply cache_le_refl|]. by intros ? [= <-].
  - rewrite (parseAsTypeWithCache_miss _ _ _ _ _ Hc) in Hrun.
    apply bind_ok in Hrun as (result & st1 & Hbuild & Hrun).
    apply bind_ok in Hrun as ([] & st2 & [= <-] & [= <- <-]).
    apply parseNonLiteral_cache_le in Hbuild.
    assert (Hin : cache_lookup (processed st1) schema ty = Some (length (asts st))).
    { apply Hbuild. simpl. apply cache_lookup_insert_eq. }
    split; [exact Hin|]. split; [|by intros ? [=]].
    intros s t a0 Hs. simpl. apply Hbuild. simpl.
    rewrite cache_lookup_insert. destruct (decide _) as [[<- <-]|]; [congruence | exact Hs].
Qed.

End Cache.

(** ** Record members *)

Section Members.
Import JS Parser.
Context {RT : JsRuntime} {U : Utils}.

Lemma parse_keeps (I : heap → Prop) fuel v k :
  stable I → preserves (keeps I) (parse fuel v k).
Proof.
  intros (Halloc & Hhints & Hdefault).
  apply preserves_parse; unfold keeps; simpl; eauto.
Qed.

Lemma parseSchema_keeps (I : heap → Prop) fuel schema name st members st' :
  stable I → I (schemas st) →
  parseSchema (parse fuel) schema name st = Ok (members, st') →
  ∃ asts1 asts2 asts3 st1 st2 st3,
    I (schemas st1) ∧ I (schemas st2) ∧ I (schemas st3) ∧ I (schemas st')
    ∧ Forall2 (fun k m => paramKeyName m = k ∧ isPatternProperty m = false
                          ∧ isUnreachableDefinition m = false)
        (keys_of (schemas st) (obj_get (node_fields (schemas st) schema) "properties"))
        asts1
    ∧ (let pp := obj_get (node_fields (schemas st1) schema) "patternProperties" in
       let single :=
         truthy pp
         && negb (truthy (obj_get (node_fields (schemas st1) schema) "additionalProperties"))
         && (length (keys_of (schemas st1) pp) =? 1)%nat in
       Forall2 (fun k m => paramKeyName m = (if single then "[k: string]" else k)
                           ∧ isPatternProperty m = negb single
                           ∧ isUnreachableDefinition m = false
                           ∧ (single = true → isRequired m = true))
         (if truthy pp then keys_of (schemas st1) pp else []) asts2
       ∧ Forall2 (fun k m => paramKeyName m = k ∧ isPatternProperty m = false
                             ∧ isUnreachableDefinition m = true)
           (keys_of (schemas st2) (obj_get (node_fields (schemas st2) schema) "$defs"))
           asts3
       ∧ match obj_get (node_fields (schemas st3) schema) "additionalProperties" with
         | JUndef | JBool true =>
             st' = st3
             ∧ members = (asts1 ++ asts2 ++ asts3)
                         ++ (if single then [] else [catch_all T_ANY_ADDITIONAL_PROPERTIES])
         | JBool false => st' = st3 ∧ members = asts1 ++ asts2 ++ asts3
         | ap => ∃ a, parse fuel ap (Some "[k: string]") st3 = Ok (a, st')
                      ∧ members = (asts1 ++ asts2 ++ asts3) ++ [catch_all a]
         end).
Proof.
  intros Hst HI Hrun. pose proof Hst as (Halloc & Hhints & Hdefault).
  eapply (parseSchema_inv (keeps I)) in Hrun; unfold keeps; simpl; eauto.
  - destruct Hrun as (a1 & a2 & a3 & s1 & s2 & s3 & H1 & H2 & H3 & H4 & Hrest).
    exists a1, a2, a3, s1, s2, s3. unfold keeps in *.
    split; [eauto|]. split; [eauto|]. split; [eauto|]. split; [eauto|]. exact Hrest.
  - intros v k. by apply parse_keeps.
Qed.

Lemma member_is_catch_all m :
  paramKeyName m = "[k: string]" → isPatternProperty m = false →
  isUnreachableDefinition m = false → isRequired m = true →
  m = catch_all (ast m).
Proof. destruct m; simpl; intros -> -> -> ->; reflexivity. Qed.


(** C6, as amended: the member list of a record is the members of the
    declared properties, of the pattern properties and of the definitions,
    followed by what the [additionalProperties] switch adds.  For an absent
    value that is one required [any]-typed catch-all, unless the single
    pattern property already is the index member; for [true] it is that
    catch-all; for [false] nothing is added (a single pattern property may
    still be the record's index member); for any other value it is one
    required catch-all whose type is built from the value under the key
    [[k: string]]. *)
Theorem catch_all_member (I : heap → Prop) (fuel schema : nat) (name : option string)
    (st st' : BuildState) (members : list TInterfaceParam) (ap : jval) :
  stable I → I (schemas st) →
  (∀ h, I h → obj_get (node_fields h schema) "additionalProperties" = ap) →
  parseSchema (parse fuel) schema name st = Ok (members, st') →
  ∃ declared patterns definitions,
    Forall (fun m => isPatternProperty m = false ∧ isUnreachableDefinition m = false)
      declared
    ∧ Forall (fun m => isUnreachableDefinition m = false) patterns
    ∧ Forall (fun m => isPatternProperty m = false ∧ isUnreachableDefinition m = true)
        definitions
    ∧ match ap with
      | JUndef =>
          (Forall (fun m => isPatternProperty m = true) patterns
           ∧ members =
               (declared ++ patterns ++ definitions)
               ++ [ {| ast := T_ANY_ADDITIONAL_PROPERTIES; isPatternProperty := false;
                       isRequired := true; isUnreachableDefinition := false;
                       paramKeyName := "[k: string]" |} ])
          ∨ ((∃ a, patterns =
                     [ {| ast := a; isPatternProperty := false; isRequired := true;
                          isUnreachableDefinition := false;
                          paramKeyName := "[k: string]" |} ])
             ∧ members = declared ++ patterns ++ definitions)
      | JBool true =>
          Forall (fun m => isPatternProperty m = true) patterns
          ∧ members =
              (declared ++ patterns ++ definitions)
              ++ [ {| ast := T_ANY_ADDITIONAL_PROPERTIES; isPatternProperty := false;
                      isRequired := true; isUnreachableDefinition := false;
                      paramKeyName := "[k: string]" |} ]
      | JBool false => members = declared ++ patterns ++ definitions
      | _ =>
          ∃ a st3,
            parse fuel ap (Some "[k: string]") st3 = Ok (a, st')
            ∧ members =
                (declared ++ patterns ++ definitions)
                ++ [ {| ast := a; isPatternProperty := false; isRequired := true;
                        isUnreachableDefinition := false;
                        paramKeyName := "[k: string]" |} ]
      end.
Proof.
  intros Hst HI Hap Hrun.
  destruct (parseSchema_keeps I _ _ _ _ _ _ Hst HI Hrun)
    as (a1 & a2 & a3 & s1 & s2 & s3 & I1 & I2 & I3 & I4 & Hprops & Hrest).
  cbv zeta in Hrest.
  rewrite (Hap _ I1), (Hap _ I3) in Hrest.
  destruct Hrest as (Hpat & Hdefs & Hswitch).
  exists a1, a2, a3.
  split.
  { clear -Hprops. induction Hprops as [|k m ks ms (_ & Hp & Hu) _ IH]; constructor; auto. }
  split.
  { clear -Hpat. induction Hpat as [|k m ks ms (_ & _ & Hu & _) _ IH]; constructor; auto. }
  split.
  { clear -Hdefs. induction Hdefs as [|k m ks ms (_ & Hp & Hu) _ IH]; constructor; auto. }
  set (pp := obj_get (node_fields (schemas s1) schema) "patternProperties") in *.
  remember (truthy pp && negb (truthy ap) && (length (keys_of (schemas s1) pp) =? 1)%nat)
    as single eqn:Hsingle.
  assert (Hflag : single = false → Forall (fun m => isPatternProperty m = true) a2).
  { intros ->. clear -Hpat.
    induction Hpat as [|k m ks ms (_ & Hp & _) _ IH]; constructor; auto. }
  assert (Hindex : single = true →
            ∃ a, a2 = [ {| ast := a; isPatternProperty := false; isRequired := true;
                           isUnreachableDefinition := false;
                           paramKeyName := "[k: string]" |} ]).
  { intros ->. symmetry in Hsingle.
    apply andb_true_iff in Hsingle as [Hsingle Hone].
    apply andb_true_iff in Hsingle as [Htr _]. rewrite Htr in Hpat.
    apply Nat.eqb_eq in Hone.
    destruct (keys_of (schemas s1) pp) as [|k [|k' ks]]; try discriminate.
    apply Forall2_cons_inv_l in Hpat as (m & rest & (Hk & Hp & Hu & Hr) & Hnil & ->).
    apply Forall2_nil_inv_l in Hnil as ->.
    exists (ast m). f_equal. apply (member_is_catch_all m); auto. }
  destruct ap as [| |[]| | |].
  - (* absent *)
    destruct Hswitch as [_ ->]. destruct single.
    + right. split; [by apply Hindex | by rewrite app_nil_r].
    + left. split; [by apply Hflag | reflexivity].
  - destruct Hswitch as (a & Ha & ->). eauto.
  - (* true *)
    assert (single = false) as ->.
    { rewrite Hsingle. simpl. by rewrite andb_false_r. }
    destruct Hswitch as [_ ->]. split; [by apply Hflag | reflexivity].
  - by destruct Hswitch as [_ ->].
  - destruct Hswitch as (a & Ha & ->). eauto.
  - destruct Hswitch as (a & Ha & ->). eauto.
  - destruct Hswitch as (a & Ha & ->). eauto.
Qed.

End Members.

(** ** The [required] flag of members *)

Section Required.
Import JS Parser.
Context {RT : JsRuntime} {U : Utils}.

Lemma mapM_invariant {A B} (J : BuildState → Prop) (f : A → M B) (Q : A → B → Prop) l :
  (∀ x s y s', J s → f x s = Ok (y, s') → Q x y ∧ J s') →
  ∀ st ys st', J st → mapM f l st = Ok (ys, st') → Forall2 Q l ys ∧ J st'.
Proof.
  intros Hf. induction l as [|x l IH]; intros st ys st' HJ; simpl.
  - intros [= <- <-]. split; [constructor|done].
  - intros Hrun.
    apply bind_ok in Hrun as (y & s1 & Hy & Hrun).
    apply bind_ok in Hrun as (ys' & s2 & Hys & [= <- <-]).
    destruct (Hf _ _ _ _ HJ Hy) as [HQ HJ1].
    destruct (IH _ _ _ HJ1 Hys) as [HQs HJ2].
    split; [by constructor|done].
Qed.

Lemma lodash_map_invariant {A} (J : BuildState → Prop) c (f : jval → string → M A)
    (Q : string → A → Prop) st ys st' :
  (∀ v k s y s', J s → f v k s = Ok (y, s') → Q k y ∧ J s') →
  J st → lodash_map c f st = Ok (ys, st') →
  Forall2 Q (keys_of (schemas st) c) ys ∧ J st'.
Proof.
  intros Hf HJ Hrun. unfold lodash_map in Hrun.
  apply bind_ok in Hrun as (h & s1 & [= <- <-] & Hrun).
  eapply (mapM_invariant J); [|exact HJ|exact Hrun].
  intros k s y s' HJs Hk.
  apply bind_ok in Hk as (h' & s2 & [= <- <-] & Hk). eauto.
Qed.

Lemma Forall2_right {A B} (Q : B → Prop) (l : list A) (k : list B) :
  Forall2 (fun _ y => Q y) l k → Forall Q k.
Proof. induction 1; by constructor. Qed.

Lemma in_required_listed schema key st (req : list jval) r st' :
  array_elems (schemas st) (obj_get (node_fields (schemas st) schema) "required")
    = Some req →
  in_required schema key st = Ok (r, st') →
  r = includes req (JStr key) ∧ st' = st.
Proof.
  unfold in_required, bind, get_schemas, field, ret. intros Hreq [= <- <-].
  split; [|done].
  destruct (obj_get (node_fields (schemas st) schema) "required") as [| | | | |a];
    try discriminate.
  simpl in *. by destruct (schemas st !! a) as [[?|es]|]; simplify_eq.
Qed.

Lemma append_comment_schemas a c st x st' :
  append_comment a c st = Ok (x, st') → schemas st' = schemas st.
Proof.
  unfold append_comment, bind, get_schemas, update_ast. by intros [= _ <-].
Qed.

(** The [required] flag of the members of a record whose [required] is a
    list: a member made from a declared property, from a definition, or
    from a pattern property that keeps its pattern as key, is required
    exactly when its key is in the list; the index member is always
    required.  The members made from the declared properties come first, in
    the order of the keys. *)
Theorem members_are_required_when_listed (I : heap → Prop) (fuel schema : nat)
    (name : option string) (st st' : BuildState) (members : list TInterfaceParam)
    (req : list jval) :
  stable I → I (schemas st) →
  (∀ h, I h → array_elems h (obj_get (node_fields h schema) "required") = Some req) →
  parseSchema (parse fuel) schema name st = Ok (members, st') →
  ∃ declared others,
    members = declared ++ others
    ∧ Forall2 (fun k m => paramKeyName m = k ∧ isRequired m = includes req (JStr k))
        (keys_of (schemas st) (obj_get (node_fields (schemas st) schema) "properties"))
        declared
    ∧ Forall (fun m => isRequired m = includes req (JStr (paramKeyName m))
                       ∨ (paramKeyName m = "[k: string]" ∧ isRequired m = true))
        others.
Proof.
  intros Hst HI Hreq Hrun.
  set (J := fun s : BuildState => I (schemas s)).
  assert (Hparse : ∀ v k s a s', J s → parse fuel v k s = Ok (a, s') → J s').
  { intros v k s a s' HJ Hp. by apply (parse_keeps I fuel v k Hst s a s' Hp). }
  assert (Hflag : ∀ key s r s', J s → in_required schema key s = Ok (r, s') →
            r = includes req (JStr key) ∧ s' = s).
  { intros key s r s' HJ. apply in_required_listed. by apply Hreq. }
  unfold parseSchema in Hrun.
  apply bind_ok in Hrun as (properties & s0 & [= <- <-] & Hrun).
  apply bind_ok in Hrun as (asts1 & st1 & H1 & Hrun).
  apply bind_ok in Hrun as (pp & s1 & [= <- <-] & Hrun).
  apply bind_ok in Hrun as (h1 & s1 & [= <- <-] & Hrun).
  apply bind_ok in Hrun as (ap0 & s1 & [= <- <-] & Hrun).
  apply bind_ok in Hrun as (asts2 & st2 & H2 & Hrun).
  apply bind_ok in Hrun as (defs & s2 & [= <- <-] & Hrun).
  apply bind_ok in Hrun as (asts3 & st3 & H3 & Hrun).
  apply bind_ok in Hrun as (ap & s3 & [= <- <-] & Hrun).
  match type of Hrun with
  | context [if ?c then ret _ else _] => remember c as single eqn:Hsingle
  end.
  (* the declared properties *)
  eapply (lodash_map_invariant J _ _
            (fun k m => paramKeyName m = k ∧ isRequired m = includes req (JStr k)))
    in H1 as [Hdeclared HJ1]; [| |exact HI].
  2:{ intros v k s y s' HJs Hk.
      apply bind_ok in Hk as (a & s5 & Ha & Hk).
      apply bind_ok in Hk as (r & s6 & Hr & [= <- <-]).
      pose proof (Hparse _ _ _ _ _ HJs Ha) as HJ5.
      destruct (Hflag _ _ _ _ HJ5 Hr) as [-> ->]. done. }
  set (listed := fun m : TInterfaceParam =>
         isRequired m = includes req (JStr (paramKeyName m))
         ∨ (paramKeyName m = "[k: string]" ∧ isRequired m = true)).
  (* the pattern properties *)
  assert (H2' : Forall listed asts2 ∧ J st2).
  { destruct (truthy (obj_get (node_fields (schemas st1) schema) "patternProperties")).
    - eapply (lodash_map_invariant J _ _ (fun _ m => listed m)) in H2 as [Hp HJ2];
        [split; [by eapply Forall2_right|done]| |exact HJ1].
      intros v k s y s' HJs Hk.
      apply bind_ok in Hk as (a & s5 & Ha & Hk).
      apply bind_ok in Hk as ([] & s6 & Hc & Hk).
      apply bind_ok in Hk as (r & s7 & Hr & [= <- <-]).
      pose proof (Hparse _ _ _ _ _ HJs Ha) as HJ5.
      assert (HJ6 : J s6).
      { unfold J. by rewrite (append_comment_schemas _ _ _ _ _ Hc). }
      unfold listed. simpl.
      destruct single.
      + injection Hr as <- <-. split; [by right|done].
      + destruct (Hflag _ _ _ _ HJ6 Hr) as [-> ->]. split; [by left|done].
    - injection H2 as <- <-. split; [constructor|done]. }
  destruct H2' as [Hpatterns HJ2].
  (* the definitions *)
  eapply (lodash_map_invariant J _ _ (fun _ m => listed m)) in H3 as [Hdefs HJ3];
    [| |exact HJ2].
  2:{ intros v k s y s' HJs Hk.
      apply bind_ok in Hk as (a & s5 & Ha & Hk).
      apply bind_ok in Hk as ([] & s6 & Hc & Hk).
      apply bind_ok in Hk as (r & s7 & Hr & [= <- <-]).
      pose proof (Hparse _ _ _ _ _ HJs Ha) as HJ5.
      assert (HJ6 : J s6).
      { unfold J. by rewrite (append_comment_schemas _ _ _ _ _ Hc). }
      destruct (Hflag _ _ _ _ HJ6 Hr) as [-> ->].
      unfold listed. simpl. split; [by left|done]. }
  apply Forall2_right in Hdefs.
  assert (Hlast : ∀ a, listed (catch_all a)).
  { intros a. right. by split. }
  assert (Hmid : Forall listed (asts2 ++ asts3)) by by apply Forall_app.
  exists asts1.
  destruct (obj_get (node_fields (schemas st3) schema) "additionalProperties")
    as [| |[]| | |]; simpl in Hrun;
    try (apply bind_ok in Hrun as (a & s4 & Ha & [= <- <-]);
         exists ((asts2 ++ asts3) ++ [catch_all a]);
         split; [by rewrite <- !app_assoc|];
         split; [exact Hdeclared|];
         apply Forall_app; split; [exact Hmid|by constructor]).
  - destruct single; injection Hrun as <- <-.
    + by exists (asts2 ++ asts3).
    + exists ((asts2 ++ asts3) ++ [catch_all T_ANY_ADDITIONAL_PROPERTIES]).
      split; [by rewrite <- !app_assoc|]. split; [exact Hdeclared|].
      apply Forall_app. split; [exact Hmid|by constructor].
  - destruct single; injection Hrun as <- <-.
    + by exists (asts2 ++ asts3).
    + exists ((asts2 ++ asts3) ++ [catch_all T_ANY_ADDITIONAL_PROPERTIES]).
      split; [by rewrite <- !app_assoc|]. split; [exact Hdeclared|].
      apply Forall_app. split; [exact Hmid|by constructor].
  - injection Hrun as <- <-. by exists (asts2 ++ asts3).
Qed.

End Required.

(** ** No dangling AST identity *)

Section References.
Import JS Parser.
Context {RT : JsRuntime} {U : Utils}.

Lemma up_True : upclosed (fun _ => True).
Proof. by intros n n' _ _. Qed.

Lemma up_and (P Q : nat → Prop) :
  upclosed P → upclosed Q → upclosed (fun n => P n ∧ Q n).
Proof. intros HP HQ n n' Hle [Hp Hq]. split; [by eapply HP|by eapply HQ]. Qed.

Lemma up_lt (a : nat) : upclosed (fun n => a < n).
Proof. intros n n' Hle Ha. lia. Qed.

Lemma up_Forall {A} (Q : A → nat → Prop) (l : list A) :
  (∀ x, upclosed (Q x)) → upclosed (fun n => Forall (fun x => Q x n) l).
Proof.
  intros HQ n n' Hle Hl. eapply Forall_impl; [exact Hl|].
  intros x Hx. by eapply HQ.
Qed.

Lemma up_refs (r : AST) : upclosed (fun n => refs_below n r).
Proof. apply (up_Forall (fun a n => a < n)). intros a. apply up_lt. Qed.

Lemma up_const (φ : Prop) : upclosed (fun _ => φ).
Proof. by intros n n' _ H. Qed.

Lemma well_formed_grow pending st st' :
  well_formed pending st → processed st' = processed st →
  (∃ new, asts st' = asts st ++ new
          ∧ Forall (refs_below (length (asts st'))) new ∧ Forall filled new) →
  well_formed pending st'.
Proof.
  intros (Hlen & Hclosed & Hcache & Hany & Hfilled) Hp (new & Hasts & Hnew & Hfill).
  assert (Hle : length (asts st) ≤ length (asts st')).
  { rewrite Hasts, length_app. lia. }
  split; [lia|]. split; [|split; [|split; [exact Hany|]]].
  - rewrite Hasts at 2. apply Forall_app. split; [|exact Hnew].
    eapply Forall_impl; [exact Hclosed|].
    intros n Hn. by eapply up_refs.
  - intros schema ty a Ha. rewrite Hp in Ha. specialize (Hcache _ _ _ Ha). lia.
  - intros i n Hi Hpend. rewrite Hasts in Hi.
    apply lookup_app_Some in Hi as [Hi|[_ Hi]].
    + by eapply Hfilled.
    + by eapply (Forall_lookup_1 _ _ _ _ Hfill).
Qed.

Lemma valid_frame {A} pending Pre (m : M A) :
  (∀ st x st', m st = Ok (x, st') → asts st' = asts st ∧ processed st' = processed st) →
  valid_step pending Pre m (fun _ _ => True).
Proof.
  intros Hm st x st' Hwf _ Hrun. destruct (Hm _ _ _ Hrun) as [Ha Hp].
  split; [|rewrite Ha; split; [lia|done]].
  destruct Hwf as (Hlen & Hclosed & Hcache & Hany & Hfilled).
  split; [by rewrite Ha|]. split; [by rewrite Ha|]. split; [|split; [exact Hany|]].
  - intros schema ty a Hc. rewrite Hp in Hc. rewrite Ha. by eapply Hcache.
  - intros i n Hi. rewrite Ha in Hi. by eapply Hfilled.
Qed.

Lemma valid_bind {A B} pending Pre (m : M A) (k : A → M B) (Q1 : A → nat → Prop) Q2 :
  upclosed Pre →
  valid_step pending Pre m Q1 →
  (∀ x, valid_step pending (fun n => Pre n ∧ Q1 x n) (k x) Q2) →
  valid_step pending Pre (bind m k) Q2.
Proof.
  intros Hup Hm Hk st y st' Hwf Hpre Hrun.
  apply bind_ok in Hrun as (x & st1 & Hx & Hrun).
  destruct (Hm _ _ _ Hwf Hpre Hx) as (Hwf1 & Hle1 & Hq1).
  destruct (Hk x _ _ _ Hwf1 (conj (Hup _ _ Hle1 Hpre) Hq1) Hrun) as (Hwf2 & Hle2 & Hq2).
  split; [exact Hwf2|]. split; [lia|exact Hq2].
Qed.

Lemma valid_ret {A} pending Pre (a : A) (Q : A → nat → Prop) :
  (∀ len, 2 ≤ len → Pre len → Q a len) → valid_step pending Pre (ret a) Q.
Proof.
  intros HQ st x st' Hwf Hpre [= <- <-].
  split; [exact Hwf|]. split; [lia|]. apply HQ; [apply Hwf|exact Hpre].
Qed.

Lemma valid_throw {A} pending Pre e (Q : A → nat → Prop) :
  valid_step pending Pre (throw e) Q.
Proof. by intros st x st' _ _ [=]. Qed.

Lemma valid_stuck {A} pending Pre (Q : A → nat → Prop) :
  valid_step pending Pre (fun _ : BuildState => @OutOfFuel (A * BuildState)) Q.
Proof. by intros st x st' _ _ [=]. Qed.

Lemma valid_mapM {A B} pending Pre (f : A → M B) (Q : B → nat → Prop) l :
  upclosed Pre → (∀ y, upclosed (Q y)) →
  (∀ x, valid_step pending Pre (f x) Q) →
  valid_step pending Pre (mapM f l) (fun ys len => Forall (fun y => Q y len) ys).
Proof.
  intros Hup HQ Hf. induction l as [|x l IH]; simpl.
  - apply valid_ret. intros len _ _. constructor.
  - intros st ys st' Hwf Hpre Hrun.
    apply bind_ok in Hrun as (y & st1 & Hy & Hrun).
    apply bind_ok in Hrun as (ys' & st2 & Hys & [= <- <-]).
    destruct (Hf x _ _ _ Hwf Hpre Hy) as (Hwf1 & Hle1 & Hq1).
    destruct (IH _ _ _ Hwf1 (Hup _ _ Hle1 Hpre) Hys) as (Hwf2 & Hle2 & Hq2).
    split; [exact Hwf2|]. split; [lia|].
    constructor; [by eapply HQ|exact Hq2].
Qed.

Lemma valid_array_map {A} pending Pre arr (f : jval → nat → M A) (Q : A → nat → Prop) :
  upclosed Pre → (∀ y, upclosed (Q y)) →
  (∀ v i, valid_step pending Pre (f v i) Q) →
  valid_step pending Pre (array_map arr f) (fun ys len => Forall (fun y => Q y len) ys).
Proof.
  intros Hup HQ Hf st ys st' Hwf Hpre Hrun. unfold array_map in Hrun.
  apply bind_ok in Hrun as (h & s1 & [= <- <-] & Hrun).
  destruct (array_elems (schemas st) arr) as [es|]; [|discriminate].
  refine (valid_mapM pending Pre _ Q _ Hup HQ _ _ _ _ Hwf Hpre Hrun).
  intros i s y s' Hwfs Hpres Hi.
  apply bind_ok in Hi as (h' & s2 & [= <- <-] & Hi).
  by eapply Hf.
Qed.

Lemma valid_lodash_map {A} pending Pre c (f : jval → string → M A)
    (Q : A → nat → Prop) :
  upclosed Pre → (∀ y, upclosed (Q y)) →
  (∀ v k, valid_step pending Pre (f v k) Q) →
  valid_step pending Pre (lodash_map c f) (fun ys len => Forall (fun y => Q y len) ys).
Proof.
  intros Hup HQ Hf st ys st' Hwf Hpre Hrun. unfold lodash_map in Hrun.
  apply bind_ok in Hrun as (h & s1 & [= <- <-] & Hrun).
  refine (valid_mapM pending Pre _ Q _ Hup HQ _ _ _ _ Hwf Hpre Hrun).
  intros k s y s' Hwfs Hpres Hk.
  apply bind_ok in Hk as (h' & s2 & [= <- <-] & Hk).
  by eapply Hf.
Qed.

(** The shared constant is allocated and filled. *)
Lemma valid_get_T_ANY pending Pre :
  valid_step pending Pre (get_ast T_ANY) (fun n len => refs_below len n ∧ filled n).
Proof.
  intros st x st' Hwf _ [= <- <-].
  split; [exact Hwf|]. split; [lia|].
  destruct Hwf as (Hlen & Hclosed & _ & Hany & Hfilled).
  destruct (lookup_lt_is_Some_2 (asts st) T_ANY) as [n Hn]; [unfold T_ANY; lia|].
  rewrite Hn. simpl. split.
  - by eapply (Forall_lookup_1 _ _ _ _ Hclosed).
  - by eapply Hfilled.
Qed.

Lemma valid_new_ast pending Pre n :
  filled n →
  (∀ len, 2 ≤ len → Pre len → refs_below len n) →
  valid_step pending Pre (new_ast n) (fun a len => a < len).
Proof.
  intros Hfill Hn st x st' Hwf Hpre [= <- <-]. simpl.
  rewrite length_app. simpl. split; [|lia].
  apply (well_formed_grow pending st); [exact Hwf|reflexivity|].
  exists [n]. split; [reflexivity|]. split; [|by constructor].
  constructor; [|constructor].
  simpl. rewrite length_app. simpl.
  eapply up_refs; [|apply Hn; [apply Hwf|exact Hpre]]. lia.
Qed.

Lemma valid_update_ast pending Pre a f :
  (∀ n, filled n → filled (f n)) →
  (∀ n len, 2 ≤ len → Pre len → refs_below len n → refs_below len (f n)) →
  valid_step pending Pre (update_ast a f) (fun _ _ => True).
Proof.
  intros Hfill Hf st x st' Hwf Hpre [= <- <-]. simpl.
  destruct (asts st !! a) as [n|] eqn:Hn;
    [|split; [by destruct st|split; [lia|done]]].
  rewrite length_insert. split; [|split; [lia|done]].
  destruct Hwf as (Hlen & Hclosed & Hcache & Hany & Hfilled).
  split; [by simpl; rewrite length_insert|]. split; [|split; [|split; [exact Hany|]]].
  - simpl. rewrite length_insert. apply Forall_insert; [exact Hclosed|].
    apply Hf; [exact Hlen|exact Hpre|].
    by eapply (Forall_lookup_1 _ _ _ _ Hclosed).
  - intros schema ty b Hb. simpl in *. rewrite length_insert. by eapply Hcache.
  - intros i m Hi Hpend. simpl in Hi.
    destruct (decide (a = i)) as [<-|Hne].
    + rewrite list_lookup_insert_eq in Hi by (by eapply lookup_lt_Some).
      injection Hi as <-. apply Hfill. by eapply Hfilled.
    + rewrite list_lookup_insert_ne in Hi by done. by eapply Hfilled.
Qed.

Lemma valid_cache_set pending Pre schema ty a :
  (∀ len, Pre len → a < len) →
  valid_step pending Pre (cache_set schema ty a) (fun _ _ => True).
Proof.
  intros Ha st x st' Hwf Hpre [= <- <-]. simpl. split; [|split; [lia|done]].
  destruct Hwf as (Hlen & Hclosed & Hcache & Hany & Hfilled).
  split; [exact Hlen|]. split; [exact Hclosed|]. split; [|split; [exact Hany|exact Hfilled]].
  intros schema' ty' b Hb. simpl in *.
  rewrite cache_lookup_insert in Hb.
  destruct (decide _); [injection Hb as <-; by apply Ha|by eapply Hcache].
Qed.

Lemma valid_field pending Pre schema k :
  valid_step pending Pre (field schema k) (fun _ _ => True).
Proof. apply valid_frame. by intros st x st' [= _ <-]. Qed.

Lemma valid_get_schemas pending Pre : valid_step pending Pre get_schemas (fun _ _ => True).
Proof. apply valid_frame. by intros st x st' [= _ <-]. Qed.

Lemma valid_new_schema pending Pre o :
  valid_step pending Pre (new_schema o) (fun _ _ => True).
Proof. apply valid_frame. by intros st x st' [= _ <-]. Qed.

Lemma valid_strip_with pending Pre f l :
  valid_step pending Pre (strip_with f l) (fun _ _ => True).
Proof. apply valid_frame. by intros st x st' [= _ <-]. Qed.

Lemma valid_getDefinitionsMemoized pending Pre root :
  valid_step pending Pre (getDefinitionsMemoized root) (fun _ _ => True).
Proof.
  apply valid_frame. intros st x st'. unfold getDefinitionsMemoized.
  by destruct (definitionsCache st !! root); intros [= _ <-].
Qed.

Lemma valid_standaloneName pending Pre schema kfd :
  valid_step pending Pre (standaloneName schema kfd) (fun _ _ => True).
Proof.
  apply valid_frame. intros st x st'. unfold standaloneName, bind, field, ret.
  by destruct (truthy _); intros [= _ <-].
Qed.

Lemma valid_in_required pending Pre schema k :
  valid_step pending Pre (in_required schema k) (fun _ _ => True).
Proof. apply valid_frame. by intros st x st' [= _ <-]. Qed.

Lemma valid_required_flag pending Pre (single : bool) schema k :
  valid_step pending Pre (if single then ret true else in_required schema k)
    (fun _ _ => True).
Proof. apply valid_frame. by destruct single; intros st x st' [= _ <-]. Qed.

Lemma valid_append_comment pending Pre a c :
  valid_step pending Pre (append_comment a c) (fun _ _ => True).
Proof.
  intros st x st' Hwf Hpre Hrun. unfold append_comment in Hrun.
  apply bind_ok in Hrun as (h & s1 & [= <- <-] & Hrun).
  refine (valid_update_ast pending Pre a _ _ _ _ _ _ Hwf Hpre Hrun).
  - by intros n Hn.
  - by intros n len _ _ Hn.
Qed.

Lemma valid_parseLiteral pending Pre v k :
  valid_step pending Pre (parseLiteral v k) (fun a len => a < len).
Proof. apply valid_new_ast; [discriminate|]. intros len _ _. constructor. Qed.

Lemma valid_parseBooleanSchema pending Pre b k :
  valid_step pending Pre (parseBooleanSchema b k) (fun a len => a < len).
Proof. apply valid_new_ast; [discriminate|]. intros len _ _. constructor. Qed.

Lemma Forall_repeat_lt (a len k : nat) : a < len → Forall (fun x => x < len) (repeat a k).
Proof. intros Ha. induction k; simpl; by constructor. Qed.

Ltac up_solve :=
  cbv beta;
  repeat first
    [ assumption
    | apply up_True
    | apply up_lt
    | apply up_refs
    | apply up_and
    | (apply up_Forall; intros ?; cbv beta)
    | apply up_const ].

Ltac refs_solve :=
  cbv beta;
  repeat match goal with H : _ ∧ _ |- _ => destruct H end;
  try match goal with
      | |- _ ∧ filled _ =>
          split;
          [|unfold filled in *; cbn [ast_type node tuple] in *;
            first [assumption | discriminate]]
      end;
  unfold refs_below, ast_refs, catch_all, T_ANY, T_ANY_ADDITIONAL_PROPERTIES in *;
  cbn [ast_params ast_superTypes ast_spreadParam node tuple ast enumAst app] in *;
  repeat match goal with
         | |- context [if ?c then _ else _] => destruct c
         end;
  cbn [ast_params ast_superTypes ast_spreadParam node tuple ast enumAst app] in *;
  repeat first
    [ assumption
    | lia
    | exact I
    | apply Forall_nil
    | (apply Forall_app; split)
    | match goal with
      | |- Forall _ (_ :: _) => constructor; cbn [ast enumAst]
      end
    | apply Forall_map
    | (apply Forall_repeat_lt; lia) ].

Section Step.
Variable parse : jval → option string → M nat.
Hypothesis parse_valid :
  ∀ pending Pre v k, valid_step pending Pre (parse v k) (fun a len => a < len).

Ltac valid_auto :=
  lazymatch goal with
  | |- valid_step _ _ (bind _ _) _ =>
      eapply valid_bind; [up_solve | valid_auto | intros ?; valid_auto]
  | |- valid_step _ _ (ret _) _ =>
      apply valid_ret; intros ? ? ?; refs_solve
  | |- valid_step _ _ (throw _) _ => apply valid_throw
  | |- valid_step _ _ (fun _ => OutOfFuel) _ => apply valid_stuck
  | |- valid_step _ _ get_schemas _ => apply valid_get_schemas
  | |- valid_step _ _ (field _ _) _ => apply valid_field
  | |- valid_step _ _ (get_ast T_ANY) _ => apply valid_get_T_ANY
  | |- valid_step _ _ (new_schema _) _ => apply valid_new_schema
  | |- valid_step _ _ (strip_with _ _) _ => apply valid_strip_with
  | |- valid_step _ _ (getDefinitionsMemoized _) _ => apply valid_getDefinitionsMemoized
  | |- valid_step _ _ (standaloneName _ _) _ => apply valid_standaloneName
  | |- valid_step _ _ (in_required _ _) _ => apply valid_in_required
  | |- valid_step _ _ (if _ then ret true else in_required _ _) _ =>
      apply valid_required_flag
  | |- valid_step _ _ (append_comment _ _) _ => apply valid_append_comment
  | |- valid_step _ _ (parseLiteral _ _) _ => apply valid_parseLiteral
  | |- valid_step _ _ (parseBooleanSchema _ _) _ => apply valid_parseBooleanSchema
  | |- valid_step _ _ (parse _ _) _ => apply parse_valid
  | |- valid_step _ _ (array_map _ _) _ =>
      eapply valid_array_map; [ | | intros ? ?; valid_auto];
      [up_solve | intros ?; up_solve]
  | |- valid_step _ _ (lodash_map _ _) _ =>
      eapply valid_lodash_map; [ | | intros ? ?; valid_auto];
      [up_solve | intros ?; up_solve]
  | |- valid_step _ _ (mapM _ _) _ =>
      eapply valid_mapM; [ | | intros ?; valid_auto];
      [up_solve | intros ?; up_solve]
  | |- valid_step _ _ (if ?b then _ else _) _ => destruct b; valid_auto
  | |- valid_step _ _ (match ?x with _ => _ end) _ => destruct x; valid_auto
  end.

Lemma valid_parseSuperTypes pending Pre schema :
  upclosed Pre →
  valid_step pending Pre (parseSuperTypes parse schema)
    (fun supers len => Forall (fun a => a < len) supers).
Proof. intros Hup. unfold parseSuperTypes. valid_auto. Qed.

Lemma valid_parseSchema pending Pre schema name :
  upclosed Pre →
  valid_step pending Pre (parseSchema parse schema name)
    (fun members len => Forall (fun m => ast m < len) members).
Proof.
  intros Hup. unfold parseSchema.
  eapply valid_bind; [up_solve|valid_auto|intros properties].
  eapply (valid_bind _ _ _ _ (fun ms len => Forall (fun m => ast m < len) ms));
    [up_solve| |intros asts1].
  { apply (valid_lodash_map _ _ _ _ (fun m len => ast m < len));
      [up_solve|intros ?; up_solve|intros v k; valid_auto]. }
  eapply valid_bind; [up_solve|valid_auto|intros pp].
  eapply valid_bind; [up_solve|valid_auto|intros h].
  eapply valid_bind; [up_solve|valid_auto|intros ap0].
  cbv zeta.
  eapply (valid_bind _ _ _ _ (fun ms len => Forall (fun m => ast m < len) ms));
    [up_solve| |intros asts2].
  { destruct (truthy pp); [|valid_auto].
    apply (valid_lodash_map _ _ _ _ (fun m len => ast m < len));
      [up_solve|intros ?; up_solve|intros v k; valid_auto]. }
  eapply valid_bind; [up_solve|valid_auto|intros defs].
  eapply (valid_bind _ _ _ _ (fun ms len => Forall (fun m => ast m < len) ms));
    [up_solve| |intros asts3].
  { apply (valid_lodash_map _ _ _ _ (fun m len => ast m < len));
      [up_solve|intros ?; up_solve|intros v k; valid_auto]. }
  valid_auto.
Qed.

Lemma valid_newInterface pending Pre schema k kfd :
  upclosed Pre →
  valid_step pending Pre (newInterface parse schema k kfd)
    (fun r len => refs_below len r ∧ filled r).
Proof.
  intros Hup. unfold newInterface.
  eapply valid_bind; [up_solve|valid_auto|intros name].
  eapply valid_bind; [up_solve|valid_auto|intros description].
  eapply valid_bind; [up_solve|valid_auto|intros dep].
  eapply valid_bind; [up_solve|apply valid_parseSchema; up_solve|intros members].
  eapply valid_bind; [up_solve|apply valid_parseSuperTypes; up_solve|intros supers].
  apply valid_ret. intros len Hlen Hpre.
  repeat match goal with H : _ ∧ _ |- _ => destruct H end.
  split; [|discriminate].
  unfold refs_below, ast_refs. simpl. rewrite app_nil_r.
  apply Forall_app. split; [by apply Forall_map|assumption].
Qed.

Lemma valid_parseNonLiteral pending Pre schema ty k :
  upclosed Pre →
  valid_step pending Pre (parseNonLiteral parse schema ty k)
    (fun r len => refs_below len r ∧ filled r).
Proof.
  intros Hup. unfold parseNonLiteral.
  eapply valid_bind; [up_solve|valid_auto|intros h].
  eapply valid_bind; [up_solve|valid_auto|intros definitions].
  eapply valid_bind; [up_solve|valid_auto|intros description].
  eapply valid_bind; [up_solve|valid_auto|intros dep].
  cbv zeta. destruct ty.
  - valid_auto.
  - (* ANY *)
    eapply valid_bind; [up_solve|valid_auto|intros any].
    eapply valid_bind; [up_solve|valid_auto|intros sn].
    apply valid_ret. intros len Hlen Hpre.
    repeat match goal with H : _ ∧ _ |- _ => destruct H end.
    split; assumption.
  - valid_auto.
  - valid_auto.
  - valid_auto.
  - (* NAMED_ENUM *)
    eapply valid_bind; [up_solve|valid_auto|intros enum].
    destruct (negb (isArray h enum)); [valid_auto|].
    eapply (valid_bind _ _ _ _ (fun es len => Forall (fun e => enumAst e < len) es));
      [up_solve| |intros entries; valid_auto].
    apply (valid_array_map _ _ _ _ (fun e len => enumAst e < len));
      [up_solve|intros ?; up_solve|intros v n; valid_auto].
  - apply valid_newInterface; up_solve.
  - valid_auto.
  - valid_auto.
  - valid_auto.
  - valid_auto.
  - valid_auto.
  - valid_auto.
  - valid_auto.
  - (* TYPED_ARRAY *)
    eapply valid_bind; [up_solve|valid_auto|intros items].
    destruct (isArray h items); [|valid_auto].
    eapply valid_bind; [up_solve|valid_auto|intros mn].
    eapply valid_bind; [up_solve|valid_auto|intros mx].
    eapply valid_bind; [up_solve|valid_auto|intros sn].
    eapply valid_bind; [up_solve|valid_auto|intros ps].
    eapply valid_bind; [up_solve|valid_auto|intros additionalItems].
    eapply (valid_bind _ _ _ _
              (fun sp len => match sp with Some a => a < len | None => True end));
      [up_solve| |intros sp].
    + destruct (strict_eq additionalItems (JBool true)).
      * apply valid_ret. intros len Hlen _. unfold T_ANY. lia.
      * destruct (truthy additionalItems); [|by apply valid_ret].
        eapply valid_bind; [up_solve|valid_auto|intros a].
        apply valid_ret. by intros len _ [_ Ha].
    + apply valid_ret. intros len Hlen Hpre.
      repeat match goal with H : _ ∧ _ |- _ => destruct H end.
      split; [|discriminate].
      unfold refs_below, ast_refs. simpl.
      apply Forall_app. split; [assumption|].
      destruct sp; [by constructor|constructor].
  - valid_auto.
  - valid_auto.
  - apply valid_newInterface; up_solve.
  - valid_auto.
Qed.

(** After a miss the placeholder is pending while the node is built, and
    filled when [parseNonLiteral] has returned. *)
Lemma valid_parseAsTypeWithCache pending Pre schema ty k :
  upclosed Pre →
  valid_step pending Pre (parseAsTypeWithCache parse schema ty k) (fun a len => a < len).
Proof.
  intros Hup st a st' Hwf Hpre. unfold parseAsTypeWithCache.
  destruct (cache_lookup (processed st) schema ty) as [cached|] eqn:Hc.
  { intros [= <- <-]. split; [exact Hwf|]. split; [lia|].
    destruct Hwf as (_ & _ & Hcache & _). by eapply Hcache. }
  intros Hrun.
  apply bind_ok in Hrun as (a0 & s1 & [= <- <-] & Hrun).
  apply bind_ok in Hrun as ([] & s2 & [= <-] & Hrun).
  apply bind_ok in Hrun as (result & st2 & Hresult & Hrun).
  apply bind_ok in Hrun as ([] & s3 & Hfill & [= <- <-]).
  set (a0 := length (asts st)) in *.
  set (st1 := set_processed (cache_insert (processed st) schema ty a0)
                (set_asts (asts st ++ [empty_ast]) st)) in *.
  destruct Hwf as (Hlen & Hclosed & Hcache & Hany & Hfilled).
  assert (Hwf1 : well_formed (fun i => pending i ∨ i = a0) st1).
  { split; [simpl; rewrite length_app; simpl; lia|].
    split; [|split; [|split]].
    - simpl. rewrite length_app. simpl. apply Forall_app. split.
      + eapply Forall_impl; [exact Hclosed|].
        intros n Hn. eapply up_refs; [|exact Hn]. lia.
      + constructor; [constructor|constructor].
    - intros schema' ty' b Hb. simpl in *. rewrite length_app. simpl.
      rewrite cache_lookup_insert in Hb.
      destruct (decide _); [injection Hb as <-; unfold a0; lia|].
      specialize (Hcache _ _ _ Hb). lia.
    - intros [Hp|Hp]; [by apply Hany|]. unfold T_ANY, a0 in Hp. lia.
    - intros i n Hi Hpend. simpl in Hi.
      apply lookup_app_Some in Hi as [Hi|[Hge Hi]].
      + eapply Hfilled; [exact Hi|]. intros Hp. apply Hpend. by left.
      + destruct (i - length (asts st)) as [|j] eqn:Hj; [|by destruct j].
        exfalso. apply Hpend. right. unfold a0. lia. }
  destruct (valid_parseNonLiteral (fun i => pending i ∨ i = a0)
              (fun n => Pre n ∧ a0 < n) schema ty k
              ltac:(apply up_and; [exact Hup|apply up_lt]) st1 result st2 Hwf1)
    as (Hwf2 & Hle2 & Hrefs & Hres); [|exact Hresult|].
  { split.
    - eapply Hup; [|exact Hpre]. simpl. rewrite length_app. lia.
    - simpl. rewrite length_app. simpl. unfold a0. lia. }
  assert (Hlt : a0 < length (asts st2)).
  { simpl in Hle2. rewrite length_app in Hle2. simpl in Hle2. unfold a0. lia. }
  destruct (lookup_lt_is_Some_2 (asts st2) a0 Hlt) as [n0 Hn0].
  unfold update_ast in Hfill. rewrite Hn0 in Hfill. injection Hfill as <-.
  unfold Object_assign. simpl. rewrite length_insert.
  destruct Hwf2 as (Hlen2 & Hclosed2 & Hcache2 & Hany2 & Hfilled2).
  split; [|split; [simpl in Hle2; rewrite length_app in Hle2; simpl in Hle2; lia
                  |exact Hlt]].
  split; [by simpl; rewrite length_insert|].
  split; [|split; [|split; [exact Hany|]]].
  - simpl. rewrite length_insert. by apply Forall_insert.
  - intros schema' ty' b Hb. simpl in *. rewrite length_insert. by eapply Hcache2.
  - intros i n Hi Hpend. simpl in Hi.
    destruct (decide (a0 = i)) as [<-|Hne].
    + rewrite list_lookup_insert_eq in Hi by exact Hlt. by injection Hi as <-.
    + rewrite list_lookup_insert_ne in Hi by done.
      eapply Hfilled2; [exact Hi|]. intros [Hp|Hp]; [by apply Hpend|congruence].
Qed.

Lemma set_params_refs n ps len :
  Forall (fun a => a < len) ps → refs_below len n →
  refs_below len (set_params n (ParamList ps)).
Proof.
  unfold refs_below, ast_refs. simpl. intros Hps Hn.
  apply Forall_app in Hn as [_ Hn]. by apply Forall_app.
Qed.

Lemma valid_intersection pending Pre l k (types : list SchemaType) :
  upclosed Pre →
  valid_step pending Pre
    (let* id := field l "$id" in
     let* allOf := new_schema (HArr []) in
     let* description := field l "description" in
     let* title := field l "title" in
     let* wrapper :=
       new_schema (HObj [("$id", id); ("allOf", JRef allOf);
                         ("description", description); ("title", title)]) in
     let* a := parseAsTypeWithCache parse wrapper ALL_OF k in
     let* ps :=
       mapM (fun t =>
               let* s := strip_with maybeStripNameHints l in
               parseAsTypeWithCache parse s t k) types in
     let* _ := update_ast a (fun n => set_params n (ParamList ps)) in
     ret a)
    (fun a len => a < len).
Proof.
  intros Hup.
  eapply valid_bind; [up_solve|valid_auto|intros id].
  eapply valid_bind; [up_solve|valid_auto|intros allOf].
  eapply valid_bind; [up_solve|valid_auto|intros description].
  eapply valid_bind; [up_solve|valid_auto|intros title].
  eapply valid_bind; [up_solve|valid_auto|intros wrapper].
  eapply valid_bind; [up_solve|apply valid_parseAsTypeWithCache; up_solve|intros a].
  eapply (valid_bind _ _ _ _ (fun ps len => Forall (fun a => a < len) ps));
    [up_solve| |intros ps].
  { apply (valid_mapM _ _ _ (fun a len => a < len));
      [up_solve|intros ?; up_solve|intros ty].
    eapply valid_bind; [up_solve|valid_auto|intros s].
    apply valid_parseAsTypeWithCache; up_solve. }
  eapply valid_bind; [up_solve| |intros []].
  { apply valid_update_ast; [by intros n Hn|]. intros n len _ Hp Hn.
    apply set_params_refs; [apply Hp|exact Hn]. }
  apply valid_ret. intros len _ Hp. tauto.
Qed.

Lemma valid_parse_body pending Pre v k :
  upclosed Pre →
  valid_step pending Pre (parse_body parse v k) (fun a len => a < len).
Proof.
  intros Hup. unfold parse_body.
  eapply valid_bind; [up_solve|valid_auto|intros h].
  destruct (isPrimitive h v); [valid_auto|].
  destruct v as [| | | | |l]; try valid_auto.
  destruct (typesOfSchema h l) as [|t [|t' types]].
  - apply valid_intersection; up_solve.
  - apply valid_parseAsTypeWithCache; up_solve.
  - apply valid_intersection; up_solve.
Qed.

End Step.

Lemma valid_weaken {A} pending Pre (m : M A) Q :
  valid_step pending (fun _ => True) m Q → valid_step pending Pre m Q.
Proof. intros Hm st x st' Hwf _ Hrun. by eapply Hm. Qed.

Lemma valid_parse fuel :
  ∀ pending Pre v k, valid_step pending Pre (parse fuel v k) (fun a len => a < len).
Proof.
  induction fuel as [|n IH]; intros pending Pre v k; simpl.
  - apply valid_stuck.
  - apply valid_weaken. apply valid_parse_body; [exact IH|apply up_True].
Qed.

Lemma initial_well_formed h memo : well_formed (fun _ => False) (initial h memo).
Proof.
  split; [simpl; lia|]. split; [repeat constructor|]. split; [|split; [tauto|]].
  - intros schema ty a. unfold cache_lookup. simpl. by rewrite lookup_empty.
  - intros [|[|i]] n; simpl; try discriminate; intros [= <-] _; discriminate.
Qed.

(** A build that starts with no placeholder pending ends with none: every
    AST object of the store is filled (it has a type), the empty object
    registered in the Build Cache to break cycles included.  Every AST
    object and every entry of the Build Cache refers to allocated AST
    objects only, no AST object is removed, and the identity [parse] returns
    is allocated. *)
Theorem build_fills_every_placeholder (fuel : nat) (v : jval) (k : option string)
    (st st' : BuildState) (a : nat) :
  well_formed (fun _ => False) st →
  parse fuel v k st = Ok (a, st') →
  well_formed (fun _ => False) st'
  ∧ Forall filled (asts st')
  ∧ length (asts st) ≤ length (asts st')
  ∧ a < length (asts st').
Proof.
  intros Hwf Hrun.
  destruct (valid_parse fuel (fun _ => False) (fun _ => True) v k st a st' Hwf I Hrun)
    as (Hwf' & Hle & Ha).
  split; [exact Hwf'|]. split; [|by split].
  destruct Hwf' as (_ & _ & _ & _ & Hfilled).
  apply Forall_lookup_2. intros i n Hi. eapply Hfilled; [exact Hi|tauto].
Qed.

End References.

(** ** Runs and budgets *)

Section Budget.
Import JS Parser.
Context {RT : JsRuntime} {U : Utils}.

Lemma refines_refl {A} (m : M A) : refines m m.
Proof. by intros st r. Qed.

Lemma refines_bind {A B} (m m' : M A) (k k' : A → M B) :
  refines m m' → (∀ x, refines (k x) (k' x)) → refines (bind m k) (bind m' k').
Proof.
  intros Hm Hk st r Hrun.
  apply bind_ok in Hrun as (x & st1 & H1 & H2).
  unfold bind. rewrite (Hm _ _ H1). by apply Hk.
Qed.

Lemma refines_mapM {A B} (f f' : A → M B) l :
  (∀ x, refines (f x) (f' x)) → refines (mapM f l) (mapM f' l).
Proof.
  intros Hf. induction l as [|x l IH]; simpl; [apply refines_refl|].
  apply refines_bind; [apply Hf|]. intros y.
  apply refines_bind; [apply IH|]. intros ys. apply refines_refl.
Qed.

Lemma refines_array_map {A} arr (f f' : jval → nat → M A) :
  (∀ v i, refines (f v i) (f' v i)) → refines (array_map arr f) (array_map arr f').
Proof.
  intros Hf. unfold array_map.
  apply refines_bind; [apply refines_refl|]. intros h.
  destruct (array_elems h arr); [|apply refines_refl].
  apply refines_mapM. intros i.
  apply refines_bind; [apply refines_refl|]. intros h'. apply Hf.
Qed.

Lemma refines_lodash_map {A} c (f f' : jval → string → M A) :
  (∀ v k, refines (f v k) (f' v k)) → refines (lodash_map c f) (lodash_map c f').
Proof.
  intros Hf. unfold lodash_map.
  apply refines_bind; [apply refines_refl|]. intros h.
  apply refines_mapM. intros k.
  apply refines_bind; [apply refines_refl|]. intros h'. apply Hf.
Qed.

Ltac ref_step :=
  match goal with
  | |- refines ?m ?m => apply refines_refl
  | |- refines (bind _ _) (bind _ _) => apply refines_bind; [|intros ?]
  | |- refines (array_map _ _) (array_map _ _) => apply refines_array_map; intros ? ?
  | |- refines (lodash_map _ _) (lodash_map _ _) => apply refines_lodash_map; intros ? ?
  | |- refines (mapM _ _) (mapM _ _) => apply refines_mapM; intros ?
  | |- refines (if ?b then _ else _) (if ?b then _ else _) => destruct b
  | |- refines (match ?x with _ => _ end) (match ?x with _ => _ end) => destruct x
  end.

Section Step.
Variables P Q : jval → option string → M nat.
Hypothesis PQ : ∀ v k, refines (P v k) (Q v k).

Lemma refines_parseSuperTypes schema :
  refines (parseSuperTypes P schema) (parseSuperTypes Q schema).
Proof. unfold parseSuperTypes. repeat first [apply PQ | ref_step]. Qed.

Lemma refines_parseSchema schema name :
  refines (parseSchema P schema name) (parseSchema Q schema name).
Proof. unfold parseSchema. repeat first [apply PQ | ref_step]. Qed.

Lemma refines_newInterface schema k kfd :
  refines (newInterface P schema k kfd) (newInterface Q schema k kfd).
Proof.
  unfold newInterface.
  repeat first [ apply refines_parseSchema | apply refines_parseSuperTypes | ref_step ].
Qed.

Lemma refines_parseNonLiteral schema ty k :
  refines (parseNonLiteral P schema ty k) (parseNonLiteral Q schema ty k).
Proof.
  unfold parseNonLiteral.
  apply refines_bind; [apply refines_refl|]. intros h.
  apply refines_bind; [apply refines_refl|]. intros definitions.
  apply refines_bind; [apply refines_refl|]. intros description.
  apply refines_bind; [apply refines_refl|]. intros dep.
  cbv zeta.
  destruct ty; repeat first [ apply refines_newInterface | apply PQ | ref_step ].
Qed.

Lemma refines_parseAsTypeWithCache schema ty k :
  refines (parseAsTypeWithCache P schema ty k) (parseAsTypeWithCache Q schema ty k).
Proof.
  intros st r. unfold parseAsTypeWithCache.
  destruct (cache_lookup (processed st) schema ty); [done|].
  assert (Hchain : refines
    (let* a := new_ast empty_ast in
     let* _ := cache_set schema ty a in
     let* result := parseNonLiteral P schema ty k in
     let* _ := update_ast a (fun target => Object_assign target result) in ret a)
    (let* a := new_ast empty_ast in
     let* _ := cache_set schema ty a in
     let* result := parseNonLiteral Q schema ty k in
     let* _ := update_ast a (fun target => Object_assign target result) in ret a)).
  { repeat first [ apply refines_parseNonLiteral | ref_step ]. }
  apply Hchain.
Qed.

Lemma refines_parse_body v k : refines (parse_body P v k) (parse_body Q v k).
Proof.
  unfold parse_body.
  repeat first [ apply refines_parseAsTypeWithCache | ref_step ].
Qed.

End Step.

(** A larger budget reaches every result a smaller one reaches. *)
Lemma parse_fuel_S fuel : ∀ v k, refines (parse fuel v k) (parse (S fuel) v k).
Proof.
  induction fuel as [|n IH]; intros v k.
  - intros st r [=].
  - change (refines (parse_body (parse n) v k) (parse_body (parse (S n)) v k)).
    by apply refines_parse_body.
Qed.

Lemma parse_fuel_le fuel fuel' v k :
  fuel ≤ fuel' → refines (parse fuel v k) (parse fuel' v k).
Proof.
  induction 1 as [|m Hle IH]; [apply refines_refl|].
  intros st r Hrun. by apply parse_fuel_S, IH.
Qed.

(** Two runs that both finish agree on the AST they return and on the state
    they leave, generated names and stores included. *)
Lemma parse_deterministic fuel1 fuel2 v k st r1 r2 :
  parse fuel1 v k st = Ok r1 → parse fuel2 v k st = Ok r2 → r1 = r2.
Proof.
  intros H1 H2.
  apply (parse_fuel_le fuel1 (fuel1 `max` fuel2)) in H1; [|lia].
  apply (parse_fuel_le fuel2 (fuel1 `max` fuel2)) in H2; [|lia].
  congruence.
Qed.

End Budget.

(** ** Evaluation, one step at a time *)

Lemma bind_eval {A B} (m : Parser.M A) (k : A → Parser.M B) st x st1 :
  m st = JS.Ok (x, st1) → Parser.bind m k st = k x st1.
Proof. intros Hm. unfold Parser.bind. by rewrite Hm. Qed.

Lemma field_eval schema k st :
  Parser.field schema k st =
    JS.Ok (JS.obj_get (JS.node_fields (Parser.schemas st) schema) k, st).
Proof. reflexivity. Qed.

(** The first computation of a [bind] is run with the given fact and the
    continuation takes over. *)
Ltac run_with H := rewrite (bind_eval _ _ _ _ _ H); cbv beta.
Ltac run_field := rewrite (bind_eval _ _ _ _ _ (field_eval _ _ _)); cbv beta.

(** ** Shared and self-referential nodes *)

Section Sharing.
Import JS Parser.
Context {RT : JsRuntime} {U : Utils}.

Lemma parse_single fuel l fs t k st :
  schemas st !! l = Some (HObj fs) → typesOfSchema (schemas st) l = [t] →
  parse (S fuel) (JRef l) k st = parseAsTypeWithCache (parse fuel) l t k st.
Proof.
  intros Hl Ht. simpl. unfold parse_body, bind, get_schemas.
  unfold isPrimitive, isPlainObject. rewrite Hl. simpl. by rewrite Ht.
Qed.

(** A node that is in the cache is not built again: a further request
    returns the cached instance and leaves the state as it is. *)
Lemma parse_again fuel l fs t k st a :
  schemas st !! l = Some (HObj fs) → typesOfSchema (schemas st) l = [t] →
  cache_lookup (processed st) l t = Some a →
  parse (S fuel) (JRef l) k st = Ok (a, st).
Proof.
  intros Hl Ht Hc. erewrite parse_single by eauto.
  by apply parseAsTypeWithCache_hit.
Qed.

Lemma getDefinitionsMemoized_shape root st :
  ∃ d m, getDefinitionsMemoized root st = Ok (d, set_definitionsCache m st).
Proof.
  unfold getDefinitionsMemoized. destruct (definitionsCache st !! root) as [d|].
  - exists d, (definitionsCache st). by destruct st.
  - by eexists _, _.
Qed.

Lemma standaloneName_shape schema kfd st :
  ∃ n u, standaloneName schema kfd st = Ok (n, set_usedNames u st).
Proof.
  unfold standaloneName, bind, field.
  destruct (truthy _).
  - by eexists _, _.
  - exists None, (usedNames st). by destruct st.
Qed.

Lemma lodash_map_eval {A} c (f : jval → string → M A) st :
  lodash_map c f st =
    mapM (fun k => let* h' := get_schemas in f (prop_of h' c k) k)
         (keys_of (schemas st) c) st.
Proof. reflexivity. Qed.

Lemma mapM_nil_eval {A B} (f : A → M B) st : mapM f [] st = Ok ([], st).
Proof. reflexivity. Qed.

Lemma mapM_cons_eval {A B} (f : A → M B) x xs st y st1 ys st2 :
  f x st = Ok (y, st1) → mapM f xs st1 = Ok (ys, st2) →
  mapM f (x :: xs) st = Ok (y :: ys, st2).
Proof.
  intros Hx Hxs. simpl. rewrite (bind_eval _ _ _ _ _ Hx).
  by rewrite (bind_eval _ _ _ _ _ Hxs).
Qed.

Lemma in_required_eval schema key st :
  ∃ req, in_required schema key st = Ok (req, st).
Proof. by eexists. Qed.

Lemma parseSchema_self_reference P st r k name a :
  self_referential_record (schemas st) r k →
  P (JRef r) (Some k) st = Ok (a, st) →
  ∃ req tail,
    parseSchema P r name st =
      Ok ({| ast := a; isPatternProperty := false; isRequired := req;
             isUnreachableDefinition := false; paramKeyName := k |} :: tail, st).
Proof.
  intros (fs & p & Hr & Hprops & Hp & Hpat & Hdefs & Hap & Hext) HP.
  assert (Hfs : node_fields (schemas st) r = fs) by (unfold node_fields; by rewrite Hr).
  destruct (in_required_eval r k st) as [req Hreq].
  exists req.
  assert (H1 : lodash_map (JRef p)
                 (fun value key =>
                    let* a := P value (Some key) in
                    let* req := in_required r key in
                    ret {| ast := a; isPatternProperty := false; isRequired := req;
                           isUnreachableDefinition := false; paramKeyName := key |}) st
               = Ok ([ {| ast := a; isPatternProperty := false; isRequired := req;
                          isUnreachableDefinition := false; paramKeyName := k |} ], st)).
  { rewrite lodash_map_eval. unfold keys_of. rewrite Hp. simpl map.
    eapply mapM_cons_eval; [|apply mapM_nil_eval].
    unfold bind at 1, get_schemas at 1. unfold prop_of, node_fields. rewrite Hp.
    simpl obj_get. rewrite eqb_refl_true.
    run_with HP. run_with Hreq. reflexivity. }
  unfold parseSchema.
  run_field. rewrite Hfs, Hprops. run_with H1.
  run_field. rewrite Hfs.
  rewrite (bind_eval _ _ st (schemas st) st) by reflexivity. cbv beta.
  run_field. rewrite Hfs. rewrite Hpat. cbn [andb].
  rewrite (bind_eval _ _ st [] st) by reflexivity. cbv beta.
  run_field. rewrite Hfs.
  assert (H3 : ∀ f : jval → string → M TInterfaceParam,
            lodash_map (obj_get fs "$defs") f st = Ok ([], st)).
  { intros f. rewrite lodash_map_eval. rewrite Hdefs. reflexivity. }
  rewrite (bind_eval _ _ _ _ _ (H3 _)). cbv beta.
  run_field. rewrite Hfs.
  destruct Hap as [-> | [-> | ->]]; by eexists.
Qed.

Lemma parseSuperTypes_none P schema st :
  truthy (obj_get (node_fields (schemas st) schema) "extends") = false →
  parseSuperTypes P schema st = Ok ([], st).
Proof. intros Hext. unfold parseSuperTypes. run_field. by rewrite Hext. Qed.

(** The record node of a self-referential record, once its placeholder is
    in the cache: the member built for the property is the placeholder
    itself. *)
Lemma newInterface_self_reference fuel st r k t key kfd a fs :
  self_referential_record (schemas st) r k →
  schemas st !! r = Some (HObj fs) →
  typesOfSchema (schemas st) r = [t] →
  cache_lookup (processed st) r t = Some a →
  ∃ u name req tail,
    newInterface (parse (S fuel)) r key kfd st =
      Ok ({| ast_type := Some A_INTERFACE;
             ast_comment := obj_get fs "description";
             ast_deprecated := obj_get fs "deprecated";
             ast_keyName := key; ast_standaloneName := name;
             ast_params :=
               ParamMembers
                 ({| ast := a; isPatternProperty := false; isRequired := req;
                     isUnreachableDefinition := false; paramKeyName := k |} :: tail);
             ast_superTypes := []; ast_maxItems := JUndef; ast_minItems := JUndef;
             ast_spreadParam := None |},
          set_usedNames u st).
Proof.
  intros Hself Hr Ht Hc.
  destruct (standaloneName_shape r kfd st) as (name & u & Hname).
  set (st1 := set_usedNames u st).
  assert (Hagain : parse (S fuel) (JRef r) (Some k) st1 = Ok (a, st1)).
  { eapply parse_again; eauto. }
  destruct (parseSchema_self_reference (parse (S fuel)) st1 r k name a Hself Hagain)
    as (req & tail & Hmembers).
  exists u, name, req, tail.
  unfold newInterface. run_with Hname. fold st1.
  run_field. run_field. run_with Hmembers.
  assert (Hsupers : parseSuperTypes (parse (S fuel)) r st1 = Ok ([], st1)).
  { apply parseSuperTypes_none.
    destruct Hself as (fs0 & p & Hr0 & _ & _ & _ & _ & _ & Hext).
    unfold node_fields. simpl. by rewrite Hr0. }
  run_with Hsupers.
  unfold node_fields. simpl. by rewrite Hr.
Qed.

(** Building a self-referential record ends, within a budget of two, and
    the AST of the member is the AST of the record itself. *)
Lemma self_reference_build h r k t key memo fuel :
  self_referential_record h r k →
  typesOfSchema h r = [t] → t = UNNAMED_SCHEMA ∨ t = NAMED_SCHEMA →
  ∃ st' record req tail,
    parse (S (S fuel)) (JRef r) key (initial h memo) = Ok (2, st')
    ∧ asts st' !! 2 = Some record
    ∧ ast_type record = Some A_INTERFACE
    ∧ ast_params record =
        ParamMembers
          ({| ast := 2; isPatternProperty := false; isRequired := req;
              isUnreachableDefinition := false; paramKeyName := k |} :: tail)
    ∧ cache_lookup (processed st') r t = Some 2.
Proof.
  intros Hself Ht Hcat.
  pose proof Hself as (fs & p & Hr & _).
  set (st0 := initial h memo).
  set (st1 := set_processed (cache_insert (processed st0) r t 2)
                (set_asts (asts st0 ++ [empty_ast]) st0)).
  destruct (getDefinitionsMemoized_shape (getRootSchema h r) st1) as (d & m & Hd).
  set (st2 := set_definitionsCache m st1) in *.
  assert (Hc2 : cache_lookup (processed st2) r t = Some 2).
  { simpl. apply cache_lookup_insert_eq. }
  assert (Hbuild : ∀ kfd, ∃ u name req tail,
            newInterface (parse (S fuel)) r key kfd st2 =
              Ok ({| ast_type := Some A_INTERFACE;
                     ast_comment := obj_get fs "description";
                     ast_deprecated := obj_get fs "deprecated";
                     ast_keyName := key; ast_standaloneName := name;
                     ast_params :=
                       ParamMembers
                         ({| ast := 2; isPatternProperty := false; isRequired := req;
                             isUnreachableDefinition := false; paramKeyName := k |}
                          :: tail);
                     ast_superTypes := []; ast_maxItems := JUndef;
                     ast_minItems := JUndef; ast_spreadParam := None |},
                  set_usedNames u st2)).
  { intros kfd. eapply newInterface_self_reference; eauto. }
  assert (Hnode : ∃ u record req tail,
            parseNonLiteral (parse (S fuel)) r t key st1 = Ok (record, set_usedNames u st2)
            ∧ ast_type record = Some A_INTERFACE
            ∧ ast_params record =
                ParamMembers
                  ({| ast := 2; isPatternProperty := false; isRequired := req;
                      isUnreachableDefinition := false; paramKeyName := k |} :: tail)).
  { unfold parseNonLiteral.
    rewrite (bind_eval _ _ st1 h st1) by reflexivity. cbv beta.
    run_with Hd. run_field. run_field. cbv zeta.
    destruct Hcat as [-> | ->].
    - destruct (Hbuild (findKey d (JRef r))) as (u & name & req & tail & ->).
      by eexists u, _, req, tail.
    - destruct (Hbuild None) as (u & name & req & tail & ->).
      by eexists u, _, req, tail. }
  destruct Hnode as (u & record & req & tail & Hnode & Hty & Hparams).
  exists (set_asts (<[2 := record]> (asts (set_usedNames u st2))) (set_usedNames u st2)),
    record, req, tail.
  split.
  { erewrite parse_single by (simpl; eauto).
    rewrite parseAsTypeWithCache_miss by reflexivity.
    change (length (asts (initial h memo))) with 2. fold st0. fold st1.
    run_with Hnode. reflexivity. }
  split; [reflexivity|]. split; [exact Hty|]. split; [exact Hparams|].
  simpl. apply cache_lookup_insert_eq.
Qed.

(** Building a node of a scalar category: one new AST object, cached
    under the node and its category; the objects and cache entries that
    were there stay as they are. *)
Lemma scalar_build fuel st s fs ts a_ty k :
  schemas st !! s = Some (HObj fs) → typesOfSchema (schemas st) s = [ts] →
  scalar_tag ts = Some a_ty → cache_lookup (processed st) s ts = None →
  ∃ st' shared,
    parse (S fuel) (JRef s) k st = Ok (length (asts st), st')
    ∧ schemas st' = schemas st
    ∧ asts st' = asts st ++ [shared]
    ∧ ast_type shared = Some a_ty
    ∧ processed st' = cache_insert (processed st) s ts (length (asts st)).
Proof.
  intros Hs Ht Htag Hc.
  set (st1 := set_processed (cache_insert (processed st) s ts (length (asts st)))
                (set_asts (asts st ++ [empty_ast]) st)).
  destruct (getDefinitionsMemoized_shape (getRootSchema (schemas st) s) st1) as (d & m & Hd).
  set (st2 := set_definitionsCache m st1) in *.
  destruct (standaloneName_shape s (findKey d (JRef s)) st2) as (name & u & Hname).
  set (st3 := set_usedNames u st2) in *.
  assert (Hnode : parseNonLiteral (parse fuel) s ts k st1 =
            Ok (node (obj_get fs "description") (obj_get fs "deprecated") k name
                  NoParams a_ty, st3)).
  { unfold parseNonLiteral.
    rewrite (bind_eval _ _ st1 (schemas st) st1) by reflexivity. cbv beta.
    run_with Hd. run_field. run_field. cbv zeta.
    assert (Hfs : node_fields (schemas st2) s = fs).
    { unfold node_fields. simpl. by rewrite Hs. }
    rewrite Hfs.
    destruct ts; simpl in Htag; try discriminate; injection Htag as <-;
      run_with Hname; reflexivity. }
  eexists _, _. split.
  { erewrite parse_single by eauto.
    rewrite parseAsTypeWithCache_miss by exact Hc. fold st1.
    run_with Hnode.
    rewrite (bind_eval _ _ st3 tt
               (set_asts (<[length (asts st) := node (obj_get fs "description")
                                                (obj_get fs "deprecated") k name
                                                NoParams a_ty]> (asts st3)) st3)).
    - reflexivity.
    - unfold update_ast. simpl.
      by rewrite lookup_app_r, Nat.sub_diag by lia. }
  simpl. split; [reflexivity|]. split.
  { rewrite insert_app_r_alt by lia. by rewrite Nat.sub_diag. }
  split; reflexivity.
Qed.

(** The members of a diamond: the second property finds the instance the
    first one put into the cache. *)
Lemma parseSchema_diamond fuel st r s k1 k2 ts a_ty name :
  diamond_record (schemas st) r s k1 k2 →
  typesOfSchema (schemas st) s = [ts] → scalar_tag ts = Some a_ty →
  cache_lookup (processed st) s ts = None →
  ∃ st' shared req1 req2 tail,
    parseSchema (parse (S fuel)) r name st =
      Ok ({| ast := length (asts st); isPatternProperty := false; isRequired := req1;
             isUnreachableDefinition := false; paramKeyName := k1 |}
          :: {| ast := length (asts st); isPatternProperty := false; isRequired := req2;
                isUnreachableDefinition := false; paramKeyName := k2 |}
          :: tail, st')
    ∧ schemas st' = schemas st
    ∧ asts st' = asts st ++ [shared]
    ∧ ast_type shared = Some a_ty
    ∧ processed st' = cache_insert (processed st) s ts (length (asts st)).
Proof.
  intros (fs & p & fs' & Hr & Hprops & Hp & Hne & Hs & Hpat & Hdefs & Hap & Hext) Ht Htag Hc.
  destruct (scalar_build fuel st s fs' ts a_ty (Some k1) Hs Ht Htag Hc)
    as (st1 & shared & Hfirst & Hsch & Hasts & Hty & Hproc).
  assert (Hsecond : parse (S fuel) (JRef s) (Some k2) st1 = Ok (length (asts st), st1)).
  { eapply parse_again.
    - rewrite Hsch. exact Hs.
    - rewrite Hsch. exact Ht.
    - rewrite Hproc. apply cache_lookup_insert_eq. }
  assert (Hfs : node_fields (schemas st) r = fs) by (unfold node_fields; by rewrite Hr).
  assert (Hfs1 : node_fields (schemas st1) r = fs) by (by rewrite Hsch).
  destruct (in_required_eval r k1 st1) as [req1 Hreq1].
  destruct (in_required_eval r k2 st1) as [req2 Hreq2].
  exists st1, shared, req1, req2.
  assert (H1 : lodash_map (JRef p)
                 (fun value key =>
                    let* a := parse (S fuel) value (Some key) in
                    let* req := in_required r key in
                    ret {| ast := a; isPatternProperty := false; isRequired := req;
                           isUnreachableDefinition := false; paramKeyName := key |}) st
               = Ok ([ {| ast := length (asts st); isPatternProperty := false;
                          isRequired := req1; isUnreachableDefinition := false;
                          paramKeyName := k1 |};
                       {| ast := length (asts st); isPatternProperty := false;
                          isRequired := req2; isUnreachableDefinition := false;
                          paramKeyName := k2 |} ], st1)).
  { rewrite lodash_map_eval. unfold keys_of. rewrite Hp. simpl map.
    eapply mapM_cons_eval; [|eapply mapM_cons_eval; [|apply mapM_nil_eval]].
    - unfold bind at 1, get_schemas at 1. unfold prop_of, node_fields. rewrite Hp.
      simpl obj_get. rewrite eqb_refl_true.
      run_with Hfirst. run_with Hreq1. reflexivity.
    - unfold bind at 1, get_schemas at 1. unfold prop_of, node_fields.
      rewrite Hsch, Hp. simpl obj_get.
      rewrite (eqb_ne k2 k1) by congruence. rewrite eqb_refl_true.
      run_with Hsecond. run_with Hreq2. reflexivity. }
  assert (Htail : ∃ tail,
            parseSchema (parse (S fuel)) r name st =
              Ok ({| ast := length (asts st); isPatternProperty := false;
                     isRequired := req1; isUnreachableDefinition := false;
                     paramKeyName := k1 |}
                  :: {| ast := length (asts st); isPatternProperty := false;
                        isRequired := req2; isUnreachableDefinition := false;
                        paramKeyName := k2 |}
                  :: tail, st1)).
  { unfold parseSchema.
    run_field. rewrite Hfs, Hprops. run_with H1.
    run_field. rewrite Hfs1.
    rewrite (bind_eval _ _ st1 (schemas st1) st1) by reflexivity. cbv beta.
    run_field. rewrite Hfs1. rewrite Hpat. cbn [andb].
    rewrite (bind_eval _ _ st1 [] st1) by reflexivity. cbv beta.
    run_field. rewrite Hfs1.
    assert (H3 : ∀ f : jval → string → M TInterfaceParam,
              lodash_map (obj_get fs "$defs") f st1 = Ok ([], st1)).
    { intros f. rewrite lodash_map_eval. rewrite Hsch, Hdefs. reflexivity. }
    rewrite (bind_eval _ _ _ _ _ (H3 _)). cbv beta.
    run_field. rewrite Hfs1.
    destruct Hap as [-> | [-> | ->]]; by eexists. }
  destruct Htail as (tail & Htail). exists tail. auto.
Qed.

(** Building a diamond ends, within a budget of two, and both members hold
    the one AST instance built for the shared node. *)
Lemma diamond_build h r s k1 k2 t ts a_ty key memo fuel :
  diamond_record h r s k1 k2 →
  typesOfSchema h r = [t] → t = UNNAMED_SCHEMA ∨ t = NAMED_SCHEMA →
  typesOfSchema h s = [ts] → scalar_tag ts = Some a_ty →
  ∃ st' record shared req1 req2 tail,
    parse (S (S fuel)) (JRef r) key (initial h memo) = Ok (2, st')
    ∧ asts st' !! 2 = Some record
    ∧ ast_params record =
        ParamMembers
          ({| ast := 3; isPatternProperty := false; isRequired := req1;
              isUnreachableDefinition := false; paramKeyName := k1 |}
           :: {| ast := 3; isPatternProperty := false; isRequired := req2;
                 isUnreachableDefinition := false; paramKeyName := k2 |}
           :: tail)
    ∧ asts st' !! 3 = Some shared
    ∧ ast_type shared = Some a_ty
    ∧ cache_lookup (processed st') s ts = Some 3.
Proof.
  intros Hdia Ht Hcat Hts Htag.
  pose proof Hdia as (fs & p & fs' & Hr & _ & _ & _ & Hs & _ & _ & _ & Hext).
  assert (Hrs : ¬ (r = s ∧ t = ts)).
  { intros [_ ->]. destruct Hcat as [-> | ->]; discriminate. }
  set (st0 := initial h memo).
  set (st1 := set_processed (cache_insert (processed st0) r t 2)
                (set_asts (asts st0 ++ [empty_ast]) st0)).
  destruct (getDefinitionsMemoized_shape (getRootSchema h r) st1) as (d & m & Hd).
  set (st2 := set_definitionsCache m st1) in *.
  assert (Hbuild : ∀ kfd, ∃ stN record shared req1 req2 tail,
            newInterface (parse (S fuel)) r key kfd st2 = Ok (record, stN)
            ∧ ast_params record =
                ParamMembers
                  ({| ast := 3; isPatternProperty := false; isRequired := req1;
                      isUnreachableDefinition := false; paramKeyName := k1 |}
                   :: {| ast := 3; isPatternProperty := false; isRequired := req2;
                         isUnreachableDefinition := false; paramKeyName := k2 |}
                   :: tail)
            ∧ asts stN = asts st2 ++ [shared]
            ∧ ast_type shared = Some a_ty
            ∧ processed stN = cache_insert (processed st2) s ts 3).
  { intros kfd.
    destruct (standaloneName_shape r kfd st2) as (name & u & Hname).
    set (st3 := set_usedNames u st2) in *.
    destruct (parseSchema_diamond fuel st3 r s k1 k2 ts a_ty name)
      as (stN & shared & req1 & req2 & tail & Hmembers & Hsch & Hasts & Hty & Hproc);
      try done.
    { simpl. rewrite cache_lookup_insert.
      rewrite decide_False by exact Hrs. reflexivity. }
    assert (Hsupers : parseSuperTypes (parse (S fuel)) r stN = Ok ([], stN)).
    { apply parseSuperTypes_none. rewrite Hsch. unfold node_fields. simpl.
      by rewrite Hr. }
    eexists stN, _, shared, req1, req2, tail. split.
    { unfold newInterface. run_with Hname. fold st3.
      run_field. run_field. run_with Hmembers. run_with Hsupers. reflexivity. }
    simpl. split; [reflexivity|]. split; [exact Hasts|]. split; [exact Hty|].
    exact Hproc. }
  assert (Hnode : ∃ stN record shared req1 req2 tail,
            parseNonLiteral (parse (S fuel)) r t key st1 = Ok (record, stN)
            ∧ ast_params record =
                ParamMembers
                  ({| ast := 3; isPatternProperty := false; isRequired := req1;
                      isUnreachableDefinition := false; paramKeyName := k1 |}
                   :: {| ast := 3; isPatternProperty := false; isRequired := req2;
                         isUnreachableDefinition := false; paramKeyName := k2 |}
                   :: tail)
            ∧ asts stN = asts st2 ++ [shared]
            ∧ ast_type shared = Some a_ty
            ∧ processed stN = cache_insert (processed st2) s ts 3).
  { assert (Hunfold : ∀ kfd,
              (t = UNNAMED_SCHEMA → kfd = findKey d (JRef r)) → (t = NAMED_SCHEMA → kfd = None) →
              parseNonLiteral (parse (S fuel)) r t key st1 =
                newInterface (parse (S fuel)) r key kfd st2).
    { intros kfd H1 H2. unfold parseNonLiteral.
      rewrite (bind_eval _ _ st1 h st1) by reflexivity. cbv beta.
      run_with Hd. run_field. run_field. cbv zeta.
      destruct Hcat as [-> | ->]; [by rewrite H1 | by rewrite H2]. }
    destruct Hcat as [-> | ->].
    - rewrite (Hunfold (findKey d (JRef r))) by (done || discriminate). apply Hbuild.
    - rewrite (Hunfold None) by (done || discriminate). apply Hbuild. }
  destruct Hnode as (stN & record & shared & req1 & req2 & tail
                     & Hnode & Hparams & Hasts & Hty & Hproc).
  exists (set_asts (<[2 := record]> (asts stN)) stN), record, shared, req1, req2, tail.
  split.
  { erewrite parse_single by (simpl; eauto).
    rewrite parseAsTypeWithCache_miss by reflexivity.
    change (length (asts (initial h memo))) with 2. fold st0. fold st1.
    run_with Hnode.
    rewrite (bind_eval _ _ stN tt (set_asts (<[2 := record]> (asts stN)) stN)).
    - reflexivity.
    - unfold update_ast. by rewrite Hasts. }
  simpl. rewrite Hasts. simpl.
  split; [reflexivity|]. split; [exact Hparams|]. split; [reflexivity|].
  split; [exact Hty|]. rewrite Hproc. apply cache_lookup_insert_eq.
Qed.

End Sharing.

(** ** Standalone names *)

Section Names.
Import JS Parser.
Context {RT : JsRuntime} {U : Utils}.

Lemma hoare_bind {A B} Pre (Mid : A → BuildState → Prop) Post (m : M A) (k : A → M B) :
  hoare Pre m Mid → (∀ x, hoare (Mid x) (k x) Post) → hoare Pre (bind m k) Post.
Proof.
  intros Hm Hk st b st' HPre Hrun.
  apply bind_ok in Hrun as (x & st1 & H1 & H2).
  eapply Hk; [|exact H2]. eapply Hm; eauto.
Qed.

Lemma hoare_ret {A} (Pre : BuildState → Prop) (Post : A → BuildState → Prop) a :
  (∀ st, Pre st → Post a st) → hoare Pre (ret a) Post.
Proof. intros HP st x st' HPre [= <- <-]. by apply HP. Qed.

Lemma hoare_throw {A} Pre (Post : A → BuildState → Prop) e : hoare Pre (throw e) Post.
Proof. intros st x st' _ [=]. Qed.

Lemma hoare_stuck {A} Pre (Post : A → BuildState → Prop) :
  hoare Pre (fun _ : BuildState => @OutOfFuel (A * BuildState)) Post.
Proof. intros st x st' _ [=]. Qed.

(** Whatever comes first, a fact that does not depend on the state holds
    at the end if the continuation establishes it. *)
Lemma hoare_bind_any {A B} (φ : Prop) (Post : B → BuildState → Prop)
    (m : M A) (k : A → M B) :
  (∀ x, hoare (fun _ => φ) (k x) Post) → hoare (fun _ => φ) (bind m k) Post.
Proof.
  intros Hk. apply (hoare_bind _ (fun _ _ => φ)); [|exact Hk].
  by intros st a st' Hφ _.
Qed.

(** A computation that leaves the schema store alone keeps what holds of
    the schema store. *)
Lemma hoare_same_schemas {A} (h : heap) (m : M A) :
  preserves same_schemas m →
  hoare (fun st => schemas st = h) m (fun _ st => schemas st = h).
Proof. intros Hm st a st' <- Hrun. by apply (Hm _ _ _ Hrun). Qed.

Lemma same_schemas_refl st : same_schemas st st.
Proof. reflexivity. Qed.

Lemma same_schemas_trans a b c : same_schemas a b → same_schemas b c → same_schemas a c.
Proof. unfold same_schemas. congruence. Qed.

Lemma same_schemas_field schema k : preserves same_schemas (field schema k).
Proof. apply preserves_field, same_schemas_refl. Qed.

Lemma same_schemas_get_schemas : preserves same_schemas get_schemas.
Proof. apply preserves_get_schemas, same_schemas_refl. Qed.

Lemma same_schemas_get_ast a : preserves same_schemas (get_ast a).
Proof. apply preserves_get_ast, same_schemas_refl. Qed.

Lemma same_schemas_parseLiteral v k : preserves same_schemas (parseLiteral v k).
Proof. apply preserves_new_ast. by intros st l. Qed.

Lemma same_schemas_memo root : preserves same_schemas (getDefinitionsMemoized root).
Proof.
  apply preserves_getDefinitionsMemoized; [apply same_schemas_refl|]. by intros st m.
Qed.

Lemma same_schemas_standaloneName schema kfd :
  preserves same_schemas (standaloneName schema kfd).
Proof.
  apply preserves_standaloneName;
    [apply same_schemas_refl | apply same_schemas_trans | by intros st u].
Qed.

(** With no [title], no [$id] and no key, the node gets no name and the
    Used-Names Set is left alone. *)
Lemma standaloneName_anonymous (h : heap) schema :
  truthy (obj_get (node_fields h schema) "title") = false →
  truthy (obj_get (node_fields h schema) "$id") = false →
  hoare (fun st => schemas st = h) (standaloneName schema None)
        (fun n st => n = None ∧ schemas st = h).
Proof.
  intros Htitle Hid st n st' Hh. unfold standaloneName.
  rewrite (bind_eval _ _ _ _ _ (field_eval _ _ _)).
  rewrite (bind_eval _ _ _ _ _ (field_eval _ _ _)).
  rewrite Hh. unfold js_or. rewrite Htitle, Hid. simpl.
  by intros [= <- <-].
Qed.

Lemma standaloneName_empty_key (h : heap) schema :
  truthy (obj_get (node_fields h schema) "title") = false →
  truthy (obj_get (node_fields h schema) "$id") = false →
  hoare (fun st => schemas st = h) (standaloneName schema (Some ""))
        (fun n st => n = None ∧ schemas st = h).
Proof.
  intros Htitle Hid st n st' Hh. unfold standaloneName.
  rewrite (bind_eval _ _ _ _ _ (field_eval _ _ _)).
  rewrite (bind_eval _ _ _ _ _ (field_eval _ _ _)).
  rewrite Hh. unfold js_or. rewrite Htitle, Hid. simpl.
  by intros [= <- <-].
Qed.

(** With no [title] and no [$id], a non-empty key is what the name is
    generated from. *)
Lemma standaloneName_from_key (h : heap) schema k :
  truthy (obj_get (node_fields h schema) "title") = false →
  truthy (obj_get (node_fields h schema) "$id") = false →
  k ≠ "" →
  hoare (fun st => schemas st = h) (standaloneName schema (Some k))
        (fun n st => (∃ used, n = Some (fst (generateName (JStr k) used)))
                     ∧ schemas st = h).
Proof.
  intros Htitle Hid Hk st n st' Hh. unfold standaloneName.
  rewrite (bind_eval _ _ _ _ _ (field_eval _ _ _)).
  rewrite (bind_eval _ _ _ _ _ (field_eval _ _ _)).
  rewrite Hh. unfold js_or. rewrite Htitle, Hid. simpl.
  rewrite (eqb_ne k "") by exact Hk. simpl.
  intros [= <- <-]. split; [by eexists | exact Hh].
Qed.

Lemma hoare_apply {A} Pre (m : M A) Post st a st' :
  hoare Pre m Post → Pre st → m st = Ok (a, st') → Post a st'.
Proof. intros Hm HPre Hrun. eapply Hm; eauto. Qed.

Lemma hoare_weaken {A} (Pre Pre' : BuildState → Prop) (m : M A) Post :
  (∀ st, Pre' st → Pre st) → hoare Pre m Post → hoare Pre' m Post.
Proof. intros Himp Hm st a st' HPre Hrun. eapply Hm; eauto. Qed.

Lemma same_schemas_literals (vs : list jval) :
  preserves same_schemas (mapM (fun v => parseLiteral v None) vs).
Proof.
  apply preserves_mapM; [apply same_schemas_refl | apply same_schemas_trans |].
  intros v. apply same_schemas_parseLiteral.
Qed.

Lemma same_schemas_array_literals arr :
  preserves same_schemas (array_map arr (fun v (_ : nat) => parseLiteral v None)).
Proof.
  apply preserves_array_map; [apply same_schemas_refl | apply same_schemas_trans |].
  intros v i. apply same_schemas_parseLiteral.
Qed.

Lemma same_schemas_enum_entries schema arr :
  preserves same_schemas
    (array_map arr (fun v n =>
       let* a := parseLiteral v None in
       let* tsEnumNames := field schema "tsEnumNames" in
       let* h' := get_schemas in
       match index_read h' tsEnumNames n with
       | Ok k => ret {| enumAst := a; enumKeyName := k |}
       | Throw e => throw e
       | OutOfFuel => fun _ => OutOfFuel
       end)).
Proof.
  apply preserves_array_map; [apply same_schemas_refl | apply same_schemas_trans |].
  intros v i.
  apply preserves_bind; [apply same_schemas_trans | apply same_schemas_parseLiteral |].
  intros a.
  apply preserves_bind; [apply same_schemas_trans | apply same_schemas_field |].
  intros names.
  apply preserves_bind; [apply same_schemas_trans | apply same_schemas_get_schemas |].
  intros h'. destruct (index_read h' names i).
  - apply preserves_ret, same_schemas_refl.
  - apply preserves_throw.
  - apply preserves_stuck.
Qed.

(** The steps of [parseNonLiteral] up to the call of [standaloneName], and
    the steps after it. *)
Ltac name_step h :=
  match goal with
  | |- hoare _ (bind (standaloneName _ None) _) _ =>
      apply (hoare_bind _ (fun n s => n = None ∧ schemas s = h));
      [ apply standaloneName_anonymous; assumption
      | let n := fresh "n" in
        intros n; apply (hoare_weaken (fun _ => n = None)); [intros ? [? _]; assumption|] ]
  | |- hoare (fun s => schemas s = _) (bind (field _ _) _) _ =>
      apply (hoare_bind _ (fun _ s => schemas s = h));
      [ apply hoare_same_schemas, same_schemas_field | intros ? ]
  | |- hoare (fun s => schemas s = _) (bind (get_ast _) _) _ =>
      apply (hoare_bind _ (fun _ s => schemas s = h));
      [ apply hoare_same_schemas, same_schemas_get_ast | intros ? ]
  | |- hoare (fun s => schemas s = _) (bind (array_map _ _) _) _ =>
      apply (hoare_bind _ (fun _ s => schemas s = h));
      [ apply hoare_same_schemas, same_schemas_array_literals | intros ? ]
  | |- hoare (fun s => schemas s = _) (bind (mapM _ _) _) _ =>
      apply (hoare_bind _ (fun _ s => schemas s = h));
      [ apply hoare_same_schemas, same_schemas_literals | intros ? ]
  | |- hoare (fun s => schemas s = _) (bind (match ?x with _ => _ end) _) _ =>
      destruct x
  | |- hoare (fun s => schemas s = _) (bind (throw _) _) _ =>
      apply (hoare_bind _ (fun _ _ => False)); [apply hoare_throw | by intros ? ? ? ? []]
  | |- hoare (fun s => schemas s = _) (bind (fun _ => OutOfFuel) _) _ =>
      apply (hoare_bind _ (fun _ _ => False)); [apply hoare_stuck | by intros ? ? ? ? []]
  | |- hoare (fun _ => _ = None) (bind _ _) _ => apply hoare_bind_any; intros ?
  | |- hoare _ (ret _) _ => apply hoare_ret; intros ? ?; simpl; congruence
  | |- hoare _ (throw _) _ => apply hoare_throw
  | |- hoare _ (fun _ => OutOfFuel) _ => apply hoare_stuck
  | |- hoare _ (if ?b then _ else _) _ => destruct b
  | |- hoare _ (match ?x with _ => _ end) _ => destruct x
  end.

(** C10, as amended: for a schema with no [title], no [$id] and no key in
    the definitions of its root, every category other than the hinted
    enumeration leaves the node without a standalone name; the hinted
    enumeration takes its name from the property key it was parsed under
    when that key is not empty, and stays anonymous when the key is empty
    or there is none. *)
Theorem standalone_name_fallback (fuel schema : nat) (ty : SchemaType)
    (key : option string) (st st' : BuildState) (record : AST) :
  truthy (obj_get (node_fields (schemas st) schema) "title") = false →
  truthy (obj_get (node_fields (schemas st) schema) "$id") = false →
  (∀ d st1, getDefinitionsMemoized (getRootSchema (schemas st) schema) st = Ok (d, st1) →
            findKey d (JRef schema) = None) →
  parseNonLiteral (parse fuel) schema ty key st = Ok (record, st') →
  (ty ≠ NAMED_ENUM → ast_standaloneName record = None)
  ∧ (ty = NAMED_ENUM →
     match key with
     | Some k =>
         if String.eqb k "" then ast_standaloneName record = None
         else ∃ used, ast_standaloneName record = Some (fst (generateName (JStr k) used))
     | None => ast_standaloneName record = None
     end).
Proof.
  intros Htitle Hid Hkfd Hrun. unfold parseNonLiteral in Hrun.
  apply bind_ok in Hrun as (h & s0 & [= <- <-] & Hrun).
  apply bind_ok in Hrun as (d & s1 & Hd & Hrun).
  pose proof (Hkfd _ _ Hd) as Hnone.
  assert (Hs1 : schemas s1 = schemas st) by (by apply same_schemas_memo in Hd).
  apply bind_ok in Hrun as (description & s2 & [= <- <-] & Hrun).
  apply bind_ok in Hrun as (dep & s2 & [= <- <-] & Hrun).
  cbv zeta in Hrun. rewrite Hnone in Hrun.
  set (h := schemas st) in *.
  split; intros Hty.
  - refine (hoare_apply (fun s => schemas s = h) _
              (fun r _ => ast_standaloneName r = None) _ _ _ _ Hs1 Hrun).
    destruct ty; try congruence; unfold newInterface; repeat name_step h.
  - subst ty. simpl coalesce in Hrun.
    destruct key as [k|].
    + destruct (String.eqb k "") eqn:Hk.
      * apply String.eqb_eq in Hk. subst k.
        refine (hoare_apply (fun s => schemas s = h) _
                  (fun r _ => ast_standaloneName r = None) _ _ _ _ Hs1 Hrun).
        name_step h. destruct (negb _); [apply hoare_throw|].
        apply (hoare_bind _ (fun _ s => schemas s = h));
          [apply hoare_same_schemas, same_schemas_enum_entries | intros entries].
        apply (hoare_bind _ (fun _ s => schemas s = h));
          [apply hoare_same_schemas, same_schemas_standaloneName | intros _].
        apply (hoare_bind _ (fun n s => n = None ∧ schemas s = h));
          [by apply standaloneName_empty_key | intros n].
        apply hoare_ret. by intros s [-> _].
      * apply String.eqb_neq in Hk.
        refine (hoare_apply (fun s => schemas s = h) _
                  (fun r _ => ∃ used, ast_standaloneName r
                                      = Some (fst (generateName (JStr k) used)))
                  _ _ _ _ Hs1 Hrun).
        name_step h. destruct (negb _); [apply hoare_throw|].
        apply (hoare_bind _ (fun _ s => schemas s = h));
          [apply hoare_same_schemas, same_schemas_enum_entries | intros entries].
        apply (hoare_bind _ (fun _ s => schemas s = h));
          [apply hoare_same_schemas, same_schemas_standaloneName | intros _].
        apply (hoare_bind _ (fun n s => (∃ used, n = Some (fst (generateName (JStr k) used)))
                                        ∧ schemas s = h));
          [by apply standaloneName_from_key | intros n].
        apply hoare_ret. by intros s [Hn _].
    + refine (hoare_apply (fun s => schemas s = h) _
                (fun r _ => ast_standaloneName r = None) _ _ _ _ Hs1 Hrun).
      name_step h. destruct (negb _); [apply hoare_throw|].
      apply (hoare_bind _ (fun _ s => schemas s = h));
        [apply hoare_same_schemas, same_schemas_enum_entries | intros entries].
      apply (hoare_bind _ (fun _ s => schemas s = h));
        [apply hoare_same_schemas, same_schemas_standaloneName | intros _].
      apply (hoare_bind _ (fun n s => n = None ∧ schemas s = h));
        [by apply standaloneName_anonymous | intros n].
      apply hoare_ret. by intros s [-> _].
Qed.

End Names.

(** ** Enumerations with display names *)

Section Enums.
Import JS Parser.
Context {RT : JsRuntime} {U : Utils}.

Lemma set_asts_same st : set_asts (asts st) st = st.
Proof. by destruct st. Qed.

Lemma index_read_array h names nms n :
  array_elems h names = Some nms → index_read h names n = Ok (default JUndef (nms !! n)).
Proof.
  unfold array_elems, index_read. destruct names; try discriminate.
  destruct (h !! l) as [[|]|]; try discriminate. by intros [= ->].
Qed.

(** The entries of a hinted enumeration: the value at each index becomes a
    new LITERAL object, paired with the hint at the same index. *)
Lemma enum_entries_eval schema enum names nms values n : ∀ j st,
  obj_get (node_fields (schemas st) schema) "tsEnumNames" = names →
  array_elems (schemas st) names = Some nms →
  array_elems (schemas st) enum = Some values →
  mapM (fun i =>
          let* h' := get_schemas in
          (fun v n =>
             let* a := parseLiteral v None in
             let* tsEnumNames := field schema "tsEnumNames" in
             let* h' := get_schemas in
             match index_read h' tsEnumNames n with
             | Ok k => ret {| enumAst := a; enumKeyName := k |}
             | Throw e => throw e
             | OutOfFuel => fun _ => OutOfFuel
             end) (elem_at h' enum i) i)
       (seq j n) st
  = Ok (map (fun i => {| enumAst := length (asts st) + (i - j);
                         enumKeyName := default JUndef (nms !! i) |}) (seq j n),
        set_asts (asts st
                  ++ map (fun i => literal_node (default JUndef (values !! i))) (seq j n))
                 st).
Proof.
  induction n as [|n IH]; intros j st Hnames Hnms Hvalues.
  - simpl. by rewrite app_nil_r, set_asts_same.
  - cbn [seq map].
    set (lit := literal_node (default JUndef (values !! j))).
    set (st1 := set_asts (asts st ++ [lit]) st).
    rewrite Nat.sub_diag, Nat.add_0_r.
    eapply mapM_cons_eval.
    + rewrite (bind_eval _ _ st (schemas st) st) by reflexivity. cbv beta.
      unfold elem_at. rewrite Hvalues.
      rewrite (bind_eval _ _ st (length (asts st)) st1) by reflexivity. cbv beta.
      rewrite (bind_eval _ _ _ _ _ (field_eval _ _ _)). cbv beta.
      rewrite (bind_eval _ _ st1 (schemas st) st1) by reflexivity. cbv beta.
      change (schemas st1) with (schemas st). rewrite Hnames.
      rewrite (index_read_array _ _ _ _ Hnms). reflexivity.
    + rewrite (IH (S j) st1) by assumption.
      f_equal. f_equal.
      * apply map_ext_in. intros i Hi. apply in_seq in Hi.
        f_equal. simpl. rewrite length_app. simpl. lia.
      * simpl. by rewrite <- app_assoc.
Qed.

Lemma array_elems_isArray h v es : array_elems h v = Some es → isArray h v = true.
Proof.
  unfold array_elems, isArray. destruct v; try discriminate.
  by destruct (h !! l) as [[|]|].
Qed.

(** C7: building a node of the hinted-enumeration category gives an ENUM
    object whose entries pair the value at each index of [enum] (as a new
    LITERAL object holding that value) with the hint at the same index of
    [tsEnumNames]; when [enum] is not an array the build throws a
    [TypeError]. *)
Theorem named_enum_build (fuel l : nat) (fs : fields) (key : option string)
    (st : BuildState) :
  schemas st !! l = Some (HObj fs) →
  typesOfSchema (schemas st) l = [NAMED_ENUM] →
  cache_lookup (processed st) l NAMED_ENUM = None →
  (isArray (schemas st) (obj_get fs "enum") = false →
   parse (S fuel) (JRef l) key st = Throw (TypeError "schema.enum is an object"))
  ∧ (∀ values hints,
       array_elems (schemas st) (obj_get fs "enum") = Some values →
       array_elems (schemas st) (obj_get fs "tsEnumNames") = Some hints →
       ∃ st' enum entries,
         parse (S fuel) (JRef l) key st = Ok (length (asts st), st')
         ∧ asts st' !! length (asts st) = Some enum
         ∧ ast_type enum = Some A_ENUM
         ∧ ast_params enum = ParamEnum entries
         ∧ length entries = length values
         ∧ ∀ i v, values !! i = Some v →
             ∃ e, entries !! i = Some e
                  ∧ enumKeyName e = default JUndef (hints !! i)
                  ∧ asts st' !! enumAst e = Some (literal_node v)).
Proof.
  intros Hl Ht Hc.
  set (a0 := length (asts st)).
  set (st1 := set_processed (cache_insert (processed st) l NAMED_ENUM a0)
                (set_asts (asts st ++ [empty_ast]) st)).
  destruct (getDefinitionsMemoized_shape (getRootSchema (schemas st) l) st1) as (d & m & Hd).
  set (st2 := set_definitionsCache m st1) in *.
  assert (Hfs : node_fields (schemas st2) l = fs).
  { unfold node_fields. simpl. by rewrite Hl. }
  assert (Hstart : parse (S fuel) (JRef l) key st =
            (let* result := parseNonLiteral (parse fuel) l NAMED_ENUM key in
             let* _ := update_ast a0 (fun target => Object_assign target result) in
             ret a0) st1).
  { erewrite parse_single by eauto. by rewrite parseAsTypeWithCache_miss. }
  split.
  - intros Harr. rewrite Hstart.
    assert (Hthrow : parseNonLiteral (parse fuel) l NAMED_ENUM key st1 =
              Throw (TypeError "schema.enum is an object")).
    { unfold parseNonLiteral.
      rewrite (bind_eval _ _ st1 (schemas st) st1) by reflexivity. cbv beta.
      run_with Hd. run_field. run_field. cbv zeta. run_field.
      rewrite Hfs, Harr. reflexivity. }
    unfold bind at 1. by rewrite Hthrow.
  - intros values hints Hvalues Hhints.
    pose proof (array_elems_isArray _ _ _ Hvalues) as Harr.
    set (lits := map (fun i => literal_node (default JUndef (values !! i)))
                     (seq 0 (length values))).
    set (entries := map (fun i => {| enumAst := length (asts st2) + (i - 0);
                                     enumKeyName := default JUndef (hints !! i) |})
                        (seq 0 (length values))).
    set (st3 := set_asts (asts st2 ++ lits) st2).
    assert (Hentries :
      array_map (obj_get fs "enum")
        (fun v n =>
           let* a := parseLiteral v None in
           let* tsEnumNames := field l "tsEnumNames" in
           let* h' := get_schemas in
           match index_read h' tsEnumNames n with
           | Ok k => ret {| enumAst := a; enumKeyName := k |}
           | Throw e => throw e
           | OutOfFuel => fun _ => OutOfFuel
           end) st2 = Ok (entries, st3)).
    { unfold array_map.
      rewrite (bind_eval _ _ st2 (schemas st) st2) by reflexivity. cbv beta.
      rewrite Hvalues.
      apply (enum_entries_eval l (obj_get fs "enum") (obj_get fs "tsEnumNames")
               hints values (length values) 0 st2); [by rewrite Hfs | done | done]. }
    destruct (standaloneName_shape l (coalesce (findKey d (JRef l)) key) st3)
      as (n1 & u1 & Hn1).
    destruct (standaloneName_shape l (coalesce (findKey d (JRef l)) key)
                (set_usedNames u1 st3)) as (n2 & u2 & Hn2).
    set (st5 := set_usedNames u2 (set_usedNames u1 st3)) in *.
    set (enum := node (obj_get fs "description") (obj_get fs "deprecated") key n2
                   (ParamEnum entries) A_ENUM).
    assert (Hnode : parseNonLiteral (parse fuel) l NAMED_ENUM key st1 = Ok (enum, st5)).
    { unfold parseNonLiteral.
      rewrite (bind_eval _ _ st1 (schemas st) st1) by reflexivity. cbv beta.
      run_with Hd. run_field. run_field. cbv zeta. run_field.
      rewrite Hfs, Harr. cbn [negb].
      run_with Hentries. run_with Hn1. run_with Hn2. reflexivity. }
    assert (Hlen : length entries = length values).
    { unfold entries. by rewrite length_map, length_seq. }
    exists (set_asts (<[a0 := enum]> (asts st5)) st5), enum, entries.
    assert (Hasts5 : asts st5 = (asts st ++ [empty_ast]) ++ lits) by reflexivity.
    split.
    { rewrite Hstart. run_with Hnode.
      rewrite (bind_eval _ _ st5 tt (set_asts (<[a0 := enum]> (asts st5)) st5)).
      - reflexivity.
      - unfold update_ast. rewrite Hasts5.
        rewrite lookup_app_l by (rewrite length_app; simpl; lia).
        by rewrite lookup_app_r, Nat.sub_diag by lia. }
    split.
    { simpl. apply list_lookup_insert_eq.
      rewrite !length_app. simpl. lia. }
    split; [reflexivity|]. split; [reflexivity|]. split; [exact Hlen|].
    intros i v Hi.
    assert (Hlt : i < length values) by (eapply lookup_lt_Some; eauto).
    exists {| enumAst := length (asts st2) + (i - 0);
              enumKeyName := default JUndef (hints !! i) |}.
    split.
    { unfold entries. rewrite list_lookup_fmap, lookup_seq_lt by done. reflexivity. }
    split; [reflexivity|].
    cbn [enumAst asts set_asts]. rewrite Hasts5.
    change (asts st2) with (asts st ++ [empty_ast]).
    rewrite list_lookup_insert_ne by (rewrite length_app; simpl; lia).
    rewrite lookup_app_r by lia.
    replace (length (asts st ++ [empty_ast]) + (i - 0) - length (asts st ++ [empty_ast]))
      with i by lia.
    unfold lits. rewrite list_lookup_fmap, lookup_seq_lt by done. simpl.
    by rewrite Hi.
Qed.

End Enums.

(** ** The build as a whole *)

Section Build.
Import JS Parser.
Context {RT : JsRuntime} {U : Utils}.


Lemma Forall2_member_keys (ks : list string) (ms : list TInterfaceParam)
    (Q : TInterfaceParam → Prop) :
  Forall2 (fun k m => paramKeyName m = k ∧ Q m) ks ms → map paramKeyName ms = ks.
Proof. induction 1 as [|k m ks ms [Hk _] _ IH]; simpl; congruence. Qed.


End Build.

(** ** The categories without sub-schemas *)

Section Categories.
Import JS Parser.
Context {RT : JsRuntime} {U : Utils}.

Lemma getDefinitionsMemoized_exact root st :
  getDefinitionsMemoized root st =
    Ok (definitions_of st root, set_definitionsCache (memo_after st root) st).
Proof.
  unfold getDefinitionsMemoized, definitions_of, memo_after.
  destruct (definitionsCache st !! root); [by destruct st|done].
Qed.

Lemma standaloneName_exact schema kfd st :
  standaloneName schema kfd st =
    Ok (chosen_name (name_hint (schemas st) schema kfd) (usedNames st),
        set_usedNames (names_after (name_hint (schemas st) schema kfd) (usedNames st)) st).
Proof.
  unfold standaloneName, bind, field, chosen_name, names_after, name_hint.
  destruct (truthy _); [done|]. by destruct st.
Qed.

(** After a miss the node [parseNonLiteral] returns is copied over the
    placeholder. *)
Lemma parse_miss_fill fuel l fs ty key st record st2 :
  schemas st !! l = Some (HObj fs) → typesOfSchema (schemas st) l = [ty] →
  cache_lookup (processed st) l ty = None →
  parseNonLiteral (parse fuel) l ty key (with_placeholder st l ty) = Ok (record, st2) →
  length (asts st) < length (asts st2) →
  parse (S fuel) (JRef l) key st =
    Ok (length (asts st), set_asts (<[length (asts st) := record]> (asts st2)) st2).
Proof.
  intros Hl Ht Hc Hnode Hlen.
  erewrite parse_single by eauto.
  rewrite parseAsTypeWithCache_miss by exact Hc.
  fold (with_placeholder st l ty). run_with Hnode.
  unfold bind, update_ast, ret.
  destruct (lookup_lt_is_Some_2 (asts st2) (length (asts st)) Hlen) as [n ->].
  reflexivity.
Qed.

Lemma parse_miss_throw fuel l fs ty key st e :
  schemas st !! l = Some (HObj fs) → typesOfSchema (schemas st) l = [ty] →
  cache_lookup (processed st) l ty = None →
  parseNonLiteral (parse fuel) l ty key (with_placeholder st l ty) = Throw e →
  parse (S fuel) (JRef l) key st = Throw e.
Proof.
  intros Hl Ht Hc Hnode.
  erewrite parse_single by eauto.
  rewrite parseAsTypeWithCache_miss by exact Hc.
  fold (with_placeholder st l ty). unfold bind at 1. by rewrite Hnode.
Qed.

(** A value that is not a schema object is built without the Build Cache,
    the Used-Names Set or the definitions: [true] gives an ANY node, [false]
    a NEVER node, and any other value (a number, a string, [null], a list) a
    LITERAL node holding the value.  The node is new each time. *)
Theorem values_build_as_literals (fuel : nat) (v : jval) (key : option string)
    (st : BuildState) :
  isPlainObject (schemas st) v = false →
  parse (S fuel) v key st =
    Ok (length (asts st),
        set_asts
          (asts st
           ++ [ match v with
                | JBool true => node JUndef JUndef key None NoParams A_ANY
                | JBool false => node JUndef JUndef key None NoParams A_NEVER
                | _ => node JUndef JUndef key None (ParamValue v) A_LITERAL
                end ]) st).
Proof.
  intros Hv. simpl. unfold parse_body.
  rewrite (bind_eval _ _ st (schemas st) st) by reflexivity. cbv beta.
  unfold isPrimitive. rewrite Hv. simpl.
  destruct v as [| |[|]| | |]; reflexivity.
Qed.

(** A node of the REFERENCE category aborts the build with an [Error]. *)
Theorem reference_category_aborts (fuel l : nat) (fs : fields) (key : option string)
    (st : BuildState) :
  schemas st !! l = Some (HObj fs) →
  typesOfSchema (schemas st) l = [REFERENCE] →
  cache_lookup (processed st) l REFERENCE = None →
  parse (S fuel) (JRef l) key st =
    Throw (Error ("Refs should have been resolved by the resolver! - "
                  +:+ ToString (schemas st) (JRef l))).
Proof.
  intros Hl Ht Hc. eapply parse_miss_throw; eauto.
  unfold parseNonLiteral.
  rewrite (bind_eval _ _ _ (schemas st) (with_placeholder st l REFERENCE)) by reflexivity.
  cbv beta.
  rewrite (bind_eval _ _ _ _ _ (getDefinitionsMemoized_exact _ _)). cbv beta.
  run_field. run_field. reflexivity.
Qed.

Ltac enter_switch st0 :=
  unfold Parser.parseNonLiteral;
  rewrite (bind_eval _ _ _ (Parser.schemas st0) _) by reflexivity; cbv beta;
  rewrite (bind_eval _ _ _ _ _ (getDefinitionsMemoized_exact _ _)); cbv beta;
  run_field; run_field; cbv zeta.

Lemma insert_last {A} (l : list A) (x y : A) : <[length l := y]> (l ++ [x]) = l ++ [y].
Proof. rewrite insert_app_r_alt by lia. by rewrite Nat.sub_diag. Qed.

Lemma plain_type_eval (fuel l : nat) (fs : fields) (ty : SchemaType)
    (a_ty : ASTType) (key : option string) (st : BuildState) :
  schemas st !! l = Some (HObj fs) →
  typesOfSchema (schemas st) l = [ty] →
  scalar_tag ty = Some a_ty →
  cache_lookup (processed st) l ty = None →
  let root := getRootSchema (schemas st) l in
  let hint := name_hint (schemas st) l (findKey (definitions_of st root) (JRef l)) in
  parse (S fuel) (JRef l) key st =
    Ok (length (asts st),
        {| schemas := schemas st;
           asts := asts st
                   ++ [ node (obj_get fs "description") (obj_get fs "deprecated") key
                          (chosen_name hint (usedNames st)) NoParams a_ty ];
           processed := cache_insert (processed st) l ty (length (asts st));
           usedNames := names_after hint (usedNames st);
           definitionsCache := memo_after st root |}).
Proof.
  intros Hl Ht Htag Hc root hint.
  set (st1 := with_placeholder st l ty).
  set (st2 := set_definitionsCache (memo_after st root) st1).
  set (st3 := set_usedNames (names_after hint (usedNames st)) st2).
  set (n := node (obj_get fs "description") (obj_get fs "deprecated") key
              (chosen_name hint (usedNames st)) NoParams a_ty).
  assert (Hnode : parseNonLiteral (parse fuel) l ty key st1 = Ok (n, st3)).
  { enter_switch st1.
    assert (Hfs : ∀ m, node_fields (schemas (set_definitionsCache m st1)) l = fs).
    { intros m. unfold node_fields. simpl. by rewrite Hl. }
    rewrite !Hfs.
    destruct ty; simpl in Htag; try discriminate; injection Htag as <-;
      rewrite (bind_eval _ _ _ _ _ (standaloneName_exact _ _ _)); reflexivity. }
  rewrite (parse_miss_fill _ _ _ _ _ _ _ _ Hl Ht Hc Hnode).
  - simpl. by rewrite insert_last.
  - simpl. rewrite length_app. simpl. lia.
Qed.

(** The six categories that stand for a plain type (BOOLEAN, NEVER, NULL,
    NUMBER, OBJECT, STRING), built for the first time: the build adds
    exactly one node, whose type is the category's, whose comment and
    deprecation flag are the schema's [description] and [deprecated], whose
    key name is the key the node was parsed under, and whose standalone name
    is allocated from the title, else the [$id], else the key the node has
    in the definitions of its root, and is absent when none of them is
    truthy.  The node is registered in the Build Cache; the schema store is
    not touched. *)
Theorem plain_type_categories_build (fuel l : nat) (fs : fields) (ty : SchemaType)
    (a_ty : ASTType) (key : option string) (st : BuildState) :
  schemas st !! l = Some (HObj fs) →
  typesOfSchema (schemas st) l = [ty] →
  scalar_tag ty = Some a_ty →
  cache_lookup (processed st) l ty = None →
  let root := getRootSchema (schemas st) l in
  let hint := name_hint (schemas st) l (findKey (definitions_of st root) (JRef l)) in
  parse (S fuel) (JRef l) key st =
    Ok (length (asts st),
        {| schemas := schemas st;
           asts := asts st
                   ++ [ node (obj_get fs "description") (obj_get fs "deprecated") key
                          (chosen_name hint (usedNames st)) NoParams a_ty ];
           processed := cache_insert (processed st) l ty (length (asts st));
           usedNames := names_after hint (usedNames st);
           definitionsCache := memo_after st root |}).
Proof. apply plain_type_eval. Qed.

Lemma untyped_array_eval (fuel l : nat) (fs : fields) (key : option string)
    (st : BuildState) (mn : Z) :
  schemas st !! l = Some (HObj fs) →
  typesOfSchema (schemas st) l = [UNTYPED_ARRAY] →
  cache_lookup (processed st) l UNTYPED_ARRAY = None →
  obj_get fs "minItems" = JNum mn →
  let mx := match obj_get fs "maxItems" with JNum z => z | _ => (-1)%Z end in
  let root := getRootSchema (schemas st) l in
  let hint := name_hint (schemas st) l (findKey (definitions_of st root) (JRef l)) in
  let sn := chosen_name hint (usedNames st) in
  ∃ st',
    parse (S fuel) (JRef l) key st = Ok (length (asts st), st')
    ∧ asts st' =
        asts st
        ++ [ if (0 <? mn)%Z || (0 <=? mx)%Z
             then tuple (obj_get fs "description") (obj_get fs "deprecated") key
                    (obj_get fs "maxItems") (JNum mn) sn
                    (repeat T_ANY (Z.to_nat (Z.max mx mn)))
                    (if (0 <=? mx)%Z then None else Some T_ANY)
             else node (obj_get fs "description") (obj_get fs "deprecated") key sn
                    (ParamOne T_ANY) A_ARRAY ]
    ∧ schemas st' = schemas st
    ∧ cache_lookup (processed st') l UNTYPED_ARRAY = Some (length (asts st)).
Proof.
  intros Hl Ht Hc Hmn mx root hint sn.
  set (st1 := with_placeholder st l UNTYPED_ARRAY).
  set (st2 := set_definitionsCache (memo_after st root) st1).
  set (st3 := set_usedNames (names_after hint (usedNames st)) st2).
  set (n := if (0 <? mn)%Z || (0 <=? mx)%Z
            then tuple (obj_get fs "description") (obj_get fs "deprecated") key
                   (obj_get fs "maxItems") (JNum mn) sn
                   (repeat T_ANY (Z.to_nat (Z.max mx mn)))
                   (if (0 <=? mx)%Z then None else Some T_ANY)
            else node (obj_get fs "description") (obj_get fs "deprecated") key sn
                   (ParamOne T_ANY) A_ARRAY).
  assert (Hnode : parseNonLiteral (parse fuel) l UNTYPED_ARRAY key st1 = Ok (n, st3)).
  { enter_switch st1.
    assert (Hfs : ∀ m, node_fields (schemas (set_definitionsCache m st1)) l = fs).
    { intros m. unfold node_fields. simpl. by rewrite Hl. }
    run_field. run_field. rewrite !Hfs, Hmn.
    assert (Hmx : ToNumber (schemas st1)
                    (if is_number (obj_get fs "maxItems") then obj_get fs "maxItems"
                     else JNum (-1)) = Some mx).
    { unfold mx. by destruct (obj_get fs "maxItems"). }
    rewrite Hmx. cbn [ToNumber num_gt num_ge max_or_zero].
    unfold n. destruct ((0 <? mn)%Z || (0 <=? mx)%Z) eqn:Hb.
    - unfold js_Array.
      assert (Hneg : (Z.max mx mn <? 0)%Z = false).
      { apply orb_true_iff in Hb. lia. }
      rewrite Hneg, repeat_length.
      rewrite (bind_eval _ _ _ _ _ (standaloneName_exact _ _ _)). reflexivity.
    - rewrite (bind_eval _ _ _ _ _ (standaloneName_exact _ _ _)). reflexivity. }
  eexists. split; [exact (parse_miss_fill _ _ _ _ _ _ _ _ Hl Ht Hc Hnode ltac:(simpl; rewrite length_app; simpl; lia))|].
  simpl. split; [by rewrite insert_last|]. split; [reflexivity|].
  apply cache_lookup_insert_eq.
Qed.


Lemma literals_eval (vs : list jval) : ∀ st,
  mapM (fun v => parseLiteral v None) vs st =
    Ok (seq (length (asts st)) (length vs),
        set_asts (asts st ++ map literal_node vs) st).
Proof.
  induction vs as [|v vs IH]; intros st.
  - simpl. rewrite app_nil_r. by destruct st.
  - eapply mapM_cons_eval; [reflexivity|].
    rewrite IH. unfold set_asts. simpl.
    by rewrite length_app, <- app_assoc, Nat.add_1_r.
Qed.

Lemma array_literals_eval arr (values : list jval) n : ∀ j st,
  array_elems (schemas st) arr = Some values → j + n ≤ length values →
  mapM (fun i => let* h' := get_schemas in parseLiteral (elem_at h' arr i) None)
       (seq j n) st =
    Ok (seq (length (asts st)) n,
        set_asts (asts st ++ map literal_node (take n (drop j values))) st).
Proof.
  induction n as [|n IH]; intros j st Hvalues Hlen.
  - simpl. rewrite app_nil_r. by destruct st.
  - cbn [seq].
    destruct (lookup_lt_is_Some_2 values j ltac:(lia)) as [v Hv].
    eapply mapM_cons_eval.
    + rewrite (bind_eval _ _ st (schemas st) st) by reflexivity. cbv beta.
      unfold elem_at. rewrite Hvalues, Hv. reflexivity.
    + rewrite (IH (S j)); [|exact Hvalues|lia].
      rewrite (drop_S _ _ _ Hv). unfold set_asts. simpl.
      by rewrite length_app, <- app_assoc, Nat.add_1_r.
Qed.

Lemma unnamed_enum_eval (fuel l : nat) (fs : fields) (key : option string)
    (st : BuildState) :
  schemas st !! l = Some (HObj fs) →
  typesOfSchema (schemas st) l = [UNNAMED_ENUM] →
  cache_lookup (processed st) l UNNAMED_ENUM = None →
  let root := getRootSchema (schemas st) l in
  let hint := name_hint (schemas st) l (findKey (definitions_of st root) (JRef l)) in
  let sn := chosen_name hint (usedNames st) in
  (∀ values,
     array_elems (schemas st) (obj_get fs "enum") = Some values
     ∨ (∃ e efs, obj_get fs "enum" = JRef e ∧ schemas st !! e = Some (HObj efs)
                 ∧ values = map snd efs) →
     ∃ st',
       parse (S fuel) (JRef l) key st = Ok (length (asts st), st')
       ∧ asts st' =
           asts st
           ++ [ node (obj_get fs "description") (obj_get fs "deprecated") key sn
                  (ParamList (seq (S (length (asts st))) (length values))) A_UNION ]
           ++ map literal_node values)
  ∧ (obj_get fs "enum" = JUndef ∨ obj_get fs "enum" = JNull →
     ∃ msg, parse (S fuel) (JRef l) key st = Throw (TypeError msg)).
Proof.
  intros Hl Ht Hc root hint sn.
  set (st1 := with_placeholder st l UNNAMED_ENUM).
  set (st2 := set_definitionsCache (memo_after st root) st1).
  assert (Hfs : ∀ m, node_fields (schemas (set_definitionsCache m st1)) l = fs).
  { intros m. unfold node_fields. simpl. by rewrite Hl. }
  split.
  - intros values Hvalues.
    set (st3 := set_asts (asts st2 ++ map literal_node values) st2).
    set (st4 := set_usedNames (names_after hint (usedNames st)) st3).
    set (n := node (obj_get fs "description") (obj_get fs "deprecated") key sn
                (ParamList (seq (S (length (asts st))) (length values))) A_UNION).
    assert (Hlits :
      (if negb (isArray (schemas st1) (obj_get fs "enum")) then
         match object_values (schemas st1) (obj_get fs "enum") with
         | Ok vs => mapM (fun v => parseLiteral v None) vs
         | Throw e => throw e
         | OutOfFuel => fun _ => OutOfFuel
         end
       else array_map (obj_get fs "enum") (fun v (_ : nat) => parseLiteral v None)) st2
      = Ok (seq (S (length (asts st))) (length values), st3)).
    { change (schemas st1) with (schemas st).
      destruct Hvalues as [Harr | (e & efs & He & Hefs & ->)].
      - rewrite (array_elems_isArray _ _ _ Harr). cbn [negb].
        unfold array_map.
        rewrite (bind_eval _ _ st2 (schemas st) st2) by reflexivity. cbv beta.
        rewrite Harr.
        rewrite (array_literals_eval _ values (length values) 0 st2 Harr) by (simpl; lia).
        rewrite drop_0, firstn_all. unfold st3. simpl.
        rewrite length_app. simpl. by rewrite Nat.add_1_r.
      - rewrite He. simpl. rewrite Hefs. simpl.
        rewrite literals_eval. unfold st3. simpl.
        rewrite length_app. simpl. by rewrite Nat.add_1_r. }
    assert (Hnode : parseNonLiteral (parse fuel) l UNNAMED_ENUM key st1 = Ok (n, st4)).
    { enter_switch st1. run_field. rewrite !Hfs.
      run_with Hlits.
      rewrite (bind_eval _ _ _ _ _ (standaloneName_exact _ _ _)). reflexivity. }
    eexists. split.
    { apply (parse_miss_fill _ _ _ _ _ _ _ _ Hl Ht Hc Hnode).
      simpl. rewrite !length_app. simpl. lia. }
    simpl. rewrite <- app_assoc. simpl.
    rewrite insert_app_r_alt by lia. by rewrite Nat.sub_diag.
  - intros Hnull.
    eexists. eapply parse_miss_throw; eauto.
    enter_switch st1. run_field. rewrite !Hfs.
    destruct Hnull as [-> | ->]; reflexivity.
Qed.

(** A node of the UNNAMED_ENUM category, built for the first time: a UNION
    node followed by one new LITERAL node per value, in the order of [enum];
    when [enum] is an object and not a list, its property values are taken
    in key order.  A nullish [enum] aborts the build with a [TypeError]. *)
Theorem unnamed_enum_build (fuel l : nat) (fs : fields) (key : option string)
    (st : BuildState) :
  schemas st !! l = Some (HObj fs) →
  typesOfSchema (schemas st) l = [UNNAMED_ENUM] →
  cache_lookup (processed st) l UNNAMED_ENUM = None →
  let root := getRootSchema (schemas st) l in
  let hint := name_hint (schemas st) l (findKey (definitions_of st root) (JRef l)) in
  let sn := chosen_name hint (usedNames st) in
  (∀ values,
     array_elems (schemas st) (obj_get fs "enum") = Some values
     ∨ (∃ e efs, obj_get fs "enum" = JRef e ∧ schemas st !! e = Some (HObj efs)
                 ∧ values = map snd efs) →
     ∃ st',
       parse (S fuel) (JRef l) key st = Ok (length (asts st), st')
       ∧ asts st' =
           asts st
           ++ [ node (obj_get fs "description") (obj_get fs "deprecated") key sn
                  (ParamList (seq (S (length (asts st))) (length values))) A_UNION ]
           ++ map literal_node values)
  ∧ (obj_get fs "enum" = JUndef ∨ obj_get fs "enum" = JNull →
     ∃ msg, parse (S fuel) (JRef l) key st = Throw (TypeError msg)).
Proof. apply unnamed_enum_eval. Qed.

Lemma array_map_length {A} arr (f : jval → nat → M A) st ps st' es :
  array_elems (schemas st) arr = Some es →
  array_map arr f st = Ok (ps, st') → length ps = length es.
Proof.
  intros Hes Hrun. unfold array_map in Hrun.
  apply bind_ok in Hrun as (h & s1 & [= <- <-] & Hrun).
  rewrite Hes in Hrun.
  apply (mapM_Forall2 _ (fun _ _ => True)) in Hrun; [|done].
  apply Forall2_length in Hrun. by rewrite length_seq in Hrun.
Qed.

Lemma array_map_not_a_list {A} arr (f : jval → nat → M A) st :
  array_elems (schemas st) arr = None →
  array_map arr f st = Throw (TypeError "map is not a function").
Proof. intros Hes. unfold array_map, bind, get_schemas. by rewrite Hes. Qed.

(** The categories built from a list of sub-schemas ([allOf], [anyOf],
    [oneOf], a [type] list, a positional [items] list): when the build of
    such a node returns, the node is an INTERSECTION, a UNION or a TUPLE
    with one parameter per entry of the list.  When the keyword of one of
    the first four does not hold a list, the build of the node fails with a
    [TypeError]. *)
Theorem list_categories_have_one_parameter_per_entry (fuel l : nat) (ty : SchemaType)
    (kw : string) (a_ty : ASTType) (key : option string) (st : BuildState) :
  list_keyword ty = Some (kw, a_ty) →
  (∀ es record st',
     array_elems (schemas st) (obj_get (node_fields (schemas st) l) kw) = Some es →
     parseNonLiteral (parse fuel) l ty key st = Ok (record, st') →
     ast_type record = Some a_ty
     ∧ ∃ ps, ast_params record = ParamList ps ∧ length ps = length es)
  ∧ (ty ≠ TYPED_ARRAY →
     array_elems (schemas st) (obj_get (node_fields (schemas st) l) kw) = None →
     ∃ msg, parseNonLiteral (parse fuel) l ty key st = Throw (TypeError msg)).
Proof.
  intros Hkw. split.
  - intros es record st' Hes Hrun. unfold parseNonLiteral in Hrun.
    apply bind_ok in Hrun as (h & s0 & [= <- <-] & Hrun).
    apply bind_ok in Hrun as (d & s1 & Hd & Hrun).
    apply same_schemas_memo in Hd. unfold same_schemas in Hd.
    apply bind_ok in Hrun as (description & s2 & [= <- <-] & Hrun).
    apply bind_ok in Hrun as (dep & s2 & [= <- <-] & Hrun).
    cbv zeta in Hrun.
    destruct ty; simpl in Hkw; try discriminate; injection Hkw as <- <-.
    + apply bind_ok in Hrun as (sn & s3 & Hsn & Hrun).
      apply same_schemas_standaloneName in Hsn. unfold same_schemas in Hsn.
      apply bind_ok in Hrun as (members & s4 & [= <- <-] & Hrun).
      apply bind_ok in Hrun as (ps & s5 & Hps & [= <- <-]).
      split; [reflexivity|]. exists ps. split; [reflexivity|].
      eapply array_map_length; [|exact Hps]. by rewrite Hsn, Hd.
    + apply bind_ok in Hrun as (sn & s3 & Hsn & Hrun).
      apply same_schemas_standaloneName in Hsn. unfold same_schemas in Hsn.
      apply bind_ok in Hrun as (members & s4 & [= <- <-] & Hrun).
      apply bind_ok in Hrun as (ps & s5 & Hps & [= <- <-]).
      split; [reflexivity|]. exists ps. split; [reflexivity|].
      eapply array_map_length; [|exact Hps]. by rewrite Hsn, Hd.
    + apply bind_ok in Hrun as (sn & s3 & Hsn & Hrun).
      apply same_schemas_standaloneName in Hsn. unfold same_schemas in Hsn.
      apply bind_ok in Hrun as (members & s4 & [= <- <-] & Hrun).
      apply bind_ok in Hrun as (ps & s5 & Hps & [= <- <-]).
      split; [reflexivity|]. exists ps. split; [reflexivity|].
      eapply array_map_length; [|exact Hps]. by rewrite Hsn, Hd.
    + (* TYPED_ARRAY *)
      apply bind_ok in Hrun as (items & s3 & [= <- <-] & Hrun).
      rewrite Hd in Hrun. rewrite (array_elems_isArray _ _ _ Hes) in Hrun.
      apply bind_ok in Hrun as (mn & s3 & [= <- <-] & Hrun).
      apply bind_ok in Hrun as (mx & s3 & [= <- <-] & Hrun).
      apply bind_ok in Hrun as (sn & s3 & Hsn & Hrun).
      apply same_schemas_standaloneName in Hsn. unfold same_schemas in Hsn.
      apply bind_ok in Hrun as (ps & s4 & Hps & Hrun).
      apply bind_ok in Hrun as (ai & s5 & [= <- <-] & Hrun).
      apply bind_ok in Hrun as (sp & s6 & Hsp & [= <- <-]).
      split; [reflexivity|]. exists ps. split; [reflexivity|].
      eapply array_map_length; [|exact Hps]. by rewrite Hsn, Hd.
    + (* UNION *)
      apply bind_ok in Hrun as (sn & s3 & Hsn & Hrun).
      apply same_schemas_standaloneName in Hsn. unfold same_schemas in Hsn.
      apply bind_ok in Hrun as (tys & s4 & [= <- <-] & Hrun).
      apply bind_ok in Hrun as (ps & s5 & Hps & [= <- <-]).
      split; [reflexivity|]. exists ps. split; [reflexivity|].
      eapply array_map_length; [|exact Hps]. by rewrite Hsn, Hd.
  - intros Hty Hes. exists "map is not a function".
    unfold parseNonLiteral.
    rewrite (bind_eval _ _ st (schemas st) st) by reflexivity. cbv beta.
    rewrite (bind_eval _ _ _ _ _ (getDefinitionsMemoized_exact _ _)). cbv beta.
    run_field. run_field. cbv zeta.
    destruct ty; simpl in Hkw; try discriminate; try congruence;
      injection Hkw as <- <-;
      rewrite (bind_eval _ _ _ _ _ (standaloneName_exact _ _ _)); cbv beta;
      run_field;
      unfold bind at 1; by rewrite array_map_not_a_list.
Qed.

Lemma lodash_map_no_keys {A} c (f : jval → string → M A) st :
  keys_of (schemas st) c = [] → lodash_map c f st = Ok ([], st).
Proof. intros Hk. rewrite lodash_map_eval, Hk. reflexivity. Qed.

(** A record that declares no property, no pattern property and no
    definition: its member list is the single open index member of any type
    when [additionalProperties] is absent or [true], and empty when it is
    [false].  Nothing is parsed and the state does not change. *)
Theorem members_of_an_empty_record (P : jval → option string → M nat) (schema : nat)
    (name : option string) (st : BuildState) :
  let fs := node_fields (schemas st) schema in
  keys_of (schemas st) (obj_get fs "properties") = [] →
  truthy (obj_get fs "patternProperties") = false →
  keys_of (schemas st) (obj_get fs "$defs") = [] →
  (obj_get fs "additionalProperties" = JUndef
   ∨ obj_get fs "additionalProperties" = JBool true →
   parseSchema P schema name st =
     Ok ([ {| ast := T_ANY_ADDITIONAL_PROPERTIES; isPatternProperty := false;
              isRequired := true; isUnreachableDefinition := false;
              paramKeyName := "[k: string]" |} ], st))
  ∧ (obj_get fs "additionalProperties" = JBool false →
     parseSchema P schema name st = Ok ([], st)).
Proof.
  intros fs Hprops Hpp Hdefs.
  assert (Hstart : ∀ k : list TInterfaceParam → M (list TInterfaceParam),
    (∀ ms, k ms = (let* additionalProperties := field schema "additionalProperties" in
                   match additionalProperties with
                   | JUndef | JBool true =>
                       if false then ret ms
                       else ret (ms ++ [catch_all T_ANY_ADDITIONAL_PROPERTIES])
                   | JBool false => ret ms
                   | _ =>
                       let* a := P additionalProperties (Some "[k: string]") in
                       ret (ms ++ [catch_all a])
                   end)) →
    parseSchema P schema name st = k [] st).
  { intros k Hk. unfold parseSchema.
    run_field. rewrite (bind_eval _ _ _ _ _ (lodash_map_no_keys _ _ _ Hprops)). cbv beta.
    run_field.
    rewrite (bind_eval _ _ st (schemas st) st) by reflexivity. cbv beta.
    run_field. fold fs. rewrite Hpp. cbv zeta. simpl andb.
    rewrite (bind_eval _ _ st [] st) by reflexivity. cbv beta.
    run_field. rewrite (bind_eval _ _ _ _ _ (lodash_map_no_keys _ _ _ Hdefs)). cbv beta.
    simpl app. by rewrite Hk. }
  rewrite (Hstart _ (fun ms => eq_refl)).
  split.
  - intros [Hap|Hap]; run_field; fold fs; by rewrite Hap.
  - intros Hap. run_field. fold fs. by rewrite Hap.
Qed.

(** The builder writes to the schema store only by allocating new objects
    and through the two stripping helpers: a property of the store that
    survives an allocation and both helpers holds after a build when it held
    before. *)
Theorem build_writes_the_store_through_helpers_only (I : heap → Prop) (fuel : nat)
    (v : jval) (k : option string) (st st' : BuildState) (a : nat) :
  stable I → I (schemas st) →
  parse fuel v k st = Ok (a, st') → I (schemas st').
Proof.
  intros Hst HI Hrun. by apply (parse_keeps I fuel v k Hst st a st' Hrun).
Qed.

(** From [const] to the AST: the rule "Transform const to singleton enum"
    stores the constant as a one-element [enum], and a node so normalized,
    once classified as UNNAMED_ENUM and built for the first time, is a UNION
    whose only parameter is a new LITERAL node holding the constant. *)
Theorem const_is_built_as_a_single_literal (fuel l : nat) (fs : fields)
    (fileName : string) (rule_key key : option string) (st : BuildState) :
  schemas st !! l = Some (HObj fs) →
  obj_get fs "const" ≠ JUndef →
  ∃ h',
    Normalizer.rule_const_to_enum (schemas st) l fileName rule_key = Ok h'
    ∧ (typesOfSchema h' l = [UNNAMED_ENUM] →
       cache_lookup (processed st) l UNNAMED_ENUM = None →
       ∃ st' sn,
         parse (S fuel) (JRef l) key (set_schemas h' st) = Ok (length (asts st), st')
         ∧ asts st' =
             asts st
             ++ [ node (obj_get fs "description") (obj_get fs "deprecated") key sn
                    (ParamList [S (length (asts st))]) A_UNION;
                  literal_node (obj_get fs "const") ]).
Proof.
  intros Hl Hconst.
  assert (Hlt : l < length (schemas st)) by (eapply lookup_lt_Some; eauto).
  set (fs' := obj_delete (obj_set fs "enum" (JRef (length (schemas st)))) "const").
  set (h' := Normalizer.store (schemas st ++ [HArr [obj_get fs "const"]]) l fs').
  exists h'. split.
  - unfold Normalizer.rule_const_to_enum, Normalizer.on_object. rewrite Hl.
    apply strict_eq_false in Hconst. by rewrite Hconst.
  - intros Hkind Hmiss.
    assert (Hl' : schemas (set_schemas h' st) !! l = Some (HObj fs')).
    { simpl. unfold h'. by apply lookup_store_alloc_node. }
    assert (Henum : obj_get fs' "enum" = JRef (length (schemas st))).
    { unfold fs'. rewrite obj_get_delete_ne by discriminate. apply obj_get_set_eq. }
    assert (Hvalues : array_elems (schemas (set_schemas h' st)) (obj_get fs' "enum")
                      = Some [obj_get fs "const"]).
    { rewrite Henum. simpl. unfold h'. by rewrite lookup_store_alloc_new. }
    destruct (proj1 (unnamed_enum_eval fuel l fs' key (set_schemas h' st)
                       Hl' Hkind Hmiss) [obj_get fs "const"] (or_introl Hvalues))
      as (st' & Hrun & Hasts).
    exists st'. eexists. split; [exact Hrun|].
    rewrite Hasts. simpl. unfold fs'.
    by rewrite !obj_get_delete_ne, !obj_get_set_ne by discriminate.
Qed.

(** From the bounds to the AST: at an array-type node the four bound rules,
    in pipeline order, leave [minItems = 0] and no [maxItems], so a node so
    normalized, once classified as UNTYPED_ARRAY and built for the first
    time, is an ARRAY of any type whatever bounds it declared: the TUPLE
    form is not reached. *)
Theorem normalized_untyped_array_is_never_a_tuple (fuel l : nat) (fs : fields)
    (fileName : string) (rule_key key : option string) (st : BuildState) :
  schemas st !! l = Some (HObj fs) →
  Normalizer.isArrayType (schemas st) fs = true →
  ∃ h',
    Normalizer.and_then Normalizer.rule_remove_bounds
      (Normalizer.and_then Normalizer.rule_normalize_minItems
         (Normalizer.and_then Normalizer.rule_remove_big_maxItems
            Normalizer.rule_normalize_items))
      (schemas st) l fileName rule_key = Ok h'
    ∧ (typesOfSchema h' l = [UNTYPED_ARRAY] →
       cache_lookup (processed st) l UNTYPED_ARRAY = None →
       ∃ st' sn,
         parse (S fuel) (JRef l) key (set_schemas h' st) = Ok (length (asts st), st')
         ∧ asts st' =
             asts st
             ++ [ node (obj_get fs "description") (obj_get fs "deprecated") key sn
                    (ParamOne T_ANY) A_ARRAY ]).
Proof.
  intros Hl Harr.
  assert (Hlt : l < length (schemas st)) by (eapply lookup_lt_Some; eauto).
  destruct (proj2 (bound_rules_eval (schemas st) l fs fileName rule_key Hl) Harr)
    as (fs' & Hrun & Hmin & Hmax & Hrest).
  eexists. split; [exact Hrun|].
  intros Hkind Hmiss.
  assert (Hl' : schemas (set_schemas (Normalizer.store (schemas st) l fs') st) !! l
                = Some (HObj fs')).
  { simpl. by apply lookup_store_eq. }
  destruct (untyped_array_eval fuel l fs' key _ 0 Hl' Hkind Hmiss Hmin)
    as (st' & Hbuild & Hasts & _).
  exists st'. eexists. split; [exact Hbuild|].
  rewrite Hasts. simpl.
  rewrite (obj_has_false_get _ _ Hmax). simpl.
  destruct (Hrest "description") as [-> _]; [discriminate|discriminate|].
  destruct (Hrest "deprecated") as [-> _]; [discriminate|discriminate|].
  reflexivity.
Qed.

(** The member made from a definition: its node is the node of the defined
    schema, marked as an unreachable definition under the definition's key,
    and the node's comment ends with the note that names the parent and the
    key, after the schema's own description and a blank line when there is
    one. *)
Theorem definition_members_carry_a_reference_note (fuel r s : nat) (k : string)
    (fs' : fields) (ts : SchemaType) (a_ty : ASTType) (name : option string)
    (st : BuildState) :
  single_definition_record (schemas st) r s k →
  schemas st !! s = Some (HObj fs') →
  typesOfSchema (schemas st) s = [ts] → scalar_tag ts = Some a_ty →
  cache_lookup (processed st) s ts = None →
  let note := definition_comment name k in
  ∃ st' req sn,
    parseSchema (parse (S fuel)) r name st =
      Ok ([ {| ast := length (asts st); isPatternProperty := false; isRequired := req;
               isUnreachableDefinition := true; paramKeyName := k |} ], st')
    ∧ asts st' =
        asts st
        ++ [ node (JStr (if truthy (obj_get fs' "description")
                         then ToString (schemas st) (obj_get fs' "description")
                              +:+ nl +:+ nl +:+ note
                         else note))
               (obj_get fs' "deprecated") (Some k) sn NoParams a_ty ].
Proof.
  intros (fs & d & fs0 & Hr & Hprops & Hpp & Hdefs & Hd & Hs0 & Hap) Hs Ht Htag Hc note.
  assert (Hfs : node_fields (schemas st) r = fs).
  { unfold node_fields. by rewrite Hr. }
  pose proof (plain_type_eval fuel s fs' ts a_ty (Some k) st Hs Ht Htag Hc) as Hbuild.
  cbv zeta in Hbuild.
  match type of Hbuild with _ = Ok (_, ?x) => set (st1 := x) in * end.
  set (n := node (obj_get fs' "description") (obj_get fs' "deprecated") (Some k)
              (chosen_name
                 (name_hint (schemas st) s
                    (findKey (definitions_of st (getRootSchema (schemas st) s)) (JRef s)))
                 (usedNames st)) NoParams a_ty) in *.
  set (n' := set_comment n
               (JStr (if truthy (ast_comment n)
                      then ToString (schemas st) (ast_comment n) +:+ nl +:+ nl +:+ note
                      else note))).
  set (st2 := set_asts (asts st ++ [n']) st1).
  assert (Hnote : append_comment (length (asts st)) note st1 = Ok (tt, st2)).
  { unfold append_comment.
    rewrite (bind_eval _ _ st1 (schemas st) st1) by reflexivity. cbv beta.
    unfold update_ast. simpl. rewrite lookup_app_r by lia.
    rewrite Nat.sub_diag. simpl. unfold st2. by rewrite insert_last. }
  destruct (in_required_eval r k st2) as (req & Hreq).
  exists st2, req. eexists. split.
  - unfold parseSchema.
    run_field. rewrite Hfs.
    rewrite (bind_eval _ _ _ _ _ (lodash_map_no_keys _ _ _ Hprops)). cbv beta.
    run_field. rewrite (bind_eval _ _ st (schemas st) st) by reflexivity. cbv beta.
    run_field. rewrite Hfs, Hpp. cbv zeta. simpl andb.
    rewrite (bind_eval _ _ st [] st) by reflexivity. cbv beta.
    run_field. rewrite Hfs, Hdefs.
    assert (Hmembers :
      lodash_map (JRef d)
        (fun value key =>
           let* a := parse (S fuel) value (Some key) in
           let* _ := append_comment a (definition_comment name key) in
           let* req := in_required r key in
           ret {| ast := a; isPatternProperty := false; isRequired := req;
                  isUnreachableDefinition := true; paramKeyName := key |}) st
      = Ok ([ {| ast := length (asts st); isPatternProperty := false; isRequired := req;
                 isUnreachableDefinition := true; paramKeyName := k |} ], st2)).
    { rewrite lodash_map_eval. unfold keys_of. rewrite Hd. simpl map.
      eapply mapM_cons_eval; [|apply mapM_nil_eval].
      rewrite (bind_eval _ _ st (schemas st) st) by reflexivity. cbv beta.
      assert (Hprop : prop_of (schemas st) (JRef d) k = JRef s).
      { unfold prop_of, node_fields. rewrite Hd. simpl. by rewrite String.eqb_refl. }
      rewrite Hprop. run_with Hbuild. run_with Hnote. run_with Hreq. reflexivity. }
    run_with Hmembers. run_field.
    assert (Hfs2 : node_fields (schemas st2) r = fs).
    { unfold node_fields. simpl. by rewrite Hr. }
    rewrite Hfs2, Hap. reflexivity.
  - reflexivity.
Qed.

(** A hinted enumeration allocates its name twice: [standaloneName] is
    called once for the logging statement and once for the node, and each
    call adds to the Used-Names Set.  The name the ENUM node carries is the
    one allocated by the second call, against a set that already holds the
    name allocated by the first. *)
Theorem hinted_enum_takes_the_second_name (fuel l : nat) (fs : fields)
    (key : option string) (st : BuildState) (values hints : list jval) :
  schemas st !! l = Some (HObj fs) →
  typesOfSchema (schemas st) l = [NAMED_ENUM] →
  cache_lookup (processed st) l NAMED_ENUM = None →
  array_elems (schemas st) (obj_get fs "enum") = Some values →
  array_elems (schemas st) (obj_get fs "tsEnumNames") = Some hints →
  let root := getRootSchema (schemas st) l in
  let hint :=
    name_hint (schemas st) l
      (coalesce (findKey (definitions_of st root) (JRef l)) key) in
  let first := names_after hint (usedNames st) in
  ∃ st' enum,
    parse (S fuel) (JRef l) key st = Ok (length (asts st), st')
    ∧ asts st' !! length (asts st) = Some enum
    ∧ ast_type enum = Some A_ENUM
    ∧ ast_standaloneName enum = chosen_name hint first
    ∧ usedNames st' = names_after hint first.
Proof.
  intros Hl Ht Hc Hvalues Hhints root hint first.
  set (st1 := with_placeholder st l NAMED_ENUM).
  set (st2 := set_definitionsCache (memo_after st root) st1).
  assert (Hfs : ∀ m, node_fields (schemas (set_definitionsCache m st1)) l = fs).
  { intros m. unfold node_fields. simpl. by rewrite Hl. }
  pose proof (array_elems_isArray _ _ _ Hvalues) as Harr.
  set (lits := map (fun i => literal_node (default JUndef (values !! i)))
                   (seq 0 (length values))).
  set (entries := map (fun i => {| enumAst := length (asts st2) + (i - 0);
                                   enumKeyName := default JUndef (hints !! i) |})
                      (seq 0 (length values))).
  set (st3 := set_asts (asts st2 ++ lits) st2).
  assert (Hentries :
    array_map (obj_get fs "enum")
      (fun v n =>
         let* a := parseLiteral v None in
         let* tsEnumNames := field l "tsEnumNames" in
         let* h' := get_schemas in
         match index_read h' tsEnumNames n with
         | Ok k => ret {| enumAst := a; enumKeyName := k |}
         | Throw e => throw e
         | OutOfFuel => fun _ => OutOfFuel
         end) st2 = Ok (entries, st3)).
  { unfold array_map.
    rewrite (bind_eval _ _ st2 (schemas st) st2) by reflexivity. cbv beta.
    rewrite Hvalues.
    apply (enum_entries_eval l (obj_get fs "enum") (obj_get fs "tsEnumNames")
             hints values (length values) 0 st2);
      [exact (f_equal (fun o => obj_get o "tsEnumNames") (Hfs _)) | done | done]. }
  set (st4 := set_usedNames first st3).
  set (st5 := set_usedNames (names_after hint first) st4).
  set (enum := node (obj_get fs "description") (obj_get fs "deprecated") key
                 (chosen_name hint first) (ParamEnum entries) A_ENUM).
  assert (Hnode : parseNonLiteral (parse fuel) l NAMED_ENUM key st1 = Ok (enum, st5)).
  { enter_switch st1. run_field. rewrite !Hfs.
    change (schemas st1) with (schemas st). rewrite Harr. cbn [negb].
    run_with Hentries.
    rewrite (bind_eval _ _ _ _ _ (standaloneName_exact _ _ _)). cbv beta.
    rewrite (bind_eval _ _ _ _ _ (standaloneName_exact _ _ _)). reflexivity. }
  eexists _, enum. split.
  { apply (parse_miss_fill _ _ _ _ _ _ _ _ Hl Ht Hc Hnode).
    simpl. rewrite !length_app. simpl. lia. }
  split.
  { simpl. apply list_lookup_insert_eq. rewrite !length_app. simpl. lia. }
  split; [reflexivity|]. split; reflexivity.
Qed.

(** A node of the CUSTOM_TYPE category, built for the first time: one new
    node that holds the schema's [tsType] as it is. *)
Theorem custom_type_build (fuel l : nat) (fs : fields) (key : option string)
    (st : BuildState) :
  schemas st !! l = Some (HObj fs) →
  typesOfSchema (schemas st) l = [CUSTOM_TYPE] →
  cache_lookup (processed st) l CUSTOM_TYPE = None →
  let root := getRootSchema (schemas st) l in
  let hint := name_hint (schemas st) l (findKey (definitions_of st root) (JRef l)) in
  ∃ st',
    parse (S fuel) (JRef l) key st = Ok (length (asts st), st')
    ∧ asts st' =
        asts st
        ++ [ node (obj_get fs "description") (obj_get fs "deprecated") key
               (chosen_name hint (usedNames st)) (ParamValue (obj_get fs "tsType"))
               A_CUSTOM_TYPE ]
    ∧ schemas st' = schemas st.
Proof.
  intros Hl Ht Hc root hint.
  set (st1 := with_placeholder st l CUSTOM_TYPE).
  set (st2 := set_definitionsCache (memo_after st root) st1).
  set (st3 := set_usedNames (names_after hint (usedNames st)) st2).
  set (n := node (obj_get fs "description") (obj_get fs "deprecated") key
              (chosen_name hint (usedNames st)) (ParamValue (obj_get fs "tsType"))
              A_CUSTOM_TYPE).
  assert (Hnode : parseNonLiteral (parse fuel) l CUSTOM_TYPE key st1 = Ok (n, st3)).
  { enter_switch st1.
    assert (Hfs : ∀ m, node_fields (schemas (set_definitionsCache m st1)) l = fs).
    { intros m. unfold node_fields. simpl. by rewrite Hl. }
    run_field. rewrite !Hfs.
    rewrite (bind_eval _ _ _ _ _ (standaloneName_exact _ _ _)). reflexivity. }
  eexists. split.
  { apply (parse_miss_fill _ _ _ _ _ _ _ _ Hl Ht Hc Hnode).
    simpl. rewrite length_app. simpl. lia. }
  simpl. split; [by rewrite insert_last|reflexivity].
Qed.

(** A node of the TYPED_ARRAY category whose [items] is one schema and not a
    list: when its build returns, the node is an ARRAY whose parameter is
    the node of the item schema, parsed under the key
    ["{keyNameFromDefinition}Items"] as it is written (the braces are not a
    placeholder), whatever key the array has in the definitions. *)
Theorem typed_array_of_one_item_schema (fuel l : nat) (key : option string)
    (st st' : BuildState) (record : AST) :
  isArray (schemas st) (obj_get (node_fields (schemas st) l) "items") = false →
  parseNonLiteral (parse fuel) l TYPED_ARRAY key st = Ok (record, st') →
  ast_type record = Some A_ARRAY
  ∧ ∃ p s,
      parse fuel (obj_get (node_fields (schemas st) l) "items")
        (Some "{keyNameFromDefinition}Items") s = Ok (p, st')
      ∧ schemas s = schemas st
      ∧ ast_params record = ParamOne p.
Proof.
  intros Harr Hrun. unfold parseNonLiteral in Hrun.
  apply bind_ok in Hrun as (h & s0 & [= <- <-] & Hrun).
  apply bind_ok in Hrun as (d & s1 & Hd & Hrun).
  apply same_schemas_memo in Hd. unfold same_schemas in Hd.
  apply bind_ok in Hrun as (description & s2 & [= <- <-] & Hrun).
  apply bind_ok in Hrun as (dep & s2 & [= <- <-] & Hrun).
  cbv zeta in Hrun.
  apply bind_ok in Hrun as (items & s3 & [= <- <-] & Hrun).
  rewrite Hd, Harr in Hrun.
  apply bind_ok in Hrun as (sn & s3 & Hsn & Hrun).
  apply same_schemas_standaloneName in Hsn. unfold same_schemas in Hsn.
  apply bind_ok in Hrun as (p & s4 & Hp & [= <- <-]).
  split; [reflexivity|]. exists p, s3. split; [exact Hp|].
  split; [by rewrite Hsn, Hd|reflexivity].
Qed.

End Categories.

(** ** Concrete documents *)

Section Concrete.
Import JS Parser Examples.

(** C2, refuted as stated: normalizing [{type: "array"}] gives
    [{type: "array", minItems: 0}]; normalizing that again adds the
    description ["@minItems 0"].  The annotation rule alone is not
    idempotent either. *)
Lemma normalize_twice_differs :
  Normalizer.normalize 2 0 "schema.json" array_node
    = Ok [ HObj [("type", JStr "array"); ("minItems", JNum 0)] ]
  ∧ Normalizer.normalize 2 0 "schema.json"
      [ HObj [("type", JStr "array"); ("minItems", JNum 0)] ]
    = Ok [ HObj [("type", JStr "array"); ("description", JStr "@minItems 0");
                 ("minItems", JNum 0)] ]
  ∧ [ HObj [("type", JStr "array"); ("minItems", JNum 0)] ]
    ≠ [ HObj [("type", JStr "array"); ("description", JStr "@minItems 0");
              ("minItems", JNum 0)] ]
  ∧ ¬ Normalizer.idempotent_at Normalizer.rule_bound_comments
        [ HObj [("type", JStr "array"); ("minItems", JNum 0)] ] 0 "schema.json" None.
Proof.
  split; [vm_compute; reflexivity|].
  split; [vm_compute; reflexivity|].
  split; [discriminate|].
  unfold Normalizer.idempotent_at. vm_compute. discriminate.
Qed.


(** C5: the definition map of the nested node is not collected from the
    root, although it is found when the nested node itself is the root. *)
Theorem nested_definitions_not_collected :
  getDefinitions nested_definitions (JRef 0) = []
  ∧ obj_get (node_fields nested_definitions 2) "$defs" = JRef 3
  ∧ node_fields nested_definitions 3 = [("Foo", JRef 4)]
  ∧ getDefinitions nested_definitions (JRef 2) = [("Foo", JRef 4)]
  ∧ findKey (getDefinitions nested_definitions (JRef 0)) (JRef 4) = None.
Proof. repeat split; vm_compute; reflexivity. Qed.

(** C6, refuted as stated: with [additionalProperties: false] and a single
    pattern property the record still has a required catch-all member. *)
Lemma closed_record_with_index_member :
  obj_get (node_fields closed_pattern_record 0) "additionalProperties" = JBool false
  ∧ ∃ st',
      parseSchema (parse 2) 0 None (initial closed_pattern_record ∅)
      = Ok ([ {| ast := 2; isPatternProperty := false; isRequired := true;
                 isUnreachableDefinition := false; paramKeyName := "[k: string]" |} ],
            st').
Proof. split; [reflexivity|]. eexists. vm_compute. reflexivity. Qed.

(** C8, refuted as stated: a node that declares the empty [id] and a
    different [$id] passes the rule untouched. *)
Lemma empty_id_passes :
  obj_has (node_fields empty_id 0) "id" = true
  ∧ obj_has (node_fields empty_id 0) "$id" = true
  ∧ obj_get (node_fields empty_id 0) "id" ≠ obj_get (node_fields empty_id 0) "$id"
  ∧ Normalizer.isSchemaLike empty_id 0 = true
  ∧ Normalizer.rule_id_to_dollar_id empty_id 0 "schema.json" None = Ok empty_id.
Proof. repeat split; try reflexivity. discriminate. Qed.

(** C10, refuted as stated: a hinted enumeration parsed under the empty
    property key stays anonymous. *)
Lemma enum_under_empty_key_is_anonymous :
  ∃ st' record enum,
    parse 3 (JRef 0) None (initial enum_under_empty_key ∅) = Ok (2, st')
    ∧ asts st' !! 2 = Some record
    ∧ ast_params record =
        ParamMembers [ {| ast := 3; isPatternProperty := false; isRequired := false;
                          isUnreachableDefinition := false; paramKeyName := "" |} ]
    ∧ asts st' !! 3 = Some enum
    ∧ ast_type enum = Some A_ENUM
    ∧ ast_keyName enum = Some ""
    ∧ ast_standaloneName enum = None.
Proof. eexists _, _, _. split; [vm_compute; reflexivity|]. repeat split. Qed.

(** In the example documents the stripping helper leaves a document that
    carries no name hints as it is. *)
Lemma stable_holds (doc : heap) : no_hints doc → stable (holds doc).
Proof.
  intros Hdoc. split; [|split].
  - intros h o Hh l x Hl. apply lookup_app_l_Some. by apply Hh.
  - intros h l Hh. simpl. unfold stripNameHints.
    destruct (h !! l) as [[fs|es]|] eqn:Hl; simpl; try exact Hh.
    intros l' x Hl'. specialize (Hh l' x Hl').
    destruct (decide (l = l')) as [<-|Hne].
    + rewrite Hl in Hh. injection Hh as <-.
      rewrite (Hdoc _ _ Hl').
      apply list_lookup_insert_eq. by eapply lookup_lt_Some.
    + by rewrite list_lookup_insert_ne.
  - intros h l Hh. exact Hh.
Qed.

Lemma holds_refl (doc : heap) : holds doc doc.
Proof. by intros l o. Qed.

Lemma no_hints_closed_record : no_hints closed_record.
Proof.
  intros l fs. destruct l as [|[|[|l]]]; simpl; try discriminate;
    intros [= <-]; reflexivity.
Qed.

Lemma no_hints_closed_pattern_record : no_hints closed_pattern_record.
Proof.
  intros l fs. destruct l as [|[|[|l]]]; simpl; try discriminate;
    intros [= <-]; reflexivity.
Qed.


Lemma rules_idempotent_witness :
  Normalizer.idempotent_at Normalizer.rule_destructure_unary unary_type 0
    "schema.json" None.
Proof.
  apply (rules_idempotent unary_type 0 "schema.json" None)
    with (name := "Destructure unary types").
  - intros tys. vm_compute. intros [= <-]. repeat constructor. by eexists.
  - right; left.
  - discriminate.
Defined.



Lemma catch_all_member_witness :
  ∃ members st',
    parseSchema (parse 2) 0 None (initial closed_record ∅) = Ok (members, st')
    ∧ ∃ declared patterns definitions,
        Forall (fun m => isPatternProperty m = false ∧ isUnreachableDefinition m = false)
          declared
        ∧ Forall (fun m => isUnreachableDefinition m = false) patterns
        ∧ Forall (fun m => isPatternProperty m = false ∧ isUnreachableDefinition m = true)
            definitions
        ∧ members = declared ++ patterns ++ definitions.
Proof.
  eexists _, _. split; [vm_compute; reflexivity|].
  eapply (catch_all_member (holds closed_record) 2 0 None (initial closed_record ∅)
            _ _ (JBool false)).
  - apply stable_holds, no_hints_closed_record.
  - apply holds_refl.
  - intros h Hh. unfold node_fields. by rewrite (Hh 0 _ eq_refl).
  - vm_compute. reflexivity.
Defined.

Lemma named_enum_build_witness :
  ∃ st' enum entries,
    parse 1 (JRef 0) None (initial hinted_enum ∅) = Ok (2, st')
    ∧ asts st' !! 2 = Some enum
    ∧ ast_type enum = Some A_ENUM
    ∧ ast_params enum = ParamEnum entries
    ∧ length entries = 2
    ∧ ∀ i v, [JNum 1; JNum 2] !! i = Some v →
        ∃ e, entries !! i = Some e
             ∧ enumKeyName e = default JUndef ([JStr "One"; JStr "Two"] !! i)
             ∧ asts st' !! enumAst e = Some (literal_node v).
Proof.
  assert (Hkind : typesOfSchema (schemas (initial hinted_enum ∅)) 0 = [NAMED_ENUM])
    by reflexivity.
  apply (proj2 (named_enum_build 0 0 _ None (initial hinted_enum ∅)
                  eq_refl Hkind eq_refl) _ _ eq_refl eq_refl).
Defined.

Lemma transform_id_rule_witness :
  Normalizer.rule_id_to_dollar_id conflicting_ids 0 "schema.json" None
  = Throw (ReferenceError
             "Schema must define either id or $id, not both. Given id=a, $id=b in schema.json").
Proof.
  apply (proj1 (proj2 (transform_id_rule conflicting_ids 0 _ "schema.json" None eq_refl)));
    try reflexivity.
  discriminate.
Defined.


Lemma standalone_name_fallback_witness :
  ∃ record st',
    parseNonLiteral (parse 1) 0 NAMED_ENUM (Some "color") (initial hinted_enum ∅)
    = Ok (record, st')
    ∧ ∃ used, ast_standaloneName record = Some (fst (generateName (JStr "color") used)).
Proof.
  eexists _, _. split; [vm_compute; reflexivity|].
  eapply (proj2 (standalone_name_fallback 1 0 NAMED_ENUM (Some "color")
                   (initial hinted_enum ∅) _ _ eq_refl eq_refl _ _) eq_refl).
  Unshelve.
  3: (vm_compute; reflexivity).
  intros d st1. vm_compute. by intros [= <- _].
Defined.

Lemma bounds_are_gone_before_items_are_normalized_witness :
  ∃ fs',
    Normalizer.and_then Normalizer.rule_remove_bounds
      (Normalizer.and_then Normalizer.rule_normalize_minItems
         (Normalizer.and_then Normalizer.rule_remove_big_maxItems
            Normalizer.rule_normalize_items))
      bounded_items 0 "schema.json" None
    = Ok (Normalizer.store bounded_items 0 fs')
    ∧ obj_get fs' "minItems" = JNum 0
    ∧ obj_has fs' "maxItems" = false
    ∧ obj_get fs' "items" = JRef 1.
Proof.
  destruct (proj2 (bounds_are_gone_before_items_are_normalized bounded_items 0 _
                     "schema.json" None eq_refl) eq_refl)
    as (fs' & Hrun & Hmin & Hmax & Hrest).
  exists fs'. split; [exact Hrun|]. split; [exact Hmin|]. split; [exact Hmax|].
  apply (Hrest "items"); discriminate.
Defined.

Lemma big_maxItems_threshold_witness :
  ∃ fs',
    Normalizer.and_then Normalizer.rule_normalize_minItems
      Normalizer.rule_remove_big_maxItems wide_bounds 0 "schema.json" None
    = Ok (Normalizer.store wide_bounds 0 fs')
    ∧ obj_get fs' "minItems" = JNum 0
    ∧ obj_has fs' "maxItems" = false.
Proof.
  destruct (big_maxItems_threshold wide_bounds 0 _ "schema.json" None 21
              eq_refl eq_refl eq_refl)
    as (fs' & Hrun & Hmin & _ & Hmax & _).
  exists fs'. split; [exact Hrun|]. split; [exact Hmin|exact Hmax].
Defined.

Lemma record_defaults_witness :
  ∃ h' fs',
    Normalizer.and_then Normalizer.rule_add_required
      (Normalizer.and_then Normalizer.rule_required_false
         Normalizer.rule_default_additionalProperties)
      closed_record 0 "schema.json" None = Ok h'
    ∧ h' !! 0 = Some (HObj fs')
    ∧ obj_has fs' "required" = true
    ∧ obj_get fs' "additionalProperties" = JBool false.
Proof.
  destruct (record_defaults closed_record 0 _ "schema.json" None eq_refl eq_refl)
    as (h' & fs' & Hrun & Hl & Hreq & _ & _ & _ & Hap & _).
  exists h', fs'. split; [exact Hrun|]. split; [exact Hl|]. split; [exact Hreq|].
  apply Hap. reflexivity.
Defined.

Lemma extends_normal_form_witness :
  ∃ h' fs' a,
    Normalizer.and_then Normalizer.rule_remove_empty_extends
      Normalizer.rule_extends_array single_extends 0 "schema.json" None = Ok h'
    ∧ h' !! 0 = Some (HObj fs')
    ∧ obj_get fs' "extends" = JRef a
    ∧ h' !! a = Some (HArr [JRef 1]).
Proof.
  destruct (extends_normal_form single_extends 0 _ "schema.json" None eq_refl)
    as (h' & fs' & Hrun & Hl & _ & _ & _ & Hwrap & _).
  destruct (Hwrap eq_refl eq_refl) as (a & Ha & Harr).
  by exists h', fs', a.
Defined.

Lemma nullable_type_collapses_witness :
  ∃ h' fs',
    Normalizer.and_then Normalizer.rule_remove_null_type
      Normalizer.rule_destructure_unary nullable_enum 0 "schema.json" None = Ok h'
    ∧ h' !! 0 = Some (HObj fs')
    ∧ obj_get fs' "type" = JStr "string".
Proof.
  destruct (nullable_type_collapses nullable_enum 0 _ "schema.json" None
              [JNull; JStr "a"] [JStr "string"; JStr "null"]
              eq_refl eq_refl eq_refl eq_refl eq_refl)
    as (h' & fs' & Hrun & Hl & Hty & _).
  by exists h', fs'.
Defined.

Lemma negative_maxItems_is_a_range_error_witness :
  ∃ msg,
    Normalizer.rule_normalize_items negative_bound 0 "schema.json" None
    = Throw (RangeError msg).
Proof.
  apply (negative_maxItems_is_a_range_error negative_bound 0 _ "schema.json" None
           (-1) 1 eq_refl eq_refl eq_refl eq_refl);
    [lia|reflexivity|lia].
Defined.

Lemma rules_write_their_own_node_witness :
  ∃ h',
    Normalizer.rule_add_required closed_record 0 "schema.json" None = Ok h'
    ∧ Normalizer.writes_only 0 closed_record h'.
Proof.
  eexists. split; [vm_compute; reflexivity|].
  apply (rules_write_their_own_node closed_record _ 0 "schema.json" None
           "Add empty `required` property if none is defined"
           Normalizer.rule_add_required).
  - do 2 right. left.
  - discriminate.
  - vm_compute. reflexivity.
Defined.

Lemma other_rules_never_fail_witness :
  ∃ h', Normalizer.rule_extends_array single_extends 0 "schema.json" None = Ok h'.
Proof.
  apply (other_rules_never_fail single_extends 0 "schema.json" None
           "Make extends always an array, if it is defined"
           Normalizer.rule_extends_array).
  - do 13 right. left.
  - discriminate.
  - discriminate.
  - discriminate.
Defined.

Lemma no_hints_required_record : no_hints required_record.
Proof.
  intros l fs. destruct l as [|[|[|[|[|l]]]]]; simpl; try discriminate;
    intros [= <-]; reflexivity.
Qed.

Lemma members_are_required_when_listed_witness :
  ∃ members st',
    parseSchema (parse 2) 0 None (initial required_record ∅) = Ok (members, st')
    ∧ ∃ declared others,
        members = declared ++ others
        ∧ Forall2 (fun k m => paramKeyName m = k
                              ∧ isRequired m = includes [JStr "a"] (JStr k))
            ["a"; "b"] declared
        ∧ Forall (fun m => isRequired m = includes [JStr "a"] (JStr (paramKeyName m))
                           ∨ (paramKeyName m = "[k: string]" ∧ isRequired m = true))
            others.
Proof.
  eexists _, _. split; [vm_compute; reflexivity|].
  eapply (members_are_required_when_listed (holds required_record) 2 0 None
            (initial required_record ∅) _ _ [JStr "a"]).
  - apply stable_holds, no_hints_required_record.
  - apply holds_refl.
  - intros h Hh. unfold node_fields. rewrite (Hh 0 _ eq_refl). simpl.
    by rewrite (Hh 4 _ eq_refl).
  - vm_compute. reflexivity.
Defined.

Lemma build_fills_every_placeholder_witness :
  ∃ a st',
    parse 3 (JRef 0) None (initial self_ref ∅) = Ok (a, st')
    ∧ well_formed (fun _ => False) st'
    ∧ Forall filled (asts st')
    ∧ length (asts (initial self_ref ∅)) ≤ length (asts st')
    ∧ a < length (asts st').
Proof.
  eexists _, _. split; [vm_compute; reflexivity|].
  apply (build_fills_every_placeholder 3 (JRef 0) None (initial self_ref ∅)).
  - apply initial_well_formed.
  - vm_compute. reflexivity.
Defined.

Lemma values_build_as_literals_witness :
  parse 1 (JBool true) (Some "flag") (initial [] ∅)
  = Ok (2, set_asts
             (asts (initial [] ∅)
              ++ [node JUndef JUndef (Some "flag") None NoParams A_ANY])
             (initial [] ∅)).
Proof.
  apply (values_build_as_literals 0 (JBool true) (Some "flag") (initial [] ∅)).
  reflexivity.
Defined.

Lemma reference_category_aborts_witness :
  @parse runtime utils_with_references 1 (JRef 0) None (initial reference_node ∅)
  = Throw (Error "Refs should have been resolved by the resolver! - [object Object]").
Proof.
  apply (@reference_category_aborts runtime utils_with_references 0 0
           [("$ref", JStr "#/x")] None (initial reference_node ∅));
    reflexivity.
Defined.

Lemma plain_type_categories_build_witness :
  ∃ st',
    parse 1 (JRef 0) (Some "n") (initial number_node ∅) = Ok (2, st')
    ∧ asts st' !! 2
      = Some (node (JStr "a count") JUndef (Some "n") None NoParams A_NUMBER).
Proof.
  eexists. split.
  - apply (plain_type_categories_build 0 0 [("type", JStr "number");
                                            ("description", JStr "a count")]
             NUMBER A_NUMBER (Some "n") (initial number_node ∅));
      reflexivity.
  - reflexivity.
Defined.


Lemma unnamed_enum_build_witness :
  ∃ st',
    parse 1 (JRef 0) None (initial plain_enum ∅) = Ok (2, st')
    ∧ asts st' =
        asts (initial plain_enum ∅)
        ++ [node JUndef JUndef None None (ParamList [3; 4]) A_UNION]
        ++ [literal_node (JStr "a"); literal_node (JStr "b")].
Proof.
  assert (Hkind : typesOfSchema (schemas (initial plain_enum ∅)) 0 = [UNNAMED_ENUM])
    by reflexivity.
  apply (proj1 (unnamed_enum_build 0 0 [("enum", JRef 1)] None (initial plain_enum ∅)
                  eq_refl Hkind eq_refl) [JStr "a"; JStr "b"]).
  left. reflexivity.
Defined.

Lemma list_categories_have_one_parameter_per_entry_witness :
  ∃ record st',
    parseNonLiteral (parse 1) 0 ANY_OF None (initial any_of_node ∅) = Ok (record, st')
    ∧ ast_type record = Some A_UNION
    ∧ ∃ ps, ast_params record = ParamList ps ∧ length ps = 2.
Proof.
  eexists _, _. split; [vm_compute; reflexivity|].
  eapply (proj1 (list_categories_have_one_parameter_per_entry 1 0 ANY_OF "anyOf" A_UNION
                   None (initial any_of_node ∅) eq_refl)
            [JRef 2; JRef 3]).
  - reflexivity.
  - vm_compute. reflexivity.
Defined.

Lemma members_of_an_empty_record_witness :
  parseSchema (parse 0) 0 None (initial empty_object ∅)
  = Ok ([ {| ast := T_ANY_ADDITIONAL_PROPERTIES; isPatternProperty := false;
             isRequired := true; isUnreachableDefinition := false;
             paramKeyName := "[k: string]" |} ], initial empty_object ∅).
Proof.
  apply (proj1 (members_of_an_empty_record (parse 0) 0 None (initial empty_object ∅)
                  eq_refl eq_refl eq_refl)).
  left. reflexivity.
Defined.

Lemma build_writes_the_store_through_helpers_only_witness :
  ∃ a st',
    parse 3 (JRef 0) None (initial closed_record ∅) = Ok (a, st')
    ∧ holds closed_record (schemas st').
Proof.
  eexists _, _. split; [vm_compute; reflexivity|].
  eapply (build_writes_the_store_through_helpers_only (holds closed_record) 3 (JRef 0)
            None (initial closed_record ∅)).
  - apply stable_holds, no_hints_closed_record.
  - apply holds_refl.
  - vm_compute. reflexivity.
Defined.

Lemma const_is_built_as_a_single_literal_witness :
  ∃ h' st' sn,
    Normalizer.rule_const_to_enum const_node 0 "schema.json" None = Ok h'
    ∧ parse 1 (JRef 0) None (set_schemas h' (initial const_node ∅)) = Ok (2, st')
    ∧ asts st' =
        asts (initial const_node ∅)
        ++ [ node JUndef JUndef None sn (ParamList [3]) A_UNION;
             literal_node (JStr "x") ].
Proof.
  destruct (const_is_built_as_a_single_literal 0 0 [("const", JStr "x")]
              "schema.json" None None (initial const_node ∅) eq_refl)
    as (h' & Hrule & Hbuild); [discriminate|].
  assert (Hh : h' = [HObj [("enum", JRef 1)]; HArr [JStr "x"]]).
  { vm_compute in Hrule. by injection Hrule as <-. }
  subst h'.
  destruct Hbuild as (st' & sn & Hrun & Hasts); [reflexivity|reflexivity|].
  by exists [HObj [("enum", JRef 1)]; HArr [JStr "x"]], st', sn.
Defined.

Lemma normalized_untyped_array_is_never_a_tuple_witness :
  ∃ h' st' sn,
    Normalizer.and_then Normalizer.rule_remove_bounds
      (Normalizer.and_then Normalizer.rule_normalize_minItems
         (Normalizer.and_then Normalizer.rule_remove_big_maxItems
            Normalizer.rule_normalize_items))
      untyped_array_node 0 "schema.json" None = Ok h'
    ∧ parse 1 (JRef 0) None (set_schemas h' (initial untyped_array_node ∅)) = Ok (2, st')
    ∧ asts st' =
        asts (initial untyped_array_node ∅)
        ++ [ node JUndef JUndef None sn (ParamOne T_ANY) A_ARRAY ].
Proof.
  destruct (normalized_untyped_array_is_never_a_tuple 0 0
              [("type", JStr "array"); ("minItems", JNum 2)]
              "schema.json" None None (initial untyped_array_node ∅) eq_refl eq_refl)
    as (h' & Hrule & Hbuild).
  assert (Hh : h' = [HObj [("type", JStr "array"); ("minItems", JNum 0)]]).
  { vm_compute in Hrule. by injection Hrule as <-. }
  subst h'.
  destruct Hbuild as (st' & sn & Hrun & Hasts); [reflexivity|reflexivity|].
  by exists [HObj [("type", JStr "array"); ("minItems", JNum 0)]], st', sn.
Defined.

Lemma definition_members_carry_a_reference_note_witness :
  ∃ st' req sn,
    parseSchema (parse 1) 0 (Some "Root") (initial definitions_record ∅) =
      Ok ([ {| ast := 2; isPatternProperty := false; isRequired := req;
               isUnreachableDefinition := true; paramKeyName := "Id" |} ], st')
    ∧ asts st' =
        asts (initial definitions_record ∅)
        ++ [ node (JStr ("An id" +:+ nl +:+ nl +:+ definition_comment (Some "Root") "Id"))
               JUndef (Some "Id") sn NoParams A_STRING ].
Proof.
  assert (Hkind : typesOfSchema (schemas (initial definitions_record ∅)) 2 = [STRING])
    by reflexivity.
  apply (definition_members_carry_a_reference_note 0 0 2 "Id"
           [("type", JStr "string"); ("description", JStr "An id")]
           STRING A_STRING (Some "Root") (initial definitions_record ∅)).
  - eexists _, 1, _. repeat split; reflexivity.
  - reflexivity.
  - exact Hkind.
  - reflexivity.
  - reflexivity.
Defined.

Lemma hinted_enum_takes_the_second_name_witness :
  ∃ st' enum,
    parse 1 (JRef 0) None (initial titled_enum ∅) = Ok (2, st')
    ∧ asts st' !! 2 = Some enum
    ∧ ast_type enum = Some A_ENUM
    ∧ ast_standaloneName enum = Some "Color1".
Proof.
  assert (Hkind : typesOfSchema (schemas (initial titled_enum ∅)) 0 = [NAMED_ENUM])
    by reflexivity.
  destruct (hinted_enum_takes_the_second_name 0 0
              [("title", JStr "Color"); ("enum", JRef 1); ("tsEnumNames", JRef 2)]
              None (initial titled_enum ∅) [JNum 1] [JStr "One"]
              eq_refl Hkind eq_refl eq_refl eq_refl)
    as (st' & enum & Hrun & Hat & Hty & Hname & _).
  exists st', enum. repeat split; assumption.
Defined.

Lemma custom_type_build_witness :
  ∃ st',
    @parse runtime utils_with_custom_types 1 (JRef 0) None (initial custom_type_node ∅)
    = Ok (2, st')
    ∧ asts st' !! 2
      = Some (node JUndef JUndef None None (ParamValue (JStr "Date")) A_CUSTOM_TYPE).
Proof.
  destruct (@custom_type_build runtime utils_with_custom_types 0 0
              [("tsType", JStr "Date")] None (initial custom_type_node ∅))
    as (st' & Hrun & Hasts & _); try reflexivity.
  exists st'. split; [exact Hrun|]. rewrite Hasts. reflexivity.
Defined.

Lemma typed_array_of_one_item_schema_witness :
  ∃ record st',
    parseNonLiteral (parse 1) 0 TYPED_ARRAY None (initial typed_array_node ∅)
    = Ok (record, st')
    ∧ ast_type record = Some A_ARRAY
    ∧ ∃ p s,
        parse 1 (JRef 1) (Some "{keyNameFromDefinition}Items") s = Ok (p, st')
        ∧ schemas s = typed_array_node
        ∧ ast_params record = ParamOne p.
Proof.
  eexists _, _. split; [vm_compute; reflexivity|].
  eapply (typed_array_of_one_item_schema 1 0 None (initial typed_array_node ∅)).
  - reflexivity.
  - vm_compute. reflexivity.
Defined.

End Concrete.
